(** * pyQuadriFlow: the remeshing pipeline of [src/pipeline.cpp]

    A shallow embedding of [Parametrizer2::LoadFromArrays] and
    [run_quadriflow], followed by the properties the specification
    states about them.

    The numerical solver (classes [Parametrizer], [Hierarchy] and
    [Optimizer] of the QuadriFlow library) is not part of the sources:
    it enters the development as a record of stage functions, [Engine],
    over which every theorem is universally quantified. *)

From Stdlib Require Import ZArith Floats Lia.
From stdpp Require Import gmap strings list.

Open Scope Z_scope.

(* ================================================================== *)
(** * Part I: the model *)
(* ================================================================== *)

(** ** Machine integers

    [int] is a 32-bit two's complement integer, [uint32_t] a 32-bit
    unsigned one.  Values are carried as [Z]; every conversion the
    source performs is written out. *)

Definition INT_MAX : Z := 2147483647.
Definition INT_MIN : Z := -2147483648.
Definition UINT32_MAX : Z := 4294967295.

(** [(uint32_t) z]: reduction modulo 2^32. *)
Definition to_uint32 (z : Z) : Z := z mod 4294967296.

(** [static_cast<int>(z)] on an unsigned or wider value, and the bit
    reinterpretation that [memcpy] performs from [uint32_t] to [int]. *)
Definition to_int (z : Z) : Z := (z + 2147483648) mod 4294967296 - 2147483648.

Definition int_range (z : Z) : bool := (INT_MIN <=? z) && (z <=? INT_MAX).

(** ** Outcomes of a C++ computation *)

Inductive exn : Type :=
| runtime_error (what : string)   (* std::runtime_error *)
| out_of_range                    (* std::out_of_range, from vector::at *)
| length_error                    (* std::length_error, from vector::resize *)
| engine_error (what : string).   (* anything a solver stage raises *)

(** A computation returns, throws, has undefined behaviour (an
    out-of-bounds raw access, signed overflow) or never terminates. *)
Inductive outcome (A : Type) : Type :=
| Ret (a : A)
| Throw (e : exn)
| Undefined
| Diverges.
Arguments Ret {A} a.
Arguments Throw {A} e.
Arguments Undefined {A}.
Arguments Diverges {A}.

Definition bindO {A B} (m : outcome A) (f : A -> outcome B) : outcome B :=
  match m with
  | Ret a => f a
  | Throw e => Throw e
  | Undefined => Undefined
  | Diverges => Diverges
  end.

Notation "'let!' x ':=' m 'in' k" := (bindO m (fun x => k))
  (at level 10, x name, m at level 100, k at level 200).

(** [mapO f l]: run [f] on the elements of [l] from left to right and
    stop at the first one that does not return. *)
Fixpoint mapO {A B} (f : A -> outcome B) (l : list A) : outcome (list B) :=
  match l with
  | [] => Ret []
  | x :: l' =>
      let! y := f x in
      let! ys := mapO f l' in
      Ret (y :: ys)
  end.

(** ** Raw array accesses *)

(** [a[i]] on a pointer, an Eigen vector or a [std::vector]: no bounds
    check, so an index outside the storage is undefined behaviour. *)
Definition read {A} (a : list A) (i : Z) : outcome A :=
  if (0 <=? i) && (i <? Z.of_nat (length a))
  then match a !! Z.to_nat i with
       | Some x => Ret x
       | None => Undefined
       end
  else Undefined.

(** [a[i] = x]. *)
Definition write {A} (a : list A) (i : Z) (x : A) : outcome (list A) :=
  if (0 <=? i) && (i <? Z.of_nat (length a))
  then Ret (<[Z.to_nat i := x]> a)
  else Undefined.

(** [a[i]] where the index [i] is an [int] expression: evaluating it
    must not overflow. *)
Definition read_int {A} (a : list A) (i : Z) : outcome A :=
  if int_range i then read a i else Undefined.

(** [v.at(i)] on a [std::vector], [i] of type [size_t]: bounds-checked. *)
Definition at_ {A} (v : list A) (i : Z) : outcome A :=
  if (0 <=? i) && (i <? Z.of_nat (length v))
  then match v !! Z.to_nat i with
       | Some x => Ret x
       | None => Throw out_of_range
       end
  else Throw out_of_range.

(** ** Eigen vectors *)

Record Vector3d : Type := mkVector3d { vx : float; vy : float; vz : float }.
Record Vector4i : Type := mkVector4i { q0 : Z; q1 : Z; q2 : Z; q3 : Z }.

Definition Vector3d_sub (a b : Vector3d) : Vector3d :=
  mkVector3d (vx a - vx b)%float (vy a - vy b)%float (vz a - vz b)%float.

(** [v * s + o], coefficient by coefficient. *)
Definition Vector3d_scale_add (v : Vector3d) (s : float) (o : Vector3d) : Vector3d :=
  mkVector3d (vx v * s + vx o)%float (vy v * s + vy o)%float (vz v * s + vz o)%float.

Definition squaredNorm (v : Vector3d) : float :=
  (vx v * vx v + vy v * vy v + vz v * vz v)%float.

(** [v.normalize()]: division by the norm. *)
Definition normalize (v : Vector3d) : Vector3d :=
  let n := PrimFloat.sqrt (squaredNorm v) in
  mkVector3d (vx v / n)%float (vy v / n)%float (vz v / n)%float.

(** [F_compact[i][k]] *)
Definition Vector4i_get (q : Vector4i) (k : Z) : Z :=
  if k =? 0 then q0 q else if k =? 1 then q1 q else if k =? 2 then q2 q else q3 q.

(** ** The solver's data

    [Hierarchy] and [Parametrizer] are declared in headers of the solver
    library.  The records below list the members [pipeline.cpp] names,
    with the container shapes it relies on; [X] stands for everything
    else such an object holds. *)

Record Hierarchy (X : Type) : Type := mkHierarchy {
  rng_seed : Z;
  mF : list Z;                  (* MatrixXi, 3 rows, column-major storage *)
  mE2E : list Z;                (* VectorXi: opposite half-edge, or -1 *)
  mV : list (list Vector3d);    (* per level: one column per vertex *)
  mCO : list (list Vector3d);   (* per level: constrained positions *)
  mCQ : list (list Vector3d);   (* per level: constrained directions *)
  mCOw : list (list float);     (* per level: position weights *)
  mCQw : list (list float);     (* per level: direction weights *)
  h_rest : X
}.
Arguments mkHierarchy {X}.
Arguments rng_seed {X}.
Arguments mF {X}.
Arguments mE2E {X}.
Arguments mV {X}.
Arguments mCO {X}.
Arguments mCQ {X}.
Arguments mCOw {X}.
Arguments mCQw {X}.
Arguments h_rest {X}.

Record Parametrizer (X : Type) : Type := mkParametrizer {
  flag_preserve_sharp : Z;
  flag_preserve_boundary : Z;
  flag_adaptive_scale : Z;
  flag_aggresive_sat : Z;
  flag_minimum_cost_flow : Z;
  hierarchy : Hierarchy X;
  V : list Vector3d;            (* MatrixXd, 3 rows: one column per vertex *)
  F : list Z;                   (* MatrixXi, 3 rows, column-major storage *)
  rho : list float;
  normalize_scale : float;
  normalize_offset : Vector3d;
  O_compact : list Vector3d;
  F_compact : list Vector4i;
  p_rest : X
}.
Arguments mkParametrizer {X}.
Arguments flag_preserve_sharp {X}.
Arguments flag_preserve_boundary {X}.
Arguments flag_adaptive_scale {X}.
Arguments flag_aggresive_sat {X}.
Arguments flag_minimum_cost_flow {X}.
Arguments hierarchy {X}.
Arguments V {X}.
Arguments F {X}.
Arguments rho {X}.
Arguments normalize_scale {X}.
Arguments normalize_offset {X}.
Arguments O_compact {X}.
Arguments F_compact {X}.
Arguments p_rest {X}.

(** Number of columns of a 3-row integer matrix. *)
Definition cols3 (m : list Z) : Z := Z.of_nat (length m) / 3.

(** [m(r, c)] on a 3-row column-major matrix. *)
Definition coeff3 (m : list Z) (r c : Z) : outcome Z := read m (3 * c + r).

(** [m[0].col(i)] and [m[0][i]]: level 0 of a per-level array. *)
Definition read0 {A} (m : list (list A)) (i : Z) : outcome A :=
  let! l := read m 0 in read l i.

(** [m[0].col(i) = x] and [m[0][i] = x]. *)
Definition write0 {A} (m : list (list A)) (i : Z) (x : A) : outcome (list (list A)) :=
  let! l := read m 0 in
  let! l' := write l i x in
  write m 0 l'.

Section Setters.
Context {X : Type}.

Definition set_constraints (h : Hierarchy X)
    (co cq : list (list Vector3d)) (cow cqw : list (list float)) : Hierarchy X :=
  mkHierarchy (rng_seed h) (mF h) (mE2E h) (mV h) co cq cow cqw (h_rest h).

Definition set_rng_seed (h : Hierarchy X) (s : Z) : Hierarchy X :=
  mkHierarchy s (mF h) (mE2E h) (mV h) (mCO h) (mCQ h) (mCOw h) (mCQw h) (h_rest h).

Definition set_hierarchy (p : Parametrizer X) (h : Hierarchy X) : Parametrizer X :=
  mkParametrizer (flag_preserve_sharp p) (flag_preserve_boundary p)
    (flag_adaptive_scale p) (flag_aggresive_sat p) (flag_minimum_cost_flow p)
    h (V p) (F p) (rho p) (normalize_scale p) (normalize_offset p)
    (O_compact p) (F_compact p) (p_rest p).

Definition set_rho (p : Parametrizer X) (r : list float) : Parametrizer X :=
  mkParametrizer (flag_preserve_sharp p) (flag_preserve_boundary p)
    (flag_adaptive_scale p) (flag_aggresive_sat p) (flag_minimum_cost_flow p)
    (hierarchy p) (V p) (F p) r (normalize_scale p) (normalize_offset p)
    (O_compact p) (F_compact p) (p_rest p).

Definition set_mesh (p : Parametrizer X) (v : list Vector3d) (f : list Z) : Parametrizer X :=
  mkParametrizer (flag_preserve_sharp p) (flag_preserve_boundary p)
    (flag_adaptive_scale p) (flag_aggresive_sat p) (flag_minimum_cost_flow p)
    (hierarchy p) v f (rho p) (normalize_scale p) (normalize_offset p)
    (O_compact p) (F_compact p) (p_rest p).

Definition set_flag_preserve_sharp (p : Parametrizer X) (b : Z) : Parametrizer X :=
  mkParametrizer b (flag_preserve_boundary p)
    (flag_adaptive_scale p) (flag_aggresive_sat p) (flag_minimum_cost_flow p)
    (hierarchy p) (V p) (F p) (rho p) (normalize_scale p) (normalize_offset p)
    (O_compact p) (F_compact p) (p_rest p).

Definition set_flag_preserve_boundary (p : Parametrizer X) (b : Z) : Parametrizer X :=
  mkParametrizer (flag_preserve_sharp p) b
    (flag_adaptive_scale p) (flag_aggresive_sat p) (flag_minimum_cost_flow p)
    (hierarchy p) (V p) (F p) (rho p) (normalize_scale p) (normalize_offset p)
    (O_compact p) (F_compact p) (p_rest p).

Definition set_flag_adaptive_scale (p : Parametrizer X) (b : Z) : Parametrizer X :=
  mkParametrizer (flag_preserve_sharp p) (flag_preserve_boundary p)
    b (flag_aggresive_sat p) (flag_minimum_cost_flow p)
    (hierarchy p) (V p) (F p) (rho p) (normalize_scale p) (normalize_offset p)
    (O_compact p) (F_compact p) (p_rest p).

Definition set_flag_aggresive_sat (p : Parametrizer X) (b : Z) : Parametrizer X :=
  mkParametrizer (flag_preserve_sharp p) (flag_preserve_boundary p)
    (flag_adaptive_scale p) b (flag_minimum_cost_flow p)
    (hierarchy p) (V p) (F p) (rho p) (normalize_scale p) (normalize_offset p)
    (O_compact p) (F_compact p) (p_rest p).

Definition set_flag_minimum_cost_flow (p : Parametrizer X) (b : Z) : Parametrizer X :=
  mkParametrizer (flag_preserve_sharp p) (flag_preserve_boundary p)
    (flag_adaptive_scale p) (flag_aggresive_sat p) b
    (hierarchy p) (V p) (F p) (rho p) (normalize_scale p) (normalize_offset p)
    (O_compact p) (F_compact p) (p_rest p).
End Setters.

(** ** The solver as an interface

    One function per stage [pipeline.cpp] calls.  Member functions of
    [Parametrizer] act on the whole object, member functions of
    [Hierarchy] and the static functions of [Optimizer] on the
    hierarchy they are handed (and on [rho], passed by reference). *)

Record Engine (X : Type) : Type := mkEngine {
  fresh_rest : X;
  NormalizeMesh : Parametrizer X -> outcome (Parametrizer X);
  Initialize : Z -> Parametrizer X -> outcome (Parametrizer X);
  clearConstraints : Hierarchy X -> outcome (Hierarchy X);
  propagateConstraints : Hierarchy X -> outcome (Hierarchy X);
  optimize_orientations : Hierarchy X -> outcome (Hierarchy X);
  ComputeOrientationSingularities : Parametrizer X -> outcome (Parametrizer X);
  EstimateSlope : Parametrizer X -> outcome (Parametrizer X);
  optimize_scale : Hierarchy X -> list float -> Z -> outcome (Hierarchy X * list float);
  optimize_positions : Hierarchy X -> Z -> outcome (Hierarchy X);
  ComputePositionSingularities : Parametrizer X -> outcome (Parametrizer X);
  ComputeIndexMap : Parametrizer X -> outcome (Parametrizer X)
}.
Arguments mkEngine {X}.
Arguments fresh_rest {X}.
Arguments NormalizeMesh {X}.
Arguments Initialize {X}.
Arguments clearConstraints {X}.
Arguments propagateConstraints {X}.
Arguments optimize_orientations {X}.
Arguments ComputeOrientationSingularities {X}.
Arguments EstimateSlope {X}.
Arguments optimize_scale {X}.
Arguments optimize_positions {X}.
Arguments ComputePositionSingularities {X}.
Arguments ComputeIndexMap {X}.

(** ** Observations

    The run is instrumented with a log.  Each stage leaves one entry
    when it starts: its name, the pipeline object [field] as it is at
    that moment, and the integer arguments of the call.  Each call of
    [edge.normalize()] leaves the vector it is applied to. *)

Inductive stage : Type :=
| SetFlags                 (* lines 120-127 *)
| StLoadFromArrays         (* line 130 *)
| StNormalizeMesh          (* line 93 *)
| StInitialize             (* line 131 *)
| StClearConstraints       (* line 136 *)
| DeriveBoundary           (* lines 137-156 *)
| StPropagateConstraints   (* line 157 *)
| StOptimizeOrientations   (* line 161 *)
| StOrientationSingularities (* line 162 *)
| StEstimateSlope          (* line 165 *)
| StOptimizeScale          (* line 168 *)
| StOptimizePositions      (* line 170 *)
| StPositionSingularities  (* line 171 *)
| StIndexMap.              (* line 173 *)

Inductive event (X : Type) : Type :=
| Call (s : stage) (field : Parametrizer X) (args : list Z)
| Normalize (edge : Vector3d).
Arguments Call {X}.
Arguments Normalize {X}.

Definition stage_of {X} (e : event X) : option stage :=
  match e with
  | Call s _ _ => Some s
  | Normalize _ => None
  end.

(** The stages a log shows, in order. *)
Definition stages {X} (t : list (event X)) : list stage := omap stage_of t.

(** A logged computation: what it comes to, and the log up to there. *)
Definition M (X A : Type) : Type := (outcome A * list (event X))%type.

Definition retM {X A} (a : A) : M X A := (Ret a, []).

Definition bindM {X A B} (m : M X A) (f : A -> M X B) : M X B :=
  match fst m with
  | Ret a => (fst (f a), snd m ++ snd (f a))
  | Throw e => (Throw e, snd m)
  | Undefined => (Undefined, snd m)
  | Diverges => (Diverges, snd m)
  end.

Notation "x <- m ;; k" := (bindM m (fun x => k))
  (at level 100, m at next level, right associativity).

Definition lift {X A} (o : outcome A) : M X A := (o, []).
Definition throw {X A} (e : exn) : M X A := (Throw e, []).
Definition emit {X} (e : event X) : M X unit := (Ret tt, [e]).

(** A stage call: log it, then let the solver run. *)
Definition call {X A} (s : stage) (field : Parametrizer X) (args : list Z)
    (o : outcome A) : M X A :=
  (o, [Call s field args]).

(** ** Loops *)

(** [n] iterations of [body], the counter starting at [i]. *)
Fixpoint forO {S} (n : nat) (i : Z) (body : Z -> S -> outcome S) (s : S) : outcome S :=
  match n with
  | O => Ret s
  | S n' => let! s' := body i s in forO n' (i + 1) body s'
  end.

Fixpoint forM {X S} (n : nat) (i : Z) (body : Z -> S -> M X S) (s : S) : M X S :=
  match n with
  | O => retM s
  | S n' => s' <- body i s ;; forM n' (i + 1) body s'
  end.

(** [for (int i = 0; i < n; ++i)] *)
Definition for_int {S} (n : Z) (body : Z -> S -> outcome S) (s : S) : outcome S :=
  forO (Z.to_nat n) 0 body s.

(** [for (uint32_t i = 0; i < bound; ++i)] with a 64-bit [bound]: a
    counter that wraps before it reaches the bound never leaves the
    loop; the model does not follow such a run any further. *)
Definition for_uint32 {X S} (bound : Z) (body : Z -> S -> M X S) (s : S) : M X S :=
  if UINT32_MAX <? bound then (Diverges, [])
  else forM (Z.to_nat bound) 0 body s.

(** ** [Parametrizer2::LoadFromArrays] (lines 28-94) *)

(** [struct obj_vertex]: members [p], [n], [uv], all [uint32_t]. *)
Record obj_vertex : Type := mk_obj_vertex { ov_p : Z; ov_n : Z; ov_uv : Z }.

(** The constructor [obj_vertex(uint32_t _p)]: [n] and [uv] keep their
    initialiser [(uint32_t)-1]. *)
Definition obj_vertex_of (_p : Z) : obj_vertex :=
  mk_obj_vertex _p (to_uint32 (-1)) (to_uint32 (-1)).

(** [obj_vertex::operator==] is member-wise equality; the map below is
    keyed by it. *)
#[global] Instance obj_vertex_eq_dec : EqDecision obj_vertex.
Proof. solve_decision. Defined.

#[global] Instance obj_vertex_countable : Countable obj_vertex.
Proof.
  refine (inj_countable' (fun v => (ov_p v, ov_n v, ov_uv v))
            (fun t => mk_obj_vertex t.1.1 t.1.2 t.2) _).
  intros []; reflexivity.
Defined.

(** The state of the face loop: [indices], [vertices], [vertexMap]. *)
Record dedup : Type := mkDedup {
  st_indices : list Z;
  st_vertices : list obj_vertex;
  st_vertexMap : gmap obj_vertex Z
}.

Definition dedup_empty : dedup := mkDedup [] [] ∅.

(** Lines 73-81: the body of the loop over the three corners. *)
Definition add_corner (st : dedup) (v : obj_vertex) : dedup :=
  match st_vertexMap st !! v with
  | None =>
      let k := to_uint32 (Z.of_nat (length (st_vertices st))) in
      mkDedup (st_indices st ++ [k]) (st_vertices st ++ [v]) (<[v := k]> (st_vertexMap st))
  | Some k =>
      mkDedup (st_indices st ++ [k]) (st_vertices st) (st_vertexMap st)
  end.

(** Lines 67-82: one face. *)
Definition add_face (face_indices : list Z) (i : Z) (st : dedup) : outcome dedup :=
  let! a := read_int face_indices (i * 3) in
  let! b := read_int face_indices (i * 3 + 1) in
  let! c := read_int face_indices (i * 3 + 2) in
  let tri0 := obj_vertex_of (to_uint32 a) in
  let tri1 := obj_vertex_of (to_uint32 b) in
  let tri2 := obj_vertex_of (to_uint32 c) in
  Ret (add_corner (add_corner (add_corner st tri0) tri1) tri2).

(** Lines 66-83. *)
Definition face_loop (face_indices : list Z) (n_faces : Z) : outcome dedup :=
  for_int n_faces (add_face face_indices) dedup_empty.

(** Lines 61-64: [reserve] throws on a negative count (it is converted
    to a huge [size_t]); then one position per input vertex. *)
Definition add_position (verts : list float) (i : Z) (positions : list Vector3d)
    : outcome (list Vector3d) :=
  let! x := read_int verts (i * 3) in
  let! y := read_int verts (i * 3 + 1) in
  let! z := read_int verts (i * 3 + 2) in
  Ret (positions ++ [mkVector3d x y z]).

Definition load_positions (verts : list float) (n_verts : Z) : outcome (list Vector3d) :=
  if n_verts <? 0 then Throw length_error
  else for_int n_verts (add_position verts) [].

(** Lines 85-86: [F] gets [indices.size() / 3] columns and [memcpy]
    writes [indices.size()] words into it. *)
Definition copy_indices (ix : list Z) : outcome (list Z) :=
  if 3 * (Z.of_nat (length ix) / 3) <? Z.of_nat (length ix) then Undefined
  else Ret (to_int <$> ix).

(** Lines 88-91: one column per compact vertex, fetched with
    [positions.at]. *)
Definition gather (positions : list Vector3d) (vs : list obj_vertex)
    : outcome (list Vector3d) :=
  mapO (fun v => at_ positions (ov_p v)) vs.

(** The compact mesh: lines 56-91, everything before [NormalizeMesh]. *)
Definition compact_mesh (verts : list float) (n_verts : Z)
    (face_indices : list Z) (n_faces : Z) : outcome (list Vector3d * list Z) :=
  let! positions := load_positions verts n_verts in
  let! st := face_loop face_indices n_faces in
  let! f := copy_indices (st_indices st) in
  let! v := gather positions (st_vertices st) in
  Ret (v, f).

Definition LoadFromArrays {X} (E : Engine X) (this : Parametrizer X)
    (verts : list float) (n_verts : Z) (face_indices : list Z) (n_faces : Z)
    : M X (Parametrizer X) :=
  vf <- lift (compact_mesh verts n_verts face_indices n_faces) ;;
  let this := set_mesh this vf.1 vf.2 in
  call StNormalizeMesh this [] (NormalizeMesh E this).

(** ** [run_quadriflow] (lines 100-201) *)

(** Lines 138-155: one directed half-edge.  [i] is a [uint32_t]; the
    entries of [mF] are converted to [uint32_t] when they are stored in
    [i0] and [i1]. *)
Definition boundary_edge {X} (i : Z) (mRes : Hierarchy X) : M X (Hierarchy X) :=
  e <- lift (read (mE2E mRes) i) ;;
  if e =? -1 then
    a <- lift (coeff3 (mF mRes) (i mod 3) (i / 3)) ;;
    b <- lift (coeff3 (mF mRes) (to_uint32 (i + 1) mod 3) (i / 3)) ;;
    let i0 := to_uint32 a in
    let i1 := to_uint32 b in
    p0 <- lift (read0 (mV mRes) i0) ;;
    p1 <- lift (read0 (mV mRes) i1) ;;
    let edge := Vector3d_sub p1 p0 in
    if (0 <? squaredNorm edge)%float then
      _ <- emit (Normalize edge) ;;
      let edge := normalize edge in
      co <- lift (write0 (mCO mRes) i0 p0) ;;
      co <- lift (write0 co i1 p1) ;;
      cq <- lift (write0 (mCQ mRes) i0 edge) ;;
      cq <- lift (write0 cq i1 edge) ;;
      cqw <- lift (write0 (mCQw mRes) i0 1%float) ;;
      cqw <- lift (write0 cqw i1 1%float) ;;
      cow <- lift (write0 (mCOw mRes) i0 1%float) ;;
      cow <- lift (write0 cow i1 1%float) ;;
      retM (set_constraints mRes co cq cow cqw)
    else retM mRes
  else retM mRes.

(** Lines 137-156. *)
Definition derive_boundary {X} (mRes : Hierarchy X) : M X (Hierarchy X) :=
  for_uint32 (3 * cols3 (mF mRes)) boundary_edge mRes.

(** Lines 135-157: the block guarded by [flag_preserve_boundary]. *)
Definition boundary_constraints {X} (E : Engine X) (field : Parametrizer X)
    : M X (Parametrizer X) :=
  h <- call StClearConstraints field [] (clearConstraints E (hierarchy field)) ;;
  let field := set_hierarchy field h in
  _ <- emit (Call DeriveBoundary field []) ;;
  h <- derive_boundary (hierarchy field) ;;
  let field := set_hierarchy field h in
  h <- call StPropagateConstraints field [] (propagateConstraints E (hierarchy field)) ;;
  retM (set_hierarchy field h).

(** Lines 161-173. *)
Definition optimization {X} (E : Engine X) (field : Parametrizer X)
    : M X (Parametrizer X) :=
  h <- call StOptimizeOrientations field [] (optimize_orientations E (hierarchy field)) ;;
  let field := set_hierarchy field h in
  field <- call StOrientationSingularities field []
             (ComputeOrientationSingularities E field) ;;
  field <- (if flag_adaptive_scale field =? 1
            then call StEstimateSlope field [] (EstimateSlope E field)
            else retM field) ;;
  hr <- call StOptimizeScale field [flag_adaptive_scale field]
          (optimize_scale E (hierarchy field) (rho field) (flag_adaptive_scale field)) ;;
  let field := set_rho (set_hierarchy field hr.1) hr.2 in
  let field := set_flag_adaptive_scale field 1 in
  h <- call StOptimizePositions field [flag_adaptive_scale field]
         (optimize_positions E (hierarchy field) (flag_adaptive_scale field)) ;;
  let field := set_hierarchy field h in
  field <- call StPositionSingularities field []
             (ComputePositionSingularities E field) ;;
  call StIndexMap field [] (ComputeIndexMap E field).

(** [struct QuadriFlowResult] of [pipeline.h]. *)
Record QuadriFlowResult : Type := mkQuadriFlowResult {
  vertices : list float;
  faces : list Z;
  num_vertices : Z;
  num_faces : Z
}.

(** [v.resize(n)] on an empty vector, [n] an [int] expression: the
    count is converted to [size_t], so a negative one exceeds
    [max_size()]. *)
Definition resize_int {A} (n : Z) (x : A) : outcome (list A) :=
  if int_range n then
    if n <? 0 then Throw length_error else Ret (replicate (Z.to_nat n) x)
  else Undefined.

(** [a[i] = x] where [i] is an [int] expression. *)
Definition write_int {A} (a : list A) (i : Z) (x : A) : outcome (list A) :=
  if int_range i then write a i x else Undefined.

(** Lines 186-189. *)
Definition extract_vertex {X} (field : Parametrizer X) (i : Z) (out : list float)
    : outcome (list float) :=
  let! o := read (O_compact field) i in
  let t := Vector3d_scale_add o (normalize_scale field) (normalize_offset field) in
  let! out := write_int out (i * 3 + 0) (vx t) in
  let! out := write_int out (i * 3 + 1) (vy t) in
  write_int out (i * 3 + 2) (vz t).

(** Lines 194-197. *)
Definition extract_face {X} (field : Parametrizer X) (i : Z) (out : list Z)
    : outcome (list Z) :=
  let! f0 := read (F_compact field) i in
  let! out := write_int out (i * 4 + 0) (Vector4i_get f0 0) in
  let! f1 := read (F_compact field) i in
  let! out := write_int out (i * 4 + 1) (Vector4i_get f1 1) in
  let! f2 := read (F_compact field) i in
  let! out := write_int out (i * 4 + 2) (Vector4i_get f2 2) in
  let! f3 := read (F_compact field) i in
  write_int out (i * 4 + 3) (Vector4i_get f3 3).

(** Lines 176-200. *)
Definition extract_output {X} (field : Parametrizer X) : outcome QuadriFlowResult :=
  let nv := to_int (Z.of_nat (length (O_compact field))) in
  let nf := to_int (Z.of_nat (length (F_compact field))) in
  if (nv =? 0) || (nf =? 0)
  then Throw (runtime_error "QuadriFlow produced an empty mesh")
  else
    let! vs := resize_int (nv * 3) 0%float in
    let! vs := for_int nv (extract_vertex field) vs in
    let! fs := resize_int (nf * 4) 0 in
    let! fs := for_int nf (extract_face field) fs in
    Ret (mkQuadriFlowResult vs fs nv nf).

(** Modelled from the spec: the declaration of [Parametrizer] (header
    [parametrizer.hpp]) is not among the sources, so what the default
    constructor leaves in [field] is taken from the specification: every
    flag is off until the caller turns it on, and the containers are
    empty before ingestion.  The members the pipeline never names
    come from the solver ([fresh_rest]). *)
Definition Parametrizer2_new {X} (E : Engine X) : Parametrizer X :=
  mkParametrizer 0 0 0 0 0
    (mkHierarchy 0 [] [] [] [] [] [] [] (fresh_rest E))
    [] [] [] 0%float (mkVector3d 0 0 0) [] [] (fresh_rest E).

(** Lines 120-127. *)
Definition set_flags {X} (field : Parametrizer X) (seed : Z)
    (preserve_sharp preserve_boundary adaptive_scale aggressive_sat
       minimum_cost_flow : bool) : Parametrizer X :=
  let field := if preserve_sharp then set_flag_preserve_sharp field 1 else field in
  let field := if preserve_boundary then set_flag_preserve_boundary field 1 else field in
  let field := if adaptive_scale then set_flag_adaptive_scale field 1 else field in
  let field := if aggressive_sat then set_flag_aggresive_sat field 1 else field in
  let field := if minimum_cost_flow then set_flag_minimum_cost_flow field 1 else field in
  set_hierarchy field (set_rng_seed (hierarchy field) seed).

(** Lines 118-173: from the construction of [field] to the index map. *)
Definition run_stages {X} (E : Engine X)
    (vertices : list float) (num_vertices : Z)
    (faces : list Z) (num_faces : Z)
    (target_faces seed : Z)
    (preserve_sharp preserve_boundary adaptive_scale aggressive_sat
       minimum_cost_flow : bool) : M X (Parametrizer X) :=
  let field := Parametrizer2_new E in
  _ <- emit (Call SetFlags field []) ;;
  let field := set_flags field seed preserve_sharp preserve_boundary
                 adaptive_scale aggressive_sat minimum_cost_flow in
  _ <- emit (Call StLoadFromArrays field []) ;;
  field <- LoadFromArrays E field vertices num_vertices faces num_faces ;;
  field <- call StInitialize field [target_faces] (Initialize E target_faces field) ;;
  field <- (if flag_preserve_boundary field =? 0 then retM field
            else boundary_constraints E field) ;;
  optimization E field.

Definition run_quadriflow {X} (E : Engine X)
    (vertices : list float) (num_vertices : Z)
    (faces : list Z) (num_faces : Z)
    (target_faces seed : Z)
    (preserve_sharp preserve_boundary adaptive_scale aggressive_sat
       minimum_cost_flow : bool) : M X QuadriFlowResult :=
  if (num_vertices <=? 0) || (num_faces <=? 0)
  then throw (runtime_error "Input mesh is empty")
  else if target_faces <=? 0
  then throw (runtime_error "target_faces must be positive")
  else
    field <- run_stages E vertices num_vertices faces num_faces target_faces seed
               preserve_sharp preserve_boundary adaptive_scale aggressive_sat
               minimum_cost_flow ;;
    lift (extract_output field).

(** ** Notions used in the statements *)

(** The map key of a face corner holding the input index [a]. *)
Definition corner_key (a : Z) : obj_vertex := obj_vertex_of (to_uint32 a).

(** The face loop seen as a fold over the corners it reads. *)
Definition add_corners (ks : list obj_vertex) : dedup := foldl add_corner dedup_empty ks.

(** What holds of the loop state once the corners [ks] are processed. *)
Record dedup_inv (ks : list obj_vertex) (st : dedup) : Prop := mk_dedup_inv {
  inv_count : (length (st_vertices st) <= length ks)%nat;
  inv_length : length (st_indices st) = length ks;
  inv_nodup : NoDup (st_vertices st);
  inv_map : forall v k,
    st_vertexMap st !! v = Some k <->
    0 <= k /\ st_vertices st !! Z.to_nat k = Some v;
  inv_index : forall a k,
    st_indices st !! a = Some k ->
    0 <= k /\ exists v, ks !! a = Some v /\ st_vertices st !! Z.to_nat k = Some v;
  inv_first : forall c v,
    st_vertices st !! c = Some v ->
    exists a, ks !! a = Some v /\ st_indices st !! a = Some (Z.of_nat c) /\
      forall b k, (b < a)%nat -> st_indices st !! b = Some k -> k < Z.of_nat c
}.

(** The state after [j] faces: the fold over the first [3 * j] corners. *)
Definition faces_done (fi : list Z) (j : Z) (st : dedup) : Prop :=
  0 <= j /\ (Z.to_nat (3 * j) <= length fi)%nat /\
  st = add_corners (corner_key <$> take (Z.to_nat (3 * j)) fi).

(** The position the input arrays give to vertex [j]. *)
Definition input_position (verts : list float) (j : Z) : option Vector3d :=
  match verts !! Z.to_nat (j * 3), verts !! Z.to_nat (j * 3 + 1),
        verts !! Z.to_nat (j * 3 + 2) with
  | Some x, Some y, Some z => Some (mkVector3d x y z)
  | _, _, _ => None
  end.

(** The positions loop after [j] vertices. *)
Definition positions_done (verts : list float) (j : Z) (ps : list Vector3d) : Prop :=
  Z.of_nat (length ps) = j /\
  forall i, (i < length ps)%nat -> ps !! i = input_position verts (Z.of_nat i).

(** The arrays as the binding layer hands them over: [N] rows of three
    doubles, [M] rows of three [int]s, both non-empty, and small enough
    for the [int] arithmetic on their flat indices. *)
Record well_formed_arrays (verts : list float) (N : Z) (fi : list Z) (M : Z) : Prop :=
  mk_well_formed_arrays {
    wf_N : 0 < N;
    wf_M : 0 < M;
    wf_verts : Z.of_nat (length verts) = 3 * N;
    wf_faces : Z.of_nat (length fi) = 3 * M;
    wf_N_int : 3 * N <= INT_MAX + 1;
    wf_M_int : 3 * M <= INT_MAX + 1;
    wf_int : forall x, x ∈ fi -> INT_MIN <= x <= INT_MAX
  }.

(** The preconditions of mesh ingestion (specification, section 4.1). *)
Definition valid_input (verts : list float) (N : Z) (fi : list Z) (M : Z) : Prop :=
  well_formed_arrays verts N fi M /\ forall x, x ∈ fi -> 0 <= x < N.

(** ** Concrete inputs

    Two triangles over four vertices of the unit square, used to run
    the definitions above. *)

Definition square_verts : list float :=
  [0; 0; 0;  1; 0; 0;  0; 1; 0;  1; 1; 0]%float.

Definition square_faces : list Z := [0; 1; 2;  2; 1; 3].

Definition square_V : list Vector3d :=
  [mkVector3d 0 0 0; mkVector3d 1 0 0; mkVector3d 0 1 0; mkVector3d 1 1 0].

(** ** Reading a hierarchy *)

(** Entry [v] of level 0 of a per-level array. *)
Definition level0 {A} (m : list (list A)) (v : Z) : option A :=
  match m !! 0%nat with
  | Some l => l !! Z.to_nat v
  | None => None
  end.

(** Half-edge [i] has no opposite. *)
Definition is_boundary {X} (h : Hierarchy X) (i : Z) : Prop :=
  mE2E h !! Z.to_nat i = Some (-1).

(** The endpoints of half-edge [i] -- local vertices [i % 3] and
    [(i + 1) % 3] of face [i / 3] -- and their level-0 positions. *)
Definition half_edge_ends {X} (h : Hierarchy X) (i : Z)
    : option (Z * Z * Vector3d * Vector3d) :=
  match mF h !! Z.to_nat (3 * (i / 3) + i mod 3),
        mF h !! Z.to_nat (3 * (i / 3) + (i + 1) mod 3) with
  | Some a, Some b =>
      match level0 (mV h) (to_uint32 a), level0 (mV h) (to_uint32 b) with
      | Some p0, Some p1 => Some (to_uint32 a, to_uint32 b, p0, p1)
      | _, _ => None
      end
  | _, _ => None
  end.

(** The test of line 144 on the edge from [p0] to [p1]. *)
Definition nonzero_length (p0 p1 : Vector3d) : bool :=
  (0 <? squaredNorm (Vector3d_sub p1 p0))%float.

(** Half-edge [i] is one for which lines 145-153 run: a boundary edge
    of non-zero length from vertex [i0] at [p0] to vertex [i1] at [p1]. *)
Definition constrains {X} (h : Hierarchy X) (i i0 i1 : Z) (p0 p1 : Vector3d) : Prop :=
  is_boundary h i /\ half_edge_ends h i = Some (i0, i1, p0, p1) /\
  nonzero_length p0 p1 = true.

(** Half-edge [i] writes the constraints of vertex [v]. *)
Definition touches {X} (h : Hierarchy X) (i v : Z) : Prop :=
  exists i0 i1 p0 p1, constrains h i i0 i1 p0 p1 /\ (v = i0 \/ v = i1).

(** Two hierarchies with the same mesh: faces, adjacency, positions. *)
Definition same_mesh {X} (h h' : Hierarchy X) : Prop :=
  mF h' = mF h /\ mE2E h' = mE2E h /\ mV h' = mV h.

(** ** Reading a log *)

(** [m] logs the stages [L], in this order, if it returns, and a
    prefix of them otherwise; what it returns satisfies [Q]. *)
Definition logs {X A} (m : M X A) (L : list stage) (Q : A -> Prop) : Prop :=
  stages (snd m) `prefix_of` L /\
  forall a, fst m = Ret a -> stages (snd m) = L /\ Q a.

(** The solver stages leave the configuration flags alone. *)
Record keeps_flags {X} (E : Engine X) : Prop := mk_keeps_flags {
  kf_normalize : forall p p', NormalizeMesh E p = Ret p' ->
    flag_preserve_boundary p' = flag_preserve_boundary p /\
    flag_adaptive_scale p' = flag_adaptive_scale p;
  kf_initialize : forall t p p', Initialize E t p = Ret p' ->
    flag_preserve_boundary p' = flag_preserve_boundary p /\
    flag_adaptive_scale p' = flag_adaptive_scale p;
  kf_orientation : forall p p', ComputeOrientationSingularities E p = Ret p' ->
    flag_adaptive_scale p' = flag_adaptive_scale p;
  kf_slope : forall p p', EstimateSlope E p = Ret p' ->
    flag_adaptive_scale p' = flag_adaptive_scale p;
  kf_position : forall p p', ComputePositionSingularities E p = Ret p' ->
    flag_adaptive_scale p' = flag_adaptive_scale p
}.

(** The stage order of specification section 4.3, for a caller asking
    for boundary preservation ([pb]) and adaptive scale ([ad]). *)
Definition stage_order (pb ad : bool) : list stage :=
  [SetFlags; StLoadFromArrays; StNormalizeMesh; StInitialize]
  ++ (if pb then [StClearConstraints; DeriveBoundary; StPropagateConstraints] else [])
  ++ [StOptimizeOrientations; StOrientationSingularities]
  ++ (if ad then [StEstimateSlope] else [])
  ++ [StOptimizeScale; StOptimizePositions; StPositionSingularities; StIndexMap].

(** Level 0 of [m'] is level 0 of [m] with [x] stored at [i0] and then
    [y] at [i1]. *)
Definition stored2 {A} (m m' : list (list A)) (i0 i1 : Z) (x y : A) : Prop :=
  forall u, 0 <= u ->
    level0 m' u = if decide (u = i1) then Some y
                  else if decide (u = i0) then Some x
                  else level0 m u.

(** What lines 145-153 leave behind in [h'], started in [h], for the
    edge from vertex [i0] at [p0] to vertex [i1] at [p1]. *)
Record edge_written {X} (h h' : Hierarchy X) (i0 i1 : Z) (p0 p1 : Vector3d) : Prop :=
  mk_edge_written {
    ew_mesh : same_mesh h h';
    ew_CO : stored2 (mCO h) (mCO h') i0 i1 p0 p1;
    ew_CQ : stored2 (mCQ h) (mCQ h') i0 i1
              (normalize (Vector3d_sub p1 p0)) (normalize (Vector3d_sub p1 p0));
    ew_CQw : stored2 (mCQw h) (mCQw h') i0 i1 1%float 1%float;
    ew_COw : stored2 (mCOw h) (mCOw h') i0 i1 1%float 1%float
  }.

(** The boundary loop after the half-edges below [n], started in [h]. *)
Record derive_inv {X} (h : Hierarchy X) (n : Z) (hn : Hierarchy X) : Prop :=
  mk_derive_inv {
    di_mesh : same_mesh h hn;
    di_weights : forall i v,
      0 <= i < n -> touches h i v ->
      level0 (mCOw hn) v = Some 1%float /\ level0 (mCQw hn) v = Some 1%float;
    di_last : forall i v i0 i1 p0 p1,
      0 <= i < n -> constrains h i i0 i1 p0 p1 -> v = i0 \/ v = i1 ->
      (forall j, i < j < n -> ~ touches h j v) ->
      level0 (mCO hn) v = Some (if decide (v = i1) then p1 else p0) /\
      level0 (mCQ hn) v = Some (normalize (Vector3d_sub p1 p0));
    di_untouched : forall v,
      0 <= v -> (forall j, 0 <= j < n -> ~ touches h j v) ->
      level0 (mCO hn) v = level0 (mCO h) v /\
      level0 (mCQ hn) v = level0 (mCQ h) v /\
      level0 (mCOw hn) v = level0 (mCOw h) v /\
      level0 (mCQw hn) v = level0 (mCQw h) v
  }.

(** Every vector handed to [normalize] passed the test of line 144. *)
Definition normalizes_nonzero {X} (e : event X) : Prop :=
  match e with
  | Normalize edge => (0 <? squaredNorm edge)%float = true
  | Call _ _ _ => False
  end.

(** ** Floating point *)

(** A double that is a zero of either sign, or a NaN. *)
Definition zero_or_nan (x : float) : Prop :=
  (exists s, Prim2SF x = S754_zero s) \/ Prim2SF x = S754_nan.

(** ** Concrete hierarchies *)

Definition origin : Vector3d := mkVector3d 0 0 0.

(** One triangle with corners (0,0,0), (1,0,0), (0,1,0), every
    half-edge on the boundary, constraints cleared. *)
Definition triangle : Hierarchy unit :=
  mkHierarchy 0 [0; 1; 2] [-1; -1; -1]
    [[origin; mkVector3d 1 0 0; mkVector3d 0 1 0]]
    [[origin; origin; origin]] [[origin; origin; origin]]
    [[0; 0; 0]%float] [[0; 0; 0]%float] tt.

(** One triangle whose three corners lie on the same point, every
    half-edge on the boundary, constraints cleared. *)
Definition collapsed : Hierarchy unit :=
  mkHierarchy 0 [0; 1; 2] [-1; -1; -1]
    [[origin; origin; origin]]
    [[origin; origin; origin]] [[origin; origin; origin]]
    [[0; 0; 0]%float] [[0; 0; 0]%float] tt.

(** ** What the log shows of the adaptive-scale flag *)

(** The stages that start after line 169. *)
Definition after_override (s : stage) : bool :=
  match s with
  | StOptimizePositions | StPositionSingularities | StIndexMap => true
  | _ => false
  end.

(** An entry of the log of a run whose caller passed [ad]: the flag in
    the logged object, and the flag argument of the two optimizer calls
    that take one.  (The entry of [SetFlags] shows the object before
    the flags are applied.) *)
Definition adaptive_flag_seen {X} (ad : bool) (e : event X) : Prop :=
  match e with
  | Call s field args =>
      s <> SetFlags ->
      flag_adaptive_scale field = (if after_override s then 1 else if ad then 1 else 0) /\
      (s = StOptimizeScale -> args = [if ad then 1 else 0]) /\
      (s = StOptimizePositions -> args = [1])
  | Normalize _ => True
  end.

(** The object [propagateConstraints] is called on holds the hierarchy
    the boundary loop returned. *)
Definition carries_derivation {X} (e : event X) : Prop :=
  match e with
  | Call StPropagateConstraints field _ =>
      exists h, fst (derive_boundary h) = Ret (hierarchy field)
  | _ => True
  end.

(** ** A stand-in solver

    Used to run the pipeline on concrete inputs.  It keeps the mesh as
    it is (scale 2, offset (1,1,1) recorded), builds a one-level
    hierarchy in which every half-edge is a boundary edge, clears
    constraints to zero, leaves the fields alone in the optimization
    stages, and returns the input vertices with a single quad. *)

Definition set_normalization {X} (p : Parametrizer X) (s : float) (o : Vector3d)
    : Parametrizer X :=
  mkParametrizer (flag_preserve_sharp p) (flag_preserve_boundary p)
    (flag_adaptive_scale p) (flag_aggresive_sat p) (flag_minimum_cost_flow p)
    (hierarchy p) (V p) (F p) (rho p) s o (O_compact p) (F_compact p) (p_rest p).

Definition set_output {X} (p : Parametrizer X) (o : list Vector3d) (f : list Vector4i)
    : Parametrizer X :=
  mkParametrizer (flag_preserve_sharp p) (flag_preserve_boundary p)
    (flag_adaptive_scale p) (flag_aggresive_sat p) (flag_minimum_cost_flow p)
    (hierarchy p) (V p) (F p) (rho p) (normalize_scale p) (normalize_offset p)
    o f (p_rest p).

Definition demo_Initialize (target : Z) (p : Parametrizer unit) : outcome (Parametrizer unit) :=
  Ret (set_hierarchy p
         (mkHierarchy (rng_seed (hierarchy p)) (F p)
            (replicate (length (F p)) (-1)) [V p] [] [] [] [] tt)).

Definition demo_clearConstraints (h : Hierarchy unit) : outcome (Hierarchy unit) :=
  Ret (set_constraints h
         ((fun l => replicate (length l) origin) <$> mV h)
         ((fun l => replicate (length l) origin) <$> mV h)
         ((fun l => replicate (length l) 0%float) <$> mV h)
         ((fun l => replicate (length l) 0%float) <$> mV h)).

(** The stand-in solver, with the quads its index map returns. *)
Definition demo_engine_with (quads : list Vector4i) : Engine unit :=
  mkEngine tt
    (fun p => Ret (set_normalization p 2%float (mkVector3d 1 1 1)))
    demo_Initialize
    demo_clearConstraints
    (fun h => Ret h)
    (fun h => Ret h)
    (fun p => Ret p)
    (fun p => Ret p)
    (fun h r _ => Ret (h, r))
    (fun h _ => Ret h)
    (fun p => Ret p)
    (fun p => Ret (set_output p (V p) quads)).

Definition demo_engine : Engine unit := demo_engine_with [mkVector4i 0 1 3 2].

(** The same solver with an index map that finds no quad. *)
Definition barren_engine : Engine unit := demo_engine_with [].

(** The stand-in solver with a propagation that clears the constraints
    instead. *)
Definition forgetful_engine : Engine unit :=
  mkEngine tt
    (fun p => Ret (set_normalization p 2%float (mkVector3d 1 1 1)))
    demo_Initialize
    demo_clearConstraints
    demo_clearConstraints
    (fun h => Ret h)
    (fun p => Ret p)
    (fun p => Ret p)
    (fun h r _ => Ret (h, r))
    (fun h _ => Ret h)
    (fun p => Ret p)
    (fun p => Ret (set_output p (V p) [mkVector4i 0 1 3 2])).

(** The stand-in solver with an orientation optimization that fails. *)
Definition failing_engine : Engine unit :=
  mkEngine tt
    (fun p => Ret (set_normalization p 2%float (mkVector3d 1 1 1)))
    demo_Initialize
    demo_clearConstraints
    (fun h => Ret h)
    (fun _ => Throw (runtime_error "solver failure"))
    (fun p => Ret p)
    (fun p => Ret p)
    (fun h r _ => Ret (h, r))
    (fun h _ => Ret h)
    (fun p => Ret p)
    (fun p => Ret (set_output p (V p) [mkVector4i 0 1 3 2])).

(** The square remeshed by the stand-in solver, boundary preservation
    and adaptive scale requested: the pipeline object after the last
    stage, and the result. *)
Definition square_field : Parametrizer unit :=
  match fst (run_stages demo_engine square_verts 4 square_faces 2 10 0
               false true true false false) with
  | Ret f => f
  | _ => Parametrizer2_new demo_engine
  end.

Definition square_result : QuadriFlowResult :=
  match fst (run_quadriflow demo_engine square_verts 4 square_faces 2 10 0
               false true true false false) with
  | Ret r => r
  | _ => mkQuadriFlowResult [] [] 0 0
  end.

(** The hierarchy the boundary loop makes of [triangle]. *)
Definition triangle_constrained : Hierarchy unit :=
  match fst (derive_boundary triangle) with
  | Ret h => h
  | _ => triangle
  end.

(** ** The output loops *)

(** After [j] output vertices: [out] has [len] slots and slots
    [3 * i .. 3 * i + 2], for [i < j], hold vertex [i] mapped back to the
    caller's coordinates. *)
Definition vertices_written {X} (field : Parametrizer X) (len j : Z) (out : list float)
    : Prop :=
  Z.of_nat (length out) = len /\
  forall i o, 0 <= i < j -> O_compact field !! Z.to_nat i = Some o ->
    let t := Vector3d_scale_add o (normalize_scale field) (normalize_offset field) in
    out !! Z.to_nat (i * 3) = Some (vx t) /\
    out !! Z.to_nat (i * 3 + 1) = Some (vy t) /\
    out !! Z.to_nat (i * 3 + 2) = Some (vz t).

(** After [j] output faces. *)
Definition faces_written {X} (field : Parametrizer X) (len j : Z) (out : list Z) : Prop :=
  Z.of_nat (length out) = len /\
  forall i q, 0 <= i < j -> F_compact field !! Z.to_nat i = Some q ->
    out !! Z.to_nat (i * 4) = Some (q0 q) /\
    out !! Z.to_nat (i * 4 + 1) = Some (q1 q) /\
    out !! Z.to_nat (i * 4 + 2) = Some (q2 q) /\
    out !! Z.to_nat (i * 4 + 3) = Some (q3 q).

(** ** Further notions

    Used by the properties of Part IV. *)

(** The flat array of a vertex matrix: three doubles per column. *)
Definition flatten3 (v : list Vector3d) : list float :=
  v ≫= (fun p => [vx p; vy p; vz p]).

(** An index array is in first-reference order over [K] vertices: its
    entries lie in [0, K), and every [c < K] occurs, for the first
    time after smaller entries only. *)
Definition first_reference_order (f : list Z) (K : nat) : Prop :=
  (forall a k, f !! a = Some k -> 0 <= k < Z.of_nat K) /\
  (forall c, (c < K)%nat ->
     exists a, f !! a = Some (Z.of_nat c) /\
       forall b k, (b < a)%nat -> f !! b = Some k -> k < Z.of_nat c).

(** [m'] differs from [m] at most in the entries of level 0: the same
    levels, of the same sizes, and every coarser level as it was. *)
Definition level0_only {A} (m m' : list (list A)) : Prop :=
  length <$> m' = length <$> m /\ drop 1 m' = drop 1 m.

(** [h'] differs from [h] at most in the level-0 constraints. *)
Record constraints_only {X} (h h' : Hierarchy X) : Prop := mk_constraints_only {
  co_seed : rng_seed h' = rng_seed h;
  co_mesh : same_mesh h h';
  co_rest : h_rest h' = h_rest h;
  co_CO : level0_only (mCO h) (mCO h');
  co_CQ : level0_only (mCQ h) (mCQ h');
  co_COw : level0_only (mCOw h) (mCOw h');
  co_CQw : level0_only (mCQw h) (mCQw h')
}.

(** Level 0 of a per-level array has [n] entries. *)
Definition level0_size {A} (m : list (list A)) (n : Z) : Prop :=
  exists l, m !! 0%nat = Some l /\ Z.of_nat (length l) = n.

(** The shape of a hierarchy the boundary loop relies on: [nF] faces
    whose corners ([int]s) name vertices below [nV], one adjacency
    entry per half-edge, and [nV] entries at level 0 of the positions
    and of the four constraint arrays. *)
Record well_formed_hierarchy {X} (h : Hierarchy X) (nF nV : Z) : Prop :=
  mk_well_formed_hierarchy {
    wh_F : Z.of_nat (length (mF h)) = 3 * nF;
    wh_E2E : Z.of_nat (length (mE2E h)) = 3 * nF;
    wh_count : 3 * nF <= UINT32_MAX;
    wh_index : forall x, x ∈ mF h -> 0 <= x < nV;
    wh_int : forall x, x ∈ mF h -> x <= INT_MAX;
    wh_V : level0_size (mV h) nV;
    wh_CO : level0_size (mCO h) nV;
    wh_CQ : level0_size (mCQ h) nV;
    wh_COw : level0_size (mCOw h) nV;
    wh_CQw : level0_size (mCQw h) nV
  }.

(** Three triangles around vertex 0, with rim 1, 2, 3: the rim edges
    (half-edges 1, 4 and 7) have no opposite, vertex 0 is interior.
    Two levels; constraints cleared. *)
Definition fan : Hierarchy unit :=
  mkHierarchy 7 [0; 1; 2;  0; 2; 3;  0; 3; 1] [8; -1; 3;  2; -1; 6;  5; -1; 0]
    [[origin; mkVector3d 1 0 0; mkVector3d 0 1 0; mkVector3d (-1) (-1) 0]; [origin]]
    [[origin; origin; origin; origin]; [origin]]
    [[origin; origin; origin; origin]; [origin]]
    [[0; 0; 0; 0]%float; [0]%float] [[0; 0; 0; 0]%float; [0]%float] tt.

(** Two triangles glued along all three edges: a closed surface. *)
Definition pillow : Hierarchy unit :=
  mkHierarchy 0 [0; 1; 2;  0; 2; 1] [5; 4; 3;  2; 1; 0]
    [[origin; mkVector3d 1 0 0; mkVector3d 0 1 0]]
    [[origin; origin; origin]] [[origin; origin; origin]]
    [[0; 0; 0]%float] [[0; 0; 0]%float] tt.

(** The hierarchy the boundary loop makes of [fan]. *)
Definition fan_constrained : Hierarchy unit :=
  match fst (derive_boundary fan) with
  | Ret h => h
  | _ => fan
  end.

(** Half-edge [i] is one the boundary loop constrains: it has no
    opposite and its edge vector [edge] passes the test of line 144. *)
Definition constraining {X} (h : Hierarchy X) (i : Z) (edge : Vector3d) : Prop :=
  exists i0 i1 p0 p1, constrains h i i0 i1 p0 p1 /\ edge = Vector3d_sub p1 p0.

(** The log [l] shows one call of [normalize] for each constraining
    half-edge below [n], on its edge vector, in the order of the
    half-edges, and nothing else. *)
Definition normalized_edges {X} (h : Hierarchy X) (n : Z) (l : list (event X)) : Prop :=
  exists edges : list (Z * Vector3d),
    l = (fun ie => Normalize ie.2) <$> edges /\
    (forall a b ia ib, (a < b)%nat -> edges !! a = Some ia -> edges !! b = Some ib ->
       ia.1 < ib.1) /\
    (forall i edge, (i, edge) ∈ edges <-> 0 <= i < n /\ constraining h i edge).

(** Line 186: a compact output vertex mapped back to the caller's
    coordinates. *)
Definition to_caller {X} (field : Parametrizer X) (o : Vector3d) : Vector3d :=
  Vector3d_scale_add o (normalize_scale field) (normalize_offset field).

(** The flat array of a list of quads: four indices per face. *)
Definition flatten4 (f : list Vector4i) : list Z :=
  f ≫= (fun q => [q0 q; q1 q; q2 q; q3 q]).

(** What the entries of [NormalizeMesh] and [Initialize] show of a run
    called with the given arguments: the object ingestion hands to the
    solver carries the requested flags (a flag not requested keeps the
    value the constructor gave it), the seed and the compact mesh; and
    [Initialize] receives the target face count. *)
Definition configured {X} (E : Engine X) (verts : list float) (N : Z) (fi : list Z)
    (M target_faces seed : Z) (ps pb ad ag mc : bool) (e : event X) : Prop :=
  match e with
  | Call StNormalizeMesh field args =>
      args = [] /\
      flag_preserve_sharp field
        = (if ps then 1 else flag_preserve_sharp (Parametrizer2_new E)) /\
      flag_preserve_boundary field
        = (if pb then 1 else flag_preserve_boundary (Parametrizer2_new E)) /\
      flag_adaptive_scale field
        = (if ad then 1 else flag_adaptive_scale (Parametrizer2_new E)) /\
      flag_aggresive_sat field
        = (if ag then 1 else flag_aggresive_sat (Parametrizer2_new E)) /\
      flag_minimum_cost_flow field
        = (if mc then 1 else flag_minimum_cost_flow (Parametrizer2_new E)) /\
      rng_seed (hierarchy field) = seed /\
      compact_mesh verts N fi M = Ret (V field, F field)
  | Call StInitialize _ args => args = [target_faces]
  | _ => True
  end.

(** The exceptions [pipeline.cpp] raises itself: the three messages of
    [run_quadriflow], [std::out_of_range] from [positions.at], and
    [std::length_error] from [reserve] and [resize]. *)
Definition own_exception (e : exn) : Prop :=
  e = runtime_error "Input mesh is empty" \/
  e = runtime_error "target_faces must be positive" \/
  e = runtime_error "QuadriFlow produced an empty mesh" \/
  e = out_of_range \/ e = length_error.

(** The stages that call the solver; the others are the pipeline's own
    code. *)
Definition solver_stage (s : stage) : bool :=
  match s with
  | SetFlags | StLoadFromArrays | DeriveBoundary => false
  | _ => true
  end.

(** A computation that returns or is undefined, but does not throw. *)
Definition never_throws {A} (o : outcome A) : Prop := forall e, o <> Throw e.

(** ** The binding layer: [py_quadriflow_remesh] ([_pyquadriflow.cpp], lines 15-56) *)

(** Modelled from the spec: the header [array_support.h], which
    declares [NDArray], is not among the sources, and the specification
    leaves the binding layer out.  An array is taken to be what the
    documentation string of [quadriflow_remesh] says of its arguments
    and results: a two-dimensional shape -- [shape(0)] rows, [shape(1)]
    columns, both [size_t] -- over a flat row-major buffer, [data()]. *)
Record NDArray (A : Type) : Type := mkNDArray {
  shape0 : Z;
  shape1 : Z;
  data : list A
}.
Arguments mkNDArray {A}.
Arguments shape0 {A}.
Arguments shape1 {A}.
Arguments data {A}.

(** Modelled from the spec: [MakeNDArray<T, 2>({r, c})], declared in
    the same header, is taken to allocate an array of shape [(r, c)];
    [x] stands for the content of its cells before they are written. *)
Definition MakeNDArray {A} (r c : Z) (x : A) : NDArray A :=
  mkNDArray r c (replicate (Z.to_nat (r * c)) x).

(** [std::memcpy(dst, src, n * sizeof(T))], [n] an [int] expression:
    the first [n] cells of [dst] become those of [src].  A negative [n]
    is converted to a huge [size_t]. *)
Definition memcpy_int {A} (dst src : list A) (n : Z) : outcome (list A) :=
  if int_range n then
    if (0 <=? n) && (n <=? Z.of_nat (length dst)) && (n <=? Z.of_nat (length src))
    then Ret (take (Z.to_nat n) src ++ drop (Z.to_nat n) dst)
    else Undefined
  else Undefined.

(** The array [a] after a write through [a.data()]. *)
Definition set_data {A} (a : NDArray A) (d : list A) : NDArray A :=
  mkNDArray (shape0 a) (shape1 a) d.

(** Lines 44-55: the result as a pair of arrays. *)
Definition result_arrays (result : QuadriFlowResult)
    : outcome (NDArray float * NDArray Z) :=
  let verts_arr := MakeNDArray (num_vertices result) 3 0%float in
  let! d := memcpy_int (data verts_arr) (vertices result) (num_vertices result * 3) in
  let verts_arr := set_data verts_arr d in
  let faces_arr := MakeNDArray (num_faces result) 4 0 in
  let! d := memcpy_int (data faces_arr) (faces result) (num_faces result * 4) in
  let faces_arr := set_data faces_arr d in
  Ret (verts_arr, faces_arr).

(** Lines 15-56. *)
Definition py_quadriflow_remesh {X} (E : Engine X)
    (vertices : NDArray float) (faces : NDArray Z)
    (target_faces seed : Z)
    (preserve_sharp preserve_boundary adaptive_scale aggressive_sat
       minimum_cost_flow : bool) : M X (NDArray float * NDArray Z) :=
  if negb (shape1 vertices =? 3)
  then throw (runtime_error "vertices must have shape (N, 3)")
  else if negb (shape1 faces =? 3)
  then throw (runtime_error "faces must have shape (M, 3) — input must be a triangle mesh")
  else if (shape0 vertices =? 0) || (shape0 faces =? 0)
  then throw (runtime_error "Input mesh is empty")
  else
    result <- run_quadriflow E
                (data vertices) (to_int (shape0 vertices))
                (data faces) (to_int (shape0 faces))
                target_faces seed
                preserve_sharp preserve_boundary adaptive_scale aggressive_sat
                minimum_cost_flow ;;
    lift (result_arrays result).

(** ** The calls a log records *)

(** The entries of a log that record a stage: the stage, the object it
    is entered with, the integer arguments. *)
Definition calls {X} (t : list (event X)) : list (stage * Parametrizer X * list Z) :=
  omap (fun e => match e with
                 | Call s field args => Some (s, field, args)
                 | Normalize _ => None
                 end) t.

(** The arguments of [run_quadriflow] that its own code uses past the
    precondition checks ([target_faces] goes to [Initialize] and is
    logged with it). *)
Record run_args : Type := mk_run_args {
  ra_vertices : list float;
  ra_num_vertices : Z;
  ra_faces : list Z;
  ra_num_faces : Z;
  ra_seed : Z;
  ra_preserve_sharp : bool;
  ra_preserve_boundary : bool;
  ra_adaptive_scale : bool;
  ra_aggressive_sat : bool;
  ra_minimum_cost_flow : bool
}.

(** The stage an entry records, carried out: the call of the solver
    the source makes at that stage -- for the first two stages and the
    boundary loop, the pipeline's own code -- on the object logged and
    with the arguments logged, and the object as the source leaves it
    before the next stage (a hierarchy or [rho] the call returns is
    stored in the object; line 169 follows scale optimization). *)
Definition step {X} (E : Engine X) (a : run_args)
    (s : stage) (field : Parametrizer X) (args : list Z) : outcome (Parametrizer X) :=
  match s, args with
  | SetFlags, [] =>
      Ret (set_flags field (ra_seed a) (ra_preserve_sharp a) (ra_preserve_boundary a)
             (ra_adaptive_scale a) (ra_aggressive_sat a) (ra_minimum_cost_flow a))
  | StLoadFromArrays, [] =>
      let! vf := compact_mesh (ra_vertices a) (ra_num_vertices a)
                   (ra_faces a) (ra_num_faces a) in
      Ret (set_mesh field vf.1 vf.2)
  | StNormalizeMesh, [] => NormalizeMesh E field
  | StInitialize, [target_faces] => Initialize E target_faces field
  | StClearConstraints, [] =>
      let! h := clearConstraints E (hierarchy field) in Ret (set_hierarchy field h)
  | DeriveBoundary, [] =>
      let! h := fst (derive_boundary (hierarchy field)) in Ret (set_hierarchy field h)
  | StPropagateConstraints, [] =>
      let! h := propagateConstraints E (hierarchy field) in Ret (set_hierarchy field h)
  | StOptimizeOrientations, [] =>
      let! h := optimize_orientations E (hierarchy field) in Ret (set_hierarchy field h)
  | StOrientationSingularities, [] => ComputeOrientationSingularities E field
  | StEstimateSlope, [] => EstimateSlope E field
  | StOptimizeScale, [flag] =>
      let! hr := optimize_scale E (hierarchy field) (rho field) flag in
      Ret (set_flag_adaptive_scale (set_rho (set_hierarchy field hr.1) hr.2) 1)
  | StOptimizePositions, [flag] =>
      let! h := optimize_positions E (hierarchy field) flag in Ret (set_hierarchy field h)
  | StPositionSingularities, [] => ComputePositionSingularities E field
  | StIndexMap, [] => ComputeIndexMap E field
  | _, _ => Undefined
  end.

(** The stage of entry [c], carried out. *)
Definition step_of {X} (E : Engine X) (a : run_args)
    (c : stage * Parametrizer X * list Z) : outcome (Parametrizer X) :=
  step E a c.1.1 c.1.2 c.2.

(** Every entry is followed by the entry of the object its stage
    returned: no entry without its stage carried out, no stage between
    two entries. *)
Fixpoint chain {X} (E : Engine X) (a : run_args)
    (cs : list (stage * Parametrizer X * list Z)) : Prop :=
  match cs with
  | c :: rest =>
      match rest with
      | c' :: _ => step_of E a c = Ret c'.1.2 /\ chain E a rest
      | [] => True
      end
  | [] => True
  end.

(** The computation [m], entered after the entry [c], carries the run
    on: [c] and the entries [m] logs form a chain, and [m] ends as the
    stage of the last of them does. *)
Definition continues {X} (E : Engine X) (a : run_args)
    (c : stage * Parametrizer X * list Z) (m : M X (Parametrizer X)) : Prop :=
  chain E a (c :: calls (snd m)) /\
  exists c', last (c :: calls (snd m)) = Some c' /\ step_of E a c' = fst m.

(** ** The contract of [propagateConstraints] *)

(** [propagateConstraints] carries the constraints of level 0 to the
    coarser levels: it leaves the mesh and the level-0 weights as they
    are. *)
Definition propagate_keeps_level0 {X} (E : Engine X) : Prop :=
  forall h h', propagateConstraints E h = Ret h' ->
    same_mesh h h' /\
    forall v, level0 (mCOw h') v = level0 (mCOw h) v /\
              level0 (mCQw h') v = level0 (mCQw h) v.

(** ** Comparing stages *)

#[global] Instance stage_eq_dec : EqDecision stage.
Proof. solve_decision. Defined.
(* ================================================================== *)
(** * Part II: properties *)
(* ================================================================== *)

(** ** Integers *)

Lemma to_uint32_small (z : Z) : 0 <= z < 4294967296 -> to_uint32 z = z.
Proof. intros H. unfold to_uint32. apply Z.mod_small. exact H. Qed.

Lemma to_uint32_range (z : Z) : 0 <= to_uint32 z < 4294967296.
Proof. unfold to_uint32. apply Z.mod_pos_bound. lia. Qed.

Lemma to_uint32_negative (z : Z) :
  -4294967296 <= z < 0 -> to_uint32 z = z + 4294967296.
Proof.
  intros H. unfold to_uint32.
  symmetry. apply (Z.mod_unique_pos z 4294967296 (-1)); lia.
Qed.

Lemma to_int_small (z : Z) : -2147483648 <= z < 2147483648 -> to_int z = z.
Proof. intros H. unfold to_int. rewrite Z.mod_small; lia. Qed.

Lemma Z_between (a b c : Z) : (a <=? b) && (b <? c) = true -> a <= b < c.
Proof. rewrite andb_true_iff, Z.leb_le, Z.ltb_lt. tauto. Qed.

Lemma int_range_spec (z : Z) : int_range z = true <-> INT_MIN <= z <= INT_MAX.
Proof. unfold int_range. rewrite andb_true_iff, !Z.leb_le. tauto. Qed.

(** On values of type [int], the conversion to [uint32_t] loses nothing. *)
Lemma to_uint32_inj_int (x y : Z) :
  INT_MIN <= x <= INT_MAX -> INT_MIN <= y <= INT_MAX ->
  to_uint32 x = to_uint32 y -> x = y.
Proof.
  unfold INT_MIN, INT_MAX. intros Hx Hy.
  assert (Hux : to_uint32 x = x \/ to_uint32 x = x + 4294967296).
  { destruct (Z.neg_nonneg_cases x);
      [right; apply to_uint32_negative | left; apply to_uint32_small]; lia. }
  assert (Huy : to_uint32 y = y \/ to_uint32 y = y + 4294967296).
  { destruct (Z.neg_nonneg_cases y);
      [right; apply to_uint32_negative | left; apply to_uint32_small]; lia. }
  pose proof (to_uint32_range x). pose proof (to_uint32_range y). lia.
Qed.

(** ** Outcomes and raw accesses *)

Lemma bindO_Ret {A B} (m : outcome A) (f : A -> outcome B) (b : B) :
  bindO m f = Ret b <-> exists a, m = Ret a /\ f a = Ret b.
Proof.
  destruct m; simpl; split; try (intros [a0 [H _]]; discriminate H);
    try discriminate; eauto.
  intros [a0 [H H']]. injection H as ->. exact H'.
Qed.

Lemma read_Ret {A} (a : list A) (i : Z) (x : A) :
  read a i = Ret x <-> 0 <= i /\ a !! Z.to_nat i = Some x.
Proof.
  unfold read.
  destruct (Z.leb_spec 0 i), (Z.ltb_spec i (Z.of_nat (length a))); simpl.
  - destruct (a !! Z.to_nat i); split; intros H'; try discriminate.
    + injection H' as ->. auto.
    + destruct H' as [_ H']. injection H' as ->. reflexivity.
    + destruct H' as [_ H']. discriminate.
  - split; [discriminate|]. intros [_ H']. apply lookup_lt_Some in H'. lia.
  - split; [discriminate | lia].
  - split; [discriminate | lia].
Qed.

Lemma at_Ret {A} (v : list A) (i : Z) (x : A) :
  at_ v i = Ret x <-> 0 <= i /\ v !! Z.to_nat i = Some x.
Proof.
  unfold at_.
  destruct (Z.leb_spec 0 i), (Z.ltb_spec i (Z.of_nat (length v))); simpl.
  - destruct (v !! Z.to_nat i); split; intros H'; try discriminate.
    + injection H' as ->. auto.
    + destruct H' as [_ H']. injection H' as ->. reflexivity.
    + destruct H' as [_ H']. discriminate.
  - split; [discriminate|]. intros [_ H']. apply lookup_lt_Some in H'. lia.
  - split; [discriminate | lia].
  - split; [discriminate | lia].
Qed.

(** [at] returns or throws [std::out_of_range]; nothing else. *)
Lemma at_cases {A} (v : list A) (i : Z) :
  (exists x, at_ v i = Ret x) \/ at_ v i = Throw out_of_range.
Proof.
  unfold at_. destruct (_ && _); [|auto]. destruct (v !! Z.to_nat i); eauto.
Qed.

Lemma read_int_Ret {A} (a : list A) (i : Z) (x : A) :
  read_int a i = Ret x <-> 0 <= i <= INT_MAX /\ a !! Z.to_nat i = Some x.
Proof.
  unfold read_int. destruct (int_range i) eqn:Hr.
  - apply int_range_spec in Hr. rewrite read_Ret. intuition lia.
  - split; [discriminate|]. intros [Hi _].
    assert (int_range i = true) by (apply int_range_spec; unfold INT_MIN; lia).
    congruence.
Qed.

Lemma write_Ret {A} (a : list A) (i : Z) (x : A) (a' : list A) :
  write a i x = Ret a' <->
  0 <= i < Z.of_nat (length a) /\ a' = <[Z.to_nat i := x]> a.
Proof.
  unfold write.
  destruct (Z.leb_spec 0 i), (Z.ltb_spec i (Z.of_nat (length a))); simpl;
    split; intros H'; try discriminate; try lia.
  - injection H' as <-. auto.
  - destruct H' as [_ ->]. reflexivity.
Qed.

(** ** Loops in the [outcome] monad *)

Lemma forO_unfold {S} (n : nat) (i : Z) (body : Z -> S -> outcome S) (s : S) :
  forO (Datatypes.S n) i body s = bindO (body i s) (forO n (i + 1) body).
Proof. reflexivity. Qed.

Lemma forO_snoc {S} (n : nat) (i : Z) (body : Z -> S -> outcome S) (s : S) :
  forO (Datatypes.S n) i body s =
  let! s' := forO n i body s in body (i + Z.of_nat n) s'.
Proof.
  revert i s. induction n as [|n IH]; intros i s.
  - rewrite forO_unfold. cbn [forO bindO Z.of_nat]. rewrite Z.add_0_r.
    destruct (body i s); reflexivity.
  - rewrite forO_unfold, (forO_unfold n).
    destruct (body i s) as [s1| | |]; cbn [bindO]; try reflexivity.
    rewrite IH. replace (i + 1 + Z.of_nat n) with (i + Z.of_nat (Datatypes.S n)) by lia.
    reflexivity.
Qed.

(** The invariant rule for a loop that returns. *)
Lemma forO_invariant {S} (P : Z -> S -> Prop) (body : Z -> S -> outcome S)
    (n : nat) (i : Z) (s s' : S) :
  P i s ->
  (forall j t t', i <= j < i + Z.of_nat n -> P j t -> body j t = Ret t' -> P (j + 1) t') ->
  forO n i body s = Ret s' ->
  P (i + Z.of_nat n) s'.
Proof.
  revert i s. induction n as [|n IH]; intros i s HP Hstep Hrun.
  - simpl in Hrun. injection Hrun as <-. rewrite Z.add_0_r. exact HP.
  - simpl in Hrun. apply bindO_Ret in Hrun as [s1 [H1 H2]].
    replace (i + Z.of_nat (Datatypes.S n)) with ((i + 1) + Z.of_nat n) by lia.
    apply (IH (i + 1) s1).
    + apply (Hstep i s s1); [lia | exact HP | exact H1].
    + intros j t t' Hj. apply Hstep. lia.
    + exact H2.
Qed.

(** A loop whose body returns wherever the invariant holds returns. *)
Lemma forO_total {S} (P : Z -> S -> Prop) (body : Z -> S -> outcome S)
    (n : nat) (i : Z) (s : S) :
  P i s ->
  (forall j t, i <= j < i + Z.of_nat n -> P j t ->
     exists t', body j t = Ret t' /\ P (j + 1) t') ->
  exists s', forO n i body s = Ret s' /\ P (i + Z.of_nat n) s'.
Proof.
  revert i s. induction n as [|n IH]; intros i s HP Hstep.
  - exists s. rewrite Z.add_0_r. auto.
  - destruct (Hstep i s) as [s1 [H1 HP1]]; [lia | exact HP |].
    destruct (IH (i + 1) s1 HP1) as [s' [H2 HP2]].
    { intros j t Hj. apply Hstep. lia. }
    exists s'. simpl. rewrite H1. simpl.
    replace (i + Z.of_nat (Datatypes.S n)) with ((i + 1) + Z.of_nat n) by lia.
    auto.
Qed.

(** ** The face loop as a fold *)

Lemma add_corners_snoc (ks : list obj_vertex) (v : obj_vertex) :
  add_corners (ks ++ [v]) = add_corner (add_corners ks) v.
Proof. unfold add_corners. rewrite foldl_app. reflexivity. Qed.

Lemma add_face_Ret (fi : list Z) (i : Z) (st st' : dedup) :
  add_face fi i st = Ret st' <->
  exists a b c,
    (0 <= i * 3 /\ i * 3 + 2 <= INT_MAX) /\
    fi !! Z.to_nat (i * 3) = Some a /\
    fi !! Z.to_nat (i * 3 + 1) = Some b /\
    fi !! Z.to_nat (i * 3 + 2) = Some c /\
    st' = add_corner (add_corner (add_corner st (corner_key a)) (corner_key b))
            (corner_key c).
Proof.
  unfold add_face. split.
  - intros H.
    apply bindO_Ret in H as [a [Ha H]]. apply bindO_Ret in H as [b [Hb H]].
    apply bindO_Ret in H as [c [Hc H]]. injection H as <-.
    apply read_int_Ret in Ha as [? Ha], Hb as [? Hb], Hc as [? Hc].
    exists a, b, c. repeat split; try assumption; lia.
  - intros (a & b & c & Hr & Ha & Hb & Hc & ->).
    assert (R : forall d x, 0 <= d <= 2 -> fi !! Z.to_nat (i * 3 + d) = Some x ->
                read_int fi (i * 3 + d) = Ret x).
    { intros d x Hd Hx. apply read_int_Ret. split; [lia | exact Hx]. }
    rewrite <- (Z.add_0_r (i * 3)) at 1. rewrite <- (Z.add_0_r (i * 3)) in Ha.
    rewrite (R 0 a), (R 1 b), (R 2 c) by (assumption || lia). reflexivity.
Qed.

Lemma take_three {A} (l : list A) (m : nat) (a b c : A) :
  l !! m = Some a -> l !! Datatypes.S m = Some b ->
  l !! Datatypes.S (Datatypes.S m) = Some c ->
  take (Datatypes.S (Datatypes.S (Datatypes.S m))) l = take m l ++ [a; b; c].
Proof.
  intros Ha Hb Hc.
  rewrite (take_S_r _ _ _ Hc), (take_S_r _ _ _ Hb), (take_S_r _ _ _ Ha).
  rewrite <- !app_assoc. reflexivity.
Qed.

Lemma faces_done_step (fi : list Z) (j : Z) (st st' : dedup) :
  faces_done fi j st -> add_face fi j st = Ret st' -> faces_done fi (j + 1) st'.
Proof.
  intros (Hj & Hlen & ->) H.
  apply add_face_Ret in H as (a & b & c & Hr & Ha & Hb & Hc & ->).
  set (m := Z.to_nat (3 * j)) in *.
  replace (Z.to_nat (j * 3)) with m in Ha by (subst m; lia).
  replace (Z.to_nat (j * 3 + 1)) with (Datatypes.S m) in Hb by (subst m; lia).
  replace (Z.to_nat (j * 3 + 2)) with (Datatypes.S (Datatypes.S m)) in Hc by (subst m; lia).
  assert (Hm : Z.to_nat (3 * (j + 1)) = Datatypes.S (Datatypes.S (Datatypes.S m)))
    by (subst m; lia).
  split; [lia |]. rewrite Hm. split.
  - apply lookup_lt_Some in Hc. lia.
  - rewrite (take_three fi m a b c Ha Hb Hc), fmap_app. cbn [fmap list_fmap].
    rewrite <- !add_corners_snoc, <- !app_assoc. reflexivity.
Qed.

(** What a returning face loop has computed. *)
Lemma face_loop_Ret (fi : list Z) (n_faces : Z) (st : dedup) :
  face_loop fi n_faces = Ret st ->
  (Z.to_nat (3 * n_faces) <= length fi)%nat /\
  3 * n_faces <= INT_MAX + 1 /\
  st = add_corners (corner_key <$> take (Z.to_nat (3 * n_faces)) fi).
Proof.
  unfold face_loop, for_int. intros H.
  pose (P := fun j st => faces_done fi j st /\ 3 * j <= INT_MAX + 1).
  assert (HP : P (0 + Z.of_nat (Z.to_nat n_faces)) st).
  { apply (forO_invariant P (add_face fi) _ 0 dedup_empty st); [| | exact H].
    - split; [|unfold INT_MAX; lia]. split; [lia|]. split; [simpl; lia | reflexivity].
    - intros j t t' Hj [Hd _] Hb. split; [eapply faces_done_step; eassumption |].
      apply add_face_Ret in Hb as (_ & _ & _ & Hr & _). lia. }
  destruct HP as [(_ & Hlen & Hst) Hmax].
  destruct (Z.le_gt_cases 0 n_faces) as [Hn|Hn].
  - rewrite Z.add_0_l, Z2Nat.id in Hlen, Hst, Hmax by exact Hn. auto.
  - replace (Z.to_nat n_faces) with 0%nat in * by lia.
    replace (Z.to_nat (3 * n_faces)) with 0%nat by lia.
    simpl in *. split; [lia|]. split; [unfold INT_MAX; lia | exact Hst].
Qed.

(** A face loop over a large enough buffer returns. *)
Lemma face_loop_total (fi : list Z) (n_faces : Z) :
  0 <= n_faces -> 3 * n_faces <= Z.of_nat (length fi) -> 3 * n_faces <= INT_MAX + 1 ->
  face_loop fi n_faces =
  Ret (add_corners (corner_key <$> take (Z.to_nat (3 * n_faces)) fi)).
Proof.
  intros Hn Hlen Hmax. unfold face_loop, for_int.
  destruct (forO_total (faces_done fi) (add_face fi) (Z.to_nat n_faces) 0 dedup_empty)
    as [st [Hrun Hst]].
  - split; [lia|]. split; [simpl; lia | reflexivity].
  - intros j t Hj Hd.
    assert (Hex : exists t', add_face fi j t = Ret t').
    { assert (L : forall d, 0 <= d <= 2 -> is_Some (fi !! Z.to_nat (j * 3 + d))).
      { intros d Hd'. apply lookup_lt_is_Some. lia. }
      destruct (L 0) as [a Ha], (L 1) as [b Hb], (L 2) as [c Hc]; try lia.
      rewrite Z.add_0_r in Ha.
      eexists. apply add_face_Ret. exists a, b, c.
      repeat split; try eassumption; lia. }
    destruct Hex as [t' Ht']. exists t'. split; [exact Ht'|].
    eapply faces_done_step; eassumption.
  - rewrite Hrun. destruct Hst as (_ & _ & ->).
    rewrite Z.add_0_l, Z2Nat.id by exact Hn. reflexivity.
Qed.

(** ** The deduplication invariant *)

Lemma dedup_inv_empty : dedup_inv [] dedup_empty.
Proof.
  split; simpl; try done.
  - constructor.
  - intros v k. rewrite lookup_empty. split; [done | intros [_ H]; done].
Qed.

(** A corner whose key is already in the map. *)
Lemma dedup_inv_seen (ks : list obj_vertex) (st : dedup) (v : obj_vertex) (k : Z) :
  dedup_inv ks st -> st_vertexMap st !! v = Some k ->
  dedup_inv (ks ++ [v]) (mkDedup (st_indices st ++ [k]) (st_vertices st) (st_vertexMap st)).
Proof.
  intros [Hc Hl Hn Hm Hi Hf] Hv. pose proof (proj1 (Hm v k) Hv) as [Hk Hkv].
  split; simpl.
  - rewrite length_app. simpl. lia.
  - rewrite !length_app, Hl. reflexivity.
  - exact Hn.
  - exact Hm.
  - intros a k' Ha. destruct (decide (a < length (st_indices st))%nat) as [Hlt|Hge].
    + rewrite lookup_app_l in Ha by exact Hlt.
      destruct (Hi a k' Ha) as [? [w [Hw ?]]]. split; [assumption|].
      exists w. split; [|assumption]. rewrite lookup_app_l by lia. exact Hw.
    + rewrite lookup_app_r in Ha by lia.
      destruct (a - length (st_indices st))%nat as [|d] eqn:Hd; [|destruct d; discriminate].
      injection Ha as <-. split; [assumption|]. exists v. split; [|assumption].
      rewrite lookup_app_r by lia. replace (a - length ks)%nat with 0%nat by lia.
      reflexivity.
  - intros c w Hcw. destruct (Hf c w Hcw) as [a (Ha & Hia & Hb)].
    pose proof (lookup_lt_Some _ _ _ Ha) as Hlt.
    exists a. split; [rewrite lookup_app_l by lia; exact Ha|].
    split; [rewrite lookup_app_l by lia; exact Hia|].
    intros b k' Hba Hbk. rewrite lookup_app_l in Hbk by lia. eauto.
Qed.

(** A corner whose key is new; the vertex count still fits [uint32_t]. *)
Lemma dedup_inv_fresh (ks : list obj_vertex) (st : dedup) (v : obj_vertex) :
  dedup_inv ks st -> st_vertexMap st !! v = None ->
  dedup_inv (ks ++ [v])
    (mkDedup (st_indices st ++ [Z.of_nat (length (st_vertices st))])
             (st_vertices st ++ [v])
             (<[v := Z.of_nat (length (st_vertices st))]> (st_vertexMap st))).
Proof.
  intros [Hc Hl Hn Hm Hi Hf] Hv.
  set (K := length (st_vertices st)) in *.
  assert (Hnew : v ∉ st_vertices st).
  { intros Hin. apply list_elem_of_lookup in Hin as [c Hcv].
    assert (st_vertexMap st !! v = Some (Z.of_nat c)) as Hsome.
    { apply Hm. split; [lia|]. rewrite Nat2Z.id. exact Hcv. }
    congruence. }
  assert (Hnd : NoDup (st_vertices st ++ [v])).
  { apply NoDup_app. split; [exact Hn|]. split; [|apply NoDup_singleton].
    intros x Hx Hx'. apply list_elem_of_singleton in Hx'. subst x. contradiction. }
  split; simpl.
  - rewrite !length_app. simpl. lia.
  - rewrite !length_app, Hl. reflexivity.
  - exact Hnd.
  - intros w k. destruct (decide (v = w)) as [<-|Hne].
    + rewrite lookup_insert_eq. split.
      * intros H. injection H as <-. split; [lia|].
        rewrite Nat2Z.id, lookup_app_r by lia. subst K.
        rewrite Nat.sub_diag. reflexivity.
      * intros [Hk Hkv]. f_equal.
        assert (Z.to_nat k = K) as <-; [|lia].
        apply (NoDup_lookup _ _ _ v Hnd Hkv).
        rewrite lookup_app_r by lia. subst K. rewrite Nat.sub_diag. reflexivity.
    + rewrite lookup_insert_ne by exact Hne. rewrite Hm. split.
      * intros [Hk Hkw]. split; [exact Hk|]. apply lookup_app_l_Some. exact Hkw.
      * intros [Hk Hkw]. split; [exact Hk|].
        apply lookup_app_Some in Hkw as [Hkw|[_ Hkw]]; [exact Hkw|].
        apply list_lookup_singleton_Some in Hkw as [_ ->]. congruence.
  - intros a k Ha. destruct (decide (a < length (st_indices st))%nat) as [Hlt|Hge].
    + rewrite lookup_app_l in Ha by exact Hlt.
      destruct (Hi a k Ha) as [? [w [Hw Hkw]]]. split; [assumption|].
      exists w. split; [rewrite lookup_app_l by lia; exact Hw|].
      apply lookup_app_l_Some. exact Hkw.
    + rewrite lookup_app_r in Ha by lia.
      destruct (a - length (st_indices st))%nat as [|d] eqn:Hd; [|destruct d; discriminate].
      injection Ha as <-. split; [lia|]. exists v. split.
      * rewrite lookup_app_r by lia. replace (a - length ks)%nat with 0%nat by lia.
        reflexivity.
      * rewrite Nat2Z.id, lookup_app_r by lia. subst K.
        rewrite Nat.sub_diag. reflexivity.
  - intros c w Hcw. apply lookup_app_Some in Hcw as [Hcw|[Hge Hcw]].
    + destruct (Hf c w Hcw) as [a (Ha & Hia & Hb)].
      pose proof (lookup_lt_Some _ _ _ Ha) as Hlt.
      exists a. split; [rewrite lookup_app_l by lia; exact Ha|].
      split; [rewrite lookup_app_l by lia; exact Hia|].
      intros b k' Hba Hbk. rewrite lookup_app_l in Hbk by lia. eauto.
    + apply list_lookup_singleton_Some in Hcw as [Hc0 <-].
      assert (c = K) as -> by (subst K; lia).
      exists (length ks). split.
      * rewrite lookup_app_r by lia. rewrite Nat.sub_diag. reflexivity.
      * split.
        -- rewrite lookup_app_r by lia. rewrite Hl, Nat.sub_diag. reflexivity.
        -- intros b k' Hb Hbk. rewrite lookup_app_l in Hbk by lia.
           destruct (Hi b k' Hbk) as [? [w [_ Hw]]].
           apply lookup_lt_Some in Hw. lia.
Qed.

Lemma add_corners_inv (ks : list obj_vertex) :
  Z.of_nat (length ks) <= 4294967296 -> dedup_inv ks (add_corners ks).
Proof.
  induction ks as [|v ks IH] using rev_ind; intros Hlen.
  - exact dedup_inv_empty.
  - rewrite length_app in Hlen. simpl in Hlen.
    rewrite add_corners_snoc. specialize (IH ltac:(lia)).
    unfold add_corner. destruct (st_vertexMap (add_corners ks) !! v) as [k|] eqn:Hv.
    + apply dedup_inv_seen; assumption.
    + rewrite to_uint32_small.
      * apply dedup_inv_fresh; assumption.
      * pose proof (inv_count _ _ IH). lia.
Qed.

(** ** Positions and the compact vertex list *)

Lemma add_position_Ret (verts : list float) (i : Z) (ps ps' : list Vector3d) :
  add_position verts i ps = Ret ps' <->
  (0 <= i * 3 /\ i * 3 + 2 <= INT_MAX) /\
  exists q, input_position verts i = Some q /\ ps' = ps ++ [q].
Proof.
  unfold add_position, input_position. split.
  - intros H.
    apply bindO_Ret in H as [x [Hx H]]. apply bindO_Ret in H as [y [Hy H]].
    apply bindO_Ret in H as [z [Hz H]]. injection H as <-.
    apply read_int_Ret in Hx as [? Hx], Hy as [? Hy], Hz as [? Hz].
    rewrite Hx, Hy, Hz. split; [lia | eauto].
  - intros [Hr [q [Hq ->]]].
    destruct (verts !! Z.to_nat (i * 3)) as [x|] eqn:Hx; [|discriminate].
    destruct (verts !! Z.to_nat (i * 3 + 1)) as [y|] eqn:Hy; [|discriminate].
    destruct (verts !! Z.to_nat (i * 3 + 2)) as [z|] eqn:Hz; [|discriminate].
    injection Hq as <-.
    assert (R : forall d w, 0 <= d <= 2 -> verts !! Z.to_nat (i * 3 + d) = Some w ->
                read_int verts (i * 3 + d) = Ret w).
    { intros d w Hd Hw. apply read_int_Ret. split; [lia | exact Hw]. }
    rewrite <- (Z.add_0_r (i * 3)) at 1. rewrite <- (Z.add_0_r (i * 3)) in Hx.
    rewrite (R 0 x), (R 1 y), (R 2 z) by (assumption || lia). reflexivity.
Qed.

Lemma positions_done_step (verts : list float) (j : Z) (ps ps' : list Vector3d) :
  positions_done verts j ps -> add_position verts j ps = Ret ps' ->
  positions_done verts (j + 1) ps'.
Proof.
  intros [Hlen Hps] H. apply add_position_Ret in H as [_ [q [Hq ->]]].
  split.
  - rewrite length_app. simpl. lia.
  - intros i Hi. rewrite length_app in Hi. simpl in Hi.
    destruct (decide (i < length ps)%nat) as [Hlt|Hge].
    + rewrite lookup_app_l by exact Hlt. apply Hps. exact Hlt.
    + assert (i = length ps) as -> by lia.
      rewrite lookup_app_r, Nat.sub_diag by lia. rewrite Hlen. simpl. congruence.
Qed.

Lemma load_positions_Ret (verts : list float) (n_verts : Z) (ps : list Vector3d) :
  load_positions verts n_verts = Ret ps ->
  0 <= n_verts /\ positions_done verts n_verts ps.
Proof.
  unfold load_positions, for_int. destruct (Z.ltb_spec n_verts 0); [discriminate|].
  intros Hrun. split; [assumption|].
  rewrite <- (Z2Nat.id n_verts), <- (Z.add_0_l (Z.of_nat _)) by assumption.
  apply (forO_invariant (positions_done verts) (add_position verts) _ 0 [] ps).
  - split; [reflexivity | simpl; intros; lia].
  - intros j t t' _. apply positions_done_step.
  - exact Hrun.
Qed.

Lemma load_positions_total (verts : list float) (n_verts : Z) :
  0 <= n_verts -> Z.of_nat (length verts) = 3 * n_verts -> 3 * n_verts <= INT_MAX + 1 ->
  exists ps, load_positions verts n_verts = Ret ps.
Proof.
  intros Hn Hlen Hmax. unfold load_positions, for_int.
  destruct (Z.ltb_spec n_verts 0); [lia|].
  destruct (forO_total (fun _ _ => True) (add_position verts) (Z.to_nat n_verts) 0 [])
    as [ps [Hrun _]]; [exact I | | eauto].
  intros j t Hj _.
  assert (L : forall d, 0 <= d <= 2 -> is_Some (verts !! Z.to_nat (j * 3 + d))).
  { intros d Hd. apply lookup_lt_is_Some. lia. }
  destruct (L 0) as [x Hx], (L 1) as [y Hy], (L 2) as [z Hz]; try lia.
  rewrite Z.add_0_r in Hx.
  exists (t ++ [mkVector3d x y z]). split; [|exact I].
  apply add_position_Ret. split; [lia|]. exists (mkVector3d x y z).
  unfold input_position. rewrite Hx, Hy, Hz. auto.
Qed.

Lemma mapO_Ret {A B} (f : A -> outcome B) (l : list A) (l' : list B) :
  mapO f l = Ret l' <-> Forall2 (fun x y => f x = Ret y) l l'.
Proof.
  revert l'. induction l as [|x l IH]; intros l'; simpl.
  - split.
    + intros H. injection H as <-. constructor.
    + intros H. apply Forall2_nil_inv_l in H as ->. reflexivity.
  - split.
    + intros H. apply bindO_Ret in H as [y [Hy H]].
      apply bindO_Ret in H as [ys [Hys H]]. injection H as <-.
      constructor; [exact Hy | apply IH; exact Hys].
    + intros H. apply Forall2_cons_inv_l in H as (y & ys & Hy & Hys & ->).
      rewrite Hy. simpl. apply IH in Hys. rewrite Hys. reflexivity.
Qed.

(** [gather] either returns or throws [std::out_of_range]: it never
    reads outside [positions]. *)
Lemma gather_cases (positions : list Vector3d) (vs : list obj_vertex) :
  (exists v, gather positions vs = Ret v) \/ gather positions vs = Throw out_of_range.
Proof.
  unfold gather. induction vs as [|w vs IH]; simpl; [eauto|].
  destruct (at_cases positions (ov_p w)) as [[p ->] | ->]; simpl; [|auto].
  destruct IH as [[v0 ->] | ->]; simpl; eauto.
Qed.

Lemma gather_Throw (positions : list Vector3d) (vs : list obj_vertex) (w : obj_vertex) :
  w ∈ vs -> positions !! Z.to_nat (ov_p w) = None ->
  gather positions vs = Throw out_of_range.
Proof.
  intros Hin Hw. destruct (gather_cases positions vs) as [[v Hv]|H]; [|exact H].
  apply mapO_Ret in Hv. apply list_elem_of_lookup in Hin as [c Hc].
  destruct (Forall2_lookup_l _ _ _ _ _ Hv Hc) as (y & _ & Hy).
  apply at_Ret in Hy as [_ Hy]. congruence.
Qed.

(** ** The compact mesh *)

Lemma copy_indices_Ret (ix f : list Z) :
  copy_indices ix = Ret f -> f = to_int <$> ix.
Proof.
  unfold copy_indices. destruct (_ <? _); [discriminate|]. congruence.
Qed.

Lemma corner_keys_lookup (fi : list Z) (n a : nat) (w : obj_vertex) :
  (corner_key <$> take n fi) !! a = Some w <->
  (a < n)%nat /\ exists x, fi !! a = Some x /\ w = corner_key x.
Proof.
  rewrite list_lookup_fmap_Some. split.
  - intros [x [-> Hx]]. apply lookup_take_Some in Hx as [Hx Ha]. eauto.
  - intros [Ha [x [Hx ->]]]. exists x. split; [reflexivity|].
    apply lookup_take_Some. auto.
Qed.

(** What [compact_mesh] has computed when it returns: the positions
    array, the loop state with its invariant, and how [V] and [F] are
    read off them. *)
Lemma compact_mesh_Ret (verts : list float) (n_verts : Z) (fi : list Z) (n_faces : Z)
    (v : list Vector3d) (f : list Z) :
  compact_mesh verts n_verts fi n_faces = Ret (v, f) ->
  let n := Z.to_nat (3 * n_faces) in
  exists ps st,
    (0 <= n_verts /\ positions_done verts n_verts ps) /\
    (n <= length fi)%nat /\
    dedup_inv (corner_key <$> take n fi) st /\
    f = st_indices st /\
    Forall2 (fun w q => ps !! Z.to_nat (ov_p w) = Some q) (st_vertices st) v.
Proof.
  intros H n. unfold compact_mesh in H.
  apply bindO_Ret in H as [ps [Hps H]]. apply bindO_Ret in H as [st [Hst H]].
  apply bindO_Ret in H as [f' [Hf H]]. apply bindO_Ret in H as [v' [Hv H]].
  injection H as <- <-.
  apply load_positions_Ret in Hps. apply face_loop_Ret in Hst as (Hlen & Hmax & Hst).
  fold n in Hlen, Hst.
  assert (Hinv : dedup_inv (corner_key <$> take n fi) st).
  { rewrite Hst. apply add_corners_inv.
    rewrite length_fmap, length_take. unfold INT_MAX in Hmax. lia. }
  exists ps, st.
  split; [exact Hps|]. split; [exact Hlen|]. split; [exact Hinv|]. split.
  - apply copy_indices_Ret in Hf. rewrite Hf. apply list_eq. intros a.
    rewrite list_lookup_fmap. destruct (st_indices st !! a) as [k|] eqn:Hk; [|reflexivity].
    simpl. f_equal. apply to_int_small.
    destruct (inv_index _ _ Hinv a k Hk) as [Hk0 [w [_ Hw]]].
    apply lookup_lt_Some in Hw. pose proof (inv_count _ _ Hinv) as Hc.
    rewrite length_fmap, length_take in Hc. unfold INT_MAX in Hmax. lia.
  - apply mapO_Ret in Hv. eapply Forall2_impl; [exact Hv|].
    intros w q Hat. apply at_Ret in Hat. tauto.
Qed.

Lemma corner_key_inj_int (x y : Z) :
  INT_MIN <= x <= INT_MAX -> INT_MIN <= y <= INT_MAX ->
  corner_key x = corner_key y -> x = y.
Proof.
  intros Hx Hy H. injection H as H. apply to_uint32_inj_int; assumption.
Qed.

(** C3.  Whenever mesh ingestion gets as far as the compact mesh
    [(V, F)]: [F] has one entry per corner read; two
    corners holding the same input index get the same compact index,
    and two corners holding different input indices get different ones;
    the compact indices are exactly [0 .. |V|-1]; and where an input
    index is referenced for the first time, the compact indices handed
    out before that corner are exactly those below the one it
    receives (so they grow by one at each first reference, from 0). *)
Theorem compact_indices_first_reference_order
    (verts : list float) (n_verts : Z) (fi : list Z) (n_faces : Z)
    (v : list Vector3d) (f : list Z) :
  (forall x, x ∈ fi -> INT_MIN <= x <= INT_MAX) ->
  compact_mesh verts n_verts fi n_faces = Ret (v, f) ->
  length f = Z.to_nat (3 * n_faces) /\
  (forall a b x y k l,
     fi !! a = Some x -> fi !! b = Some y ->
     f !! a = Some k -> f !! b = Some l ->
     (x = y <-> k = l)) /\
  (forall a k, f !! a = Some k -> 0 <= k < Z.of_nat (length v)) /\
  (forall c, 0 <= c < Z.of_nat (length v) -> exists a, f !! a = Some c) /\
  (forall a x k,
     fi !! a = Some x -> f !! a = Some k ->
     (forall b, (b < a)%nat -> fi !! b <> Some x) ->
     forall c, (exists b, (b < a)%nat /\ f !! b = Some c) <-> 0 <= c < k).
Proof.
  intros Hint H.
  destruct (compact_mesh_Ret _ _ _ _ _ _ H) as (ps & st & _ & Hlen & Hinv & -> & Hv).
  set (n := Z.to_nat (3 * n_faces)) in *.
  pose proof (Forall2_length _ _ _ Hv) as HK.
  destruct Hinv as [Hc Hl Hn Hm Hi Hf].
  (* the key of corner [a] and the vertex its compact index names *)
  assert (Hkey : forall a x k, fi !! a = Some x -> st_indices st !! a = Some k ->
            0 <= k /\ st_vertices st !! Z.to_nat k = Some (corner_key x)).
  { intros a x k Hx Hk. destruct (Hi a k Hk) as [Hk0 [w [Hw Hkw]]].
    apply corner_keys_lookup in Hw as [_ [x' [Hx' ->]]].
    assert (x' = x) as -> by congruence. auto. }
  assert (Hin : forall a x, fi !! a = Some x -> INT_MIN <= x <= INT_MAX).
  { intros a x Hx. apply Hint. eapply list_elem_of_lookup_2. exact Hx. }
  split; [|split; [|split; [|split]]].
  - rewrite Hl, length_fmap, length_take. lia.
  - intros a b x y k l Hx Hy Hk Hl'.
    destruct (Hkey a x k Hx Hk) as [Hk0 Hkx], (Hkey b y l Hy Hl') as [Hl0 Hly].
    split.
    + intros ->. assert (Z.to_nat k = Z.to_nat l); [|lia].
      eapply NoDup_lookup; eassumption.
    + intros ->. apply corner_key_inj_int; eauto. congruence.
  - intros a k Hk. destruct (Hi a k Hk) as [Hk0 [w [_ Hw]]].
    apply lookup_lt_Some in Hw. lia.
  - intros c Hcr. destruct (lookup_lt_is_Some_2 (st_vertices st) (Z.to_nat c)) as [w Hw];
      [lia|].
    destruct (Hf _ _ Hw) as [a (_ & Ha & _)]. exists a.
    rewrite Ha. f_equal. lia.
  - intros a x k Hx Hk Hfirst c.
    destruct (Hkey a x k Hx Hk) as [Hk0 Hkx].
    destruct (Hf _ _ Hkx) as [a0 (Ha0 & Hia0 & Hbefore)].
    apply corner_keys_lookup in Ha0 as [_ [x0 [Hx0 Heq]]].
    assert (x0 = x) as -> by (symmetry; apply corner_key_inj_int; eauto).
    assert (Haa0 : (a <= a0)%nat).
    { destruct (decide (a <= a0)%nat); [assumption|].
      exfalso. apply (Hfirst a0); [lia | exact Hx0]. }
    rewrite Z2Nat.id in Hia0, Hbefore by exact Hk0.
    split.
    + intros [b [Hb Hbc]]. split.
      * destruct (Hi b c Hbc) as [? _]. assumption.
      * apply (Hbefore b c); [lia | exact Hbc].
    + intros Hck.
      destruct (lookup_lt_is_Some_2 (st_vertices st) (Z.to_nat c)) as [w Hw].
      { apply lookup_lt_Some in Hkx. lia. }
      destruct (Hf _ _ Hw) as [ac (_ & Hac & Hbc)].
      rewrite Z2Nat.id in Hac, Hbc by lia.
      exists ac. split; [|exact Hac].
      destruct (decide (ac < a)%nat) as [|Hge]; [assumption|]. exfalso.
      destruct (decide (ac = a)) as [->|Hne]; [rewrite Hk in Hac; injection Hac; lia|].
      pose proof (Hbc a k ltac:(lia) Hk). lia.
Qed.

Lemma gather_total (positions : list Vector3d) (vs : list obj_vertex) :
  (forall w, w ∈ vs -> 0 <= ov_p w < Z.of_nat (length positions)) ->
  exists v, gather positions vs = Ret v.
Proof.
  unfold gather. induction vs as [|w vs IH]; intros Hall; simpl; [eauto|].
  pose proof (Hall w ltac:(left)) as Hw.
  destruct (lookup_lt_is_Some_2 positions (Z.to_nat (ov_p w))) as [q Hq]; [lia|].
  assert (Hat : at_ positions (ov_p w) = Ret q) by (apply at_Ret; split; [lia | exact Hq]).
  rewrite Hat. simpl.
  destruct IH as [v ->]; [|simpl; eauto].
  intros w' Hw'. apply Hall. right. exact Hw'.
Qed.

(** Every compact vertex was created for a corner of some face. *)
Lemma vertex_origin (fi : list Z) (n : nat) (st : dedup) (c : nat) (w : obj_vertex) :
  dedup_inv (corner_key <$> take n fi) st ->
  st_vertices st !! c = Some w ->
  exists x, x ∈ fi /\ w = corner_key x.
Proof.
  intros Hinv Hw. destruct (inv_first _ _ Hinv c w Hw) as [a (Ha & _)].
  apply corner_keys_lookup in Ha as [_ [x [Hx ->]]].
  exists x. split; [|reflexivity]. eapply list_elem_of_lookup_2. exact Hx.
Qed.

Lemma copy_indices_total (ix : list Z) (m : Z) :
  Z.of_nat (length ix) = 3 * m -> copy_indices ix = Ret (to_int <$> ix).
Proof.
  intros H. unfold copy_indices. rewrite H.
  replace (3 * m / 3) with m by (apply Z.div_unique_exact; lia).
  rewrite Z.ltb_irrefl. reflexivity.
Qed.

(** C4.  On a valid input of [N] positions and [M] triangles, mesh
    ingestion builds a compact mesh with at most [N] vertices and a
    face-index array of exactly [3 * M] entries; each compact vertex is
    the position of a distinct input index that some face references,
    so an input vertex no face references does not appear. *)
Theorem compact_mesh_shape (verts : list float) (N : Z) (fi : list Z) (M : Z) :
  valid_input verts N fi M ->
  exists v f,
    compact_mesh verts N fi M = Ret (v, f) /\
    Z.of_nat (length v) <= N /\
    Z.of_nat (length f) = 3 * M /\
    exists orig : list Z,
      length orig = length v /\ NoDup orig /\
      forall c j, orig !! c = Some j ->
        j ∈ fi /\ is_Some (v !! c) /\ v !! c = input_position verts j.
Proof.
  intros [[HN HM Hverts Hfaces HNi HMi _] Hidx].
  (* the run returns *)
  destruct (load_positions_total verts N) as [ps Hps]; try lia.
  pose proof (face_loop_total fi M ltac:(lia) ltac:(lia) HMi) as Hst.
  set (n := Z.to_nat (3 * M)) in *. set (st := add_corners _) in Hst.
  assert (Hinv : dedup_inv (corner_key <$> take n fi) st).
  { apply add_corners_inv. rewrite length_fmap, length_take. unfold INT_MAX in HMi. lia. }
  pose proof (load_positions_Ret _ _ _ Hps) as [_ [Hpl Hpv]].
  assert (Horigin : forall c w, st_vertices st !! c = Some w ->
            exists x, x ∈ fi /\ 0 <= x < N /\ w = corner_key x /\ ov_p w = x).
  { intros c w Hw. destruct (vertex_origin _ _ _ _ _ Hinv Hw) as [x [Hx ->]].
    exists x. pose proof (Hidx x Hx). repeat split; try assumption; try lia.
    simpl. apply to_uint32_small. unfold INT_MAX in HNi. lia. }
  destruct (gather_total ps (st_vertices st)) as [v Hv].
  { intros w Hw. apply list_elem_of_lookup in Hw as [c Hw].
    destruct (Horigin c w Hw) as (x & _ & Hx & _ & ->). lia. }
  assert (Hf : length (st_indices st) = n).
  { rewrite (inv_length _ _ Hinv), length_fmap, length_take. lia. }
  exists v, (to_int <$> st_indices st).
  assert (Hrun : compact_mesh verts N fi M = Ret (v, to_int <$> st_indices st)).
  { unfold compact_mesh. rewrite Hps. simpl. rewrite Hst. simpl.
    rewrite (copy_indices_total _ M) by lia. simpl. rewrite Hv. reflexivity. }
  split; [exact Hrun|].
  apply mapO_Ret in Hv. pose proof (Forall2_length _ _ _ Hv) as HK.
  (* the input index behind each compact vertex *)
  assert (Horig : NoDup (ov_p <$> st_vertices st)).
  { apply NoDup_fmap_2_strong; [|exact (inv_nodup _ _ Hinv)].
    intros w w' Hw Hw' Heq.
    apply list_elem_of_lookup in Hw as [c Hw], Hw' as [c' Hw'].
    destruct (Horigin c w Hw) as (x & _ & _ & -> & Hpx).
    destruct (Horigin c' w' Hw') as (x' & _ & _ & -> & Hpx'). congruence. }
  split; [|split].
  - rewrite <- HK, <- (length_fmap ov_p).
    assert (ov_p <$> st_vertices st ⊆+ seqZ 0 N) as Hsub.
    { apply NoDup_submseteq; [exact Horig|]. intros j Hj.
      apply list_elem_of_fmap in Hj as [w [-> Hw]].
      apply list_elem_of_lookup in Hw as [c Hw].
      destruct (Horigin c w Hw) as (x & _ & Hx & _ & ->).
      apply elem_of_seqZ. lia. }
    apply submseteq_length in Hsub. rewrite length_seqZ in Hsub. lia.
  - rewrite length_fmap, Hf. lia.
  - exists (ov_p <$> st_vertices st). split; [rewrite length_fmap; exact HK|].
    split; [exact Horig|]. intros c j Hj.
    apply list_lookup_fmap_Some in Hj as [w [-> Hw]].
    destruct (Horigin c w Hw) as (x & Hxin & Hx & _ & Hpx).
    destruct (Forall2_lookup_l _ _ _ _ _ Hv Hw) as (q & Hq & Hat).
    apply at_Ret in Hat as [_ Hpsx]. rewrite Hpx in *.
    split; [exact Hxin|]. split; [eauto|].
    rewrite Hq, <- Hpsx, Hpv by (apply lookup_lt_Some in Hpsx; exact Hpsx).
    rewrite Z2Nat.id by lia. reflexivity.
Qed.

(** ** Indices outside the position array *)

Lemma compact_mesh_bad_index (verts : list float) (N : Z) (fi : list Z) (M : Z) (x : Z) :
  well_formed_arrays verts N fi M ->
  x ∈ fi -> ~ (0 <= x < N) ->
  compact_mesh verts N fi M = Throw out_of_range.
Proof.
  intros [HN HM Hverts Hfaces HNi HMi Hint] Hx Hbad.
  destruct (load_positions_total verts N) as [ps Hps]; try lia.
  pose proof (face_loop_total fi M ltac:(lia) ltac:(lia) HMi) as Hst.
  set (n := Z.to_nat (3 * M)) in *. set (st := add_corners _) in Hst.
  assert (Hinv : dedup_inv (corner_key <$> take n fi) st).
  { apply add_corners_inv. rewrite length_fmap, length_take. unfold INT_MAX in HMi. lia. }
  pose proof (load_positions_Ret _ _ _ Hps) as [_ [Hpl _]].
  unfold compact_mesh. rewrite Hps. simpl. rewrite Hst. simpl.
  rewrite (copy_indices_total _ M)
    by (rewrite (inv_length _ _ Hinv), length_fmap, length_take; lia).
  simpl. rewrite (gather_Throw ps (st_vertices st) (corner_key x)); [reflexivity | |].
  - (* the corner holding [x] has put its key among the vertices *)
    apply list_elem_of_lookup in Hx as [a Ha].
    pose proof (lookup_lt_Some _ _ _ Ha) as Hlt.
    destruct (lookup_lt_is_Some_2 (st_indices st) a) as [k Hk].
    { rewrite (inv_length _ _ Hinv), length_fmap, length_take. lia. }
    destruct (inv_index _ _ Hinv a k Hk) as [_ [w [Hw Hkw]]].
    apply corner_keys_lookup in Hw as [_ [x' [Hx' ->]]].
    assert (x' = x) as -> by congruence.
    eapply list_elem_of_lookup_2. exact Hkw.
  - (* and that key is no index into [positions] *)
    apply lookup_ge_None. simpl.
    pose proof (Hint x Hx) as Hxi. unfold INT_MIN, INT_MAX in *.
    destruct (Z.neg_nonneg_cases x).
    + rewrite to_uint32_negative; lia.
    + rewrite to_uint32_small; lia.
Qed.

(** C9.  On arrays of the expected shape in which some face entry lies
    outside [0, N) (negative entries included), the position lookup
    [positions.at] throws [std::out_of_range] while the compact
    mesh is assembled -- the outcome is an exception, not an undefined
    access -- and [run_quadriflow] ends with that exception before any
    solver stage is called. *)
Theorem bad_face_index_throws {X} (E : Engine X)
    (verts : list float) (N : Z) (fi : list Z) (M : Z) (target_faces seed : Z)
    (ps pb ad ag mc : bool) (x : Z) :
  well_formed_arrays verts N fi M ->
  0 < target_faces ->
  x ∈ fi -> ~ (0 <= x < N) ->
  compact_mesh verts N fi M = Throw out_of_range /\
  fst (run_quadriflow E verts N fi M target_faces seed ps pb ad ag mc)
    = Throw out_of_range /\
  stages (snd (run_quadriflow E verts N fi M target_faces seed ps pb ad ag mc))
    = [SetFlags; StLoadFromArrays].
Proof.
  intros Hwf Htarget Hx Hbad.
  pose proof (compact_mesh_bad_index _ _ _ _ _ Hwf Hx Hbad) as Hthrow.
  split; [exact Hthrow|].
  destruct Hwf as [HN HM _ _ _ _ _].
  unfold run_quadriflow.
  destruct (Z.leb_spec N 0); [lia|]. destruct (Z.leb_spec M 0); [lia|].
  destruct (Z.leb_spec target_faces 0); [lia|].
  cbn [orb]. unfold run_stages, LoadFromArrays. rewrite Hthrow.
  split; reflexivity.
Qed.

(** ** Logged computations *)

Section LoggedComputations.
Context {X : Type}.

Lemma bindM_Ret {A B} (m : M X A) (f : A -> M X B) (a : A) :
  fst m = Ret a -> bindM m f = (fst (f a), snd m ++ snd (f a)).
Proof. intros H. unfold bindM. rewrite H. reflexivity. Qed.

Lemma bindM_stop {A B} (m : M X A) (f : A -> M X B) :
  (forall a, fst m <> Ret a) -> snd (bindM m f) = snd m /\ forall b, fst (bindM m f) <> Ret b.
Proof.
  intros H. unfold bindM. destruct (fst m) eqn:Hm; simpl; try (split; [reflexivity | discriminate]).
  exfalso. eapply H. reflexivity.
Qed.

Lemma bindM_fst_Ret {A B} (m : M X A) (f : A -> M X B) (b : B) :
  fst (bindM m f) = Ret b <-> exists a, fst m = Ret a /\ fst (f a) = Ret b.
Proof.
  unfold bindM. destruct (fst m) eqn:Hm; simpl; split;
    try discriminate; try (intros [a0 [H _]]; discriminate H); [eauto|].
  intros [a0 [H H']]. injection H as ->. exact H'.
Qed.

Lemma bindM_lift_Ret {A B} (a : A) (f : A -> M X B) : bindM (lift (Ret a)) f = f a.
Proof. unfold bindM, lift. simpl. destruct (f a). reflexivity. Qed.

(** If a computation that starts with an unlogged step returns, that
    step returned. *)
Lemma bindM_lift_inv {A B} (o : outcome A) (f : A -> M X B) (b : B) :
  fst (bindM (lift o) f) = Ret b -> exists a, o = Ret a /\ bindM (lift o) f = f a.
Proof.
  intros H. apply bindM_fst_Ret in H as [a [Ha _]]. simpl in Ha. subst o.
  exists a. split; [reflexivity | apply bindM_lift_Ret].
Qed.

Lemma bindM_log_Forall {A B} (Q : event X -> Prop) (m : M X A) (f : A -> M X B) :
  Forall Q (snd m) ->
  (forall a, fst m = Ret a -> Forall Q (snd (f a))) ->
  Forall Q (snd (bindM m f)).
Proof.
  intros Hm Hf. unfold bindM. destruct (fst m) eqn:Ha; simpl; try exact Hm.
  apply Forall_app. split; [exact Hm | apply Hf; reflexivity].
Qed.

Lemma forM_rule {S} (P : Z -> S -> Prop) (Q : event X -> Prop)
    (body : Z -> S -> M X S) (n : nat) (i : Z) (s : S) :
  P i s ->
  (forall j t, i <= j < i + Z.of_nat n -> P j t ->
     Forall Q (snd (body j t)) /\
     forall t', fst (body j t) = Ret t' -> P (j + 1) t') ->
  Forall Q (snd (forM n i body s)) /\
  forall s', fst (forM n i body s) = Ret s' -> P (i + Z.of_nat n) s'.
Proof.
  revert i s. induction n as [|n IH]; intros i s HP Hstep.
  - simpl. split; [constructor|]. intros s' H. injection H as <-.
    rewrite Z.add_0_r. exact HP.
  - destruct (Hstep i s ltac:(lia) HP) as [HQ1 HP1]. cbn [forM]. split.
    + apply bindM_log_Forall; [exact HQ1|]. intros t Ht.
      apply (IH (i + 1) t); [apply HP1; exact Ht|].
      intros j t' Hj. apply Hstep. lia.
    + intros s' H. apply bindM_fst_Ret in H as [t [Ht H]].
      replace (i + Z.of_nat (Datatypes.S n)) with ((i + 1) + Z.of_nat n) by lia.
      apply (IH (i + 1) t); [apply HP1; exact Ht| |exact H].
      intros j t' Hj. apply Hstep. lia.
Qed.

(** The entries of a sequence are those of its first part and, if
    that returns, those of what follows. *)
Lemma bindM_log_elem {A B} (m : M X A) (f : A -> M X B) (e : event X) :
  e ∈ snd (bindM m f) <-> e ∈ snd m \/ exists a, fst m = Ret a /\ e ∈ snd (f a).
Proof.
  unfold bindM. destruct (fst m) as [a| e' | |]; cbn [snd].
  - rewrite elem_of_app. split.
    + intros [H|H]; [left; exact H | right; eauto].
    + intros [H | [a' [Ha H]]]; [left; exact H | right].
      injection Ha as <-. exact H.
  - split; [auto | intros [H | [a [Ha _]]]; [exact H | discriminate]].
  - split; [auto | intros [H | [a [Ha _]]]; [exact H | discriminate]].
  - split; [auto | intros [H | [a [Ha _]]]; [exact H | discriminate]].
Qed.

End LoggedComputations.

(** ** Level-0 stores *)

Lemma write0_Ret {A} (m m' : list (list A)) (i : Z) (x : A) :
  write0 m i x = Ret m' ->
  0 <= i /\ forall u, 0 <= u ->
    level0 m' u = if decide (u = i) then Some x else level0 m u.
Proof.
  unfold write0. intros H.
  apply bindO_Ret in H as [l [Hl H]]. apply bindO_Ret in H as [l' [Hl' H]].
  apply read_Ret in Hl as [_ Hl]. apply write_Ret in Hl' as [Hi ->].
  apply write_Ret in H as [Hm ->]. change (Z.to_nat 0) with 0%nat in *.
  split; [lia|]. intros u Hu. unfold level0.
  rewrite list_lookup_insert_eq by lia. rewrite Hl.
  destruct (decide (u = i)) as [->|Hne].
  - apply list_lookup_insert_eq. lia.
  - apply list_lookup_insert_ne. lia.
Qed.

Lemma write0_twice {A} (m m1 m2 : list (list A)) (i0 i1 : Z) (x y : A) :
  write0 m i0 x = Ret m1 -> write0 m1 i1 y = Ret m2 -> stored2 m m2 i0 i1 x y.
Proof.
  intros H1 H2 u Hu.
  apply write0_Ret in H1 as [_ H1], H2 as [_ H2].
  rewrite H2, H1 by exact Hu. reflexivity.
Qed.

(** ** One half-edge of the boundary loop *)

Lemma read0_Ret {A} (m : list (list A)) (v : Z) (x : A) :
  read0 m v = Ret x <-> 0 <= v /\ level0 m v = Some x.
Proof.
  unfold read0, level0. rewrite bindO_Ret. split.
  - intros [l [Hl Hx]]. apply read_Ret in Hl as [_ Hl], Hx as [Hv Hx].
    change (Z.to_nat 0) with 0%nat in Hl. rewrite Hl. auto.
  - intros [Hv Hx]. destruct (m !! 0%nat) as [l|] eqn:Hl; [|discriminate].
    exists l. split; apply read_Ret; auto. split; [lia | exact Hl].
Qed.

Lemma bindM_emit {X B} (e : event X) (f : unit -> M X B) :
  bindM (emit e) f = (fst (f tt), e :: snd (f tt)).
Proof. reflexivity. Qed.

Ltac step_lift H :=
  let a := fresh "r" in
  let Ha := fresh "Hr" in
  let Heq := fresh "Heq" in
  destruct (bindM_lift_inv _ _ _ H) as [a [Ha Heq]];
  rewrite Heq in H |- *; clear Heq; cbv beta in H |- *.

Lemma half_edge_ends_reads {X} (h : Hierarchy X) (i a b : Z) (p0 p1 : Vector3d) :
  0 <= i -> i + 1 <= UINT32_MAX ->
  coeff3 (mF h) (i mod 3) (i / 3) = Ret a ->
  coeff3 (mF h) (to_uint32 (i + 1) mod 3) (i / 3) = Ret b ->
  read0 (mV h) (to_uint32 a) = Ret p0 ->
  read0 (mV h) (to_uint32 b) = Ret p1 ->
  half_edge_ends h i = Some (to_uint32 a, to_uint32 b, p0, p1).
Proof.
  unfold UINT32_MAX, coeff3. intros Hi Hmax Ha Hb Hp0 Hp1.
  rewrite to_uint32_small in Hb by lia.
  apply read_Ret in Ha as [_ Ha], Hb as [_ Hb].
  apply read0_Ret in Hp0 as [_ Hp0], Hp1 as [_ Hp1].
  unfold half_edge_ends. rewrite Ha, Hb, Hp0, Hp1. reflexivity.
Qed.

(** A returning iteration either changes nothing and logs nothing --
    the half-edge is not one the loop constrains -- or performs the
    eight stores for an edge it constrains, after one [normalize]. *)
Lemma boundary_edge_inv {X} (h h' : Hierarchy X) (i : Z) :
  0 <= i -> i + 1 <= UINT32_MAX ->
  fst (boundary_edge i h) = Ret h' ->
  (h' = h /\ snd (boundary_edge i h) = [] /\
   forall i0 i1 p0 p1, ~ constrains h i i0 i1 p0 p1) \/
  (exists i0 i1 p0 p1,
     constrains h i i0 i1 p0 p1 /\
     snd (boundary_edge i h) = [Normalize (Vector3d_sub p1 p0)] /\
     edge_written h h' i0 i1 p0 p1).
Proof.
  intros Hi Hmax H. unfold boundary_edge in *.
  step_lift H. rename r into e, Hr into He. apply read_Ret in He as [_ He].
  destruct (Z.eqb_spec e (-1)) as [Heq|Hne].
  - subst e.
    step_lift H. rename r into a, Hr into Ha.
    step_lift H. rename r into b, Hr into Hb.
    step_lift H. rename r into p0, Hr into Hp0.
    step_lift H. rename r into p1, Hr into Hp1.
    pose proof (half_edge_ends_reads h i a b p0 p1 Hi Hmax Ha Hb Hp0 Hp1) as Hends.
    destruct (0 <? squaredNorm (Vector3d_sub p1 p0))%float eqn:Hg.
    + right. exists (to_uint32 a), (to_uint32 b), p0, p1.
      split; [split; [exact He | split; [exact Hends | exact Hg]]|].
      rewrite bindM_emit in H |- *. cbn [fst snd] in H |- *.
      step_lift H. rename r into co1, Hr into Hco1.
      step_lift H. rename r into co2, Hr into Hco2.
      step_lift H. rename r into cq1, Hr into Hcq1.
      step_lift H. rename r into cq2, Hr into Hcq2.
      step_lift H. rename r into cqw1, Hr into Hcqw1.
      step_lift H. rename r into cqw2, Hr into Hcqw2.
      step_lift H. rename r into cow1, Hr into Hcow1.
      step_lift H. rename r into cow2, Hr into Hcow2.
      simpl in H. injection H as <-. split; [reflexivity|].
      split; simpl; [repeat split | ..]; eapply write0_twice; eassumption.
    + left. simpl in H. injection H as <-. split; [reflexivity|].
      split; [reflexivity|]. intros i0 i1 q0 q1 (_ & Hends' & Hnz).
      rewrite Hends in Hends'. injection Hends' as <- <- <- <-.
      unfold nonzero_length in Hnz. congruence.
  - left. simpl in H. injection H as <-. split; [reflexivity|].
    split; [reflexivity|]. intros i0 i1 q0 q1 (Hb & _).
    unfold is_boundary in Hb. congruence.
Qed.

(** ** The boundary loop *)

Lemma constrains_same_mesh {X} (h h' : Hierarchy X) (i i0 i1 : Z) (p0 p1 : Vector3d) :
  same_mesh h h' -> constrains h' i i0 i1 p0 p1 <-> constrains h i i0 i1 p0 p1.
Proof.
  intros (HF & HE & HV). unfold constrains, is_boundary, half_edge_ends.
  rewrite HF, HE, HV. reflexivity.
Qed.

Lemma constrains_functional {X} (h : Hierarchy X) (i i0 i1 j0 j1 : Z)
    (p0 p1 q0 q1 : Vector3d) :
  constrains h i i0 i1 p0 p1 -> constrains h i j0 j1 q0 q1 ->
  i0 = j0 /\ i1 = j1 /\ p0 = q0 /\ p1 = q1.
Proof. intros (_ & H & _) (_ & H' & _). rewrite H in H'. injection H' as -> -> -> ->. auto. Qed.

Lemma constrains_nonneg {X} (h : Hierarchy X) (i i0 i1 : Z) (p0 p1 : Vector3d) :
  constrains h i i0 i1 p0 p1 -> 0 <= i0 /\ 0 <= i1.
Proof.
  intros (_ & H & _). unfold half_edge_ends in H.
  repeat match type of H with
         | match ?o with _ => _ end = _ => destruct o; try discriminate
         end.
  injection H as <- <- _ _. split; apply to_uint32_range.
Qed.

Lemma derive_inv_start {X} (h : Hierarchy X) : derive_inv h 0 h.
Proof.
  split; [repeat split | intros; lia | intros; lia | intros; repeat split].
Qed.

Lemma derive_inv_step {X} (h hn hn' : Hierarchy X) (n : Z) :
  0 <= n -> n + 1 <= UINT32_MAX ->
  derive_inv h n hn -> fst (boundary_edge n hn) = Ret hn' ->
  derive_inv h (n + 1) hn'.
Proof.
  intros Hn Hmax [Hmesh Hw Hlast Hun] Hrun.
  destruct (boundary_edge_inv hn hn' n Hn Hmax Hrun)
    as [(-> & _ & Hskip) | (j0 & j1 & q0 & q1 & Hc & _ & [Hm' HCO HCQ HCQw HCOw])].
  - (* nothing stored: half-edge [n] constrains nothing *)
    assert (Hno : forall v, ~ touches h n v).
    { intros v (i0 & i1 & p0 & p1 & Hc & _).
      apply (Hskip i0 i1 p0 p1), (constrains_same_mesh h hn); assumption. }
    split.
    + exact Hmesh.
    + intros i v Hi Ht. destruct (decide (i = n)) as [->|]; [destruct (Hno v Ht)|].
      apply (Hw i v); [lia | exact Ht].
    + intros i v i0 i1 p0 p1 Hi Hci Hv Hlater.
      destruct (decide (i = n)) as [->|].
      { destruct (Hno v). exists i0, i1, p0, p1. auto. }
      apply (Hlast i v i0 i1 p0 p1); try assumption; [lia|].
      intros j Hj. apply Hlater. lia.
    + intros v Hv Hnone. apply Hun; [exact Hv|]. intros j Hj. apply Hnone. lia.
  - (* the eight stores of half-edge [n] *)
    apply (constrains_same_mesh h hn) in Hc; [|exact Hmesh].
    pose proof (constrains_nonneg _ _ _ _ _ _ Hc) as [Hj0 Hj1].
    assert (Hends : forall v, touches h n v -> v = j0 \/ v = j1).
    { intros v (i0 & i1 & p0 & p1 & Hc' & Hv).
      destruct (constrains_functional _ _ _ _ _ _ _ _ _ _ Hc' Hc) as (-> & -> & _). exact Hv. }
    assert (Hnn : forall i v, touches h i v -> 0 <= v).
    { intros i v (i0 & i1 & p0 & p1 & Hc' & Hv).
      pose proof (constrains_nonneg _ _ _ _ _ _ Hc'). lia. }
    split.
    + destruct Hmesh as (? & ? & ?), Hm' as (? & ? & ?).
      repeat split; congruence.
    + intros i v Hi Ht. pose proof (Hnn i v Ht) as Hv.
      rewrite (HCOw v Hv), (HCQw v Hv).
      destruct (decide (v = j1)); [auto|]. destruct (decide (v = j0)); [auto|].
      destruct (decide (i = n)) as [->|]; [destruct (Hends v Ht); contradiction|].
      apply (Hw i v); [lia | exact Ht].
    + intros i v i0 i1 p0 p1 Hi Hci Hv Hlater.
      assert (0 <= v) as Hv0 by (apply (Hnn i); exists i0, i1, p0, p1; auto).
      rewrite (HCO v Hv0), (HCQ v Hv0).
      destruct (decide (i = n)) as [->|Hne].
      * destruct (constrains_functional _ _ _ _ _ _ _ _ _ _ Hci Hc) as (-> & -> & -> & ->).
        destruct (decide (v = j1)); [auto|].
        destruct (decide (v = j0)); [auto | tauto].
      * assert (~ touches h n v) as Hnot by (apply Hlater; lia).
        assert (v <> j0 /\ v <> j1) as [? ?].
        { split; intros ->; apply Hnot; exists j0, j1, q0, q1; auto. }
        destruct (decide (v = j1)); [contradiction|].
        destruct (decide (v = j0)); [contradiction|].
        apply (Hlast i v i0 i1 p0 p1); try assumption; [lia|].
        intros j Hj. apply Hlater. lia.
    + intros v Hv Hnone.
      assert (~ touches h n v) as Hnot by (apply Hnone; lia).
      assert (v <> j0 /\ v <> j1) as [? ?].
      { split; intros ->; apply Hnot; exists j0, j1, q0, q1; auto. }
      rewrite (HCO v Hv), (HCQ v Hv), (HCOw v Hv), (HCQw v Hv).
      destruct (decide (v = j1)); [contradiction|].
      destruct (decide (v = j0)); [contradiction|].
      apply Hun; [exact Hv|]. intros j Hj. apply Hnone. lia.
Qed.

Lemma boundary_edge_log {X} (h : Hierarchy X) (i : Z) :
  Forall normalizes_nonzero (snd (boundary_edge i h)).
Proof.
  unfold boundary_edge.
  apply bindM_log_Forall; [constructor | intros e _].
  destruct (e =? -1); [|constructor].
  do 4 (apply bindM_log_Forall; [constructor | intros ? _]).
  destruct (0 <? squaredNorm _)%float eqn:Hg; [|constructor].
  rewrite bindM_emit. cbn [snd]. constructor; [exact Hg|].
  do 8 (apply bindM_log_Forall; [constructor | intros ? _]).
  constructor.
Qed.

(** What the boundary loop has done when it returns, and what it has
    logged in any case. *)
Lemma derive_boundary_rule {X} (h : Hierarchy X) :
  Forall normalizes_nonzero (snd (derive_boundary h)) /\
  forall h', fst (derive_boundary h) = Ret h' ->
    derive_inv h (3 * cols3 (mF h)) h'.
Proof.
  unfold derive_boundary, for_uint32.
  destruct (Z.ltb_spec UINT32_MAX (3 * cols3 (mF h))) as [|Hmax].
  { split; [constructor | discriminate]. }
  assert (Hc : 0 <= 3 * cols3 (mF h)).
  { unfold cols3. pose proof (Z.div_pos (Z.of_nat (length (mF h))) 3). lia. }
  destruct (forM_rule (derive_inv h) normalizes_nonzero boundary_edge
              (Z.to_nat (3 * cols3 (mF h))) 0 h) as [HQ HP].
  - apply derive_inv_start.
  - intros j t Hj Hinv. split; [apply boundary_edge_log|].
    intros t'. apply derive_inv_step; [lia | lia | exact Hinv].
  - split; [exact HQ|]. intros h' Hrun.
    specialize (HP h' Hrun). rewrite Z.add_0_l, Z2Nat.id in HP by exact Hc. exact HP.
Qed.

(** ** Edges of zero length *)

Lemma sub_self_zero_or_nan (x : float) : zero_or_nan (x - x)%float.
Proof.
  unfold zero_or_nan. rewrite sub_spec.
  destruct (Prim2SF x) as [s|s| |s m e]; cbn.
  - left. destruct s; cbn; eauto.
  - right. destruct s; reflexivity.
  - right. reflexivity.
  - left. exists false. unfold SF64sub, SFsub. rewrite Z.min_id.
    assert (Hs : shl_align m e e = (m, e)).
    { unfold shl_align. rewrite Z.sub_diag. reflexivity. }
    rewrite Hs. cbn [fst]. rewrite Z.sub_diag. reflexivity.
Qed.

Lemma square_zero_or_nan (x : float) :
  zero_or_nan x ->
  Prim2SF (x * x)%float = S754_zero false \/ Prim2SF (x * x)%float = S754_nan.
Proof.
  rewrite mul_spec. intros [[s ->] | ->]; [left | right]; [|reflexivity].
  destruct s; reflexivity.
Qed.

Lemma add_zero_or_nan (x y : float) :
  Prim2SF x = S754_zero false \/ Prim2SF x = S754_nan ->
  Prim2SF y = S754_zero false \/ Prim2SF y = S754_nan ->
  Prim2SF (x + y)%float = S754_zero false \/ Prim2SF (x + y)%float = S754_nan.
Proof. rewrite add_spec. intros [-> | ->] [-> | ->]; cbn; auto. Qed.

Lemma ltb_zero_or_nan (x : float) :
  Prim2SF x = S754_zero false \/ Prim2SF x = S754_nan -> (0 <? x)%float = false.
Proof. rewrite ltb_spec. intros [-> | ->]; reflexivity. Qed.

(** An edge between two identical positions fails the test of line 144,
    whatever the coordinates (infinities and NaNs included). *)
Lemma nonzero_length_same (p : Vector3d) : nonzero_length p p = false.
Proof.
  unfold nonzero_length, squaredNorm, Vector3d_sub. cbn [vx vy vz].
  apply ltb_zero_or_nan.
  repeat apply add_zero_or_nan; apply square_zero_or_nan, sub_self_zero_or_nan.
Qed.

Lemma half_edge_ends_inv {X} (h : Hierarchy X) (i i0 i1 : Z) (p0 p1 : Vector3d) :
  half_edge_ends h i = Some (i0, i1, p0, p1) ->
  exists a b,
    mF h !! Z.to_nat (3 * (i / 3) + i mod 3) = Some a /\
    mF h !! Z.to_nat (3 * (i / 3) + (i + 1) mod 3) = Some b /\
    i0 = to_uint32 a /\ i1 = to_uint32 b /\
    level0 (mV h) i0 = Some p0 /\ level0 (mV h) i1 = Some p1.
Proof.
  unfold half_edge_ends. intros H.
  destruct (mF h !! Z.to_nat (3 * (i / 3) + i mod 3)) as [a|]; [|discriminate].
  destruct (mF h !! Z.to_nat (3 * (i / 3) + (i + 1) mod 3)) as [b|]; [|discriminate].
  destruct (level0 (mV h) (to_uint32 a)) as [q0|] eqn:H0; [|discriminate].
  destruct (level0 (mV h) (to_uint32 b)) as [q1|] eqn:H1; [|discriminate].
  injection H as <- <- <- <-. exists a, b. auto 10.
Qed.

(** C10.  A half-edge with no opposite whose endpoints have the same
    position -- more generally, whose edge vector fails the test
    [squaredNorm() > 0] -- leaves the hierarchy exactly as it was:
    constrained positions, constrained directions and the four weights
    of both endpoints included, and [normalize] is not called for it.
    Over the whole loop, every vector handed to [normalize] has a
    positive squared norm. *)
Theorem zero_length_edge_adds_nothing {X} (h : Hierarchy X) (i i0 i1 : Z)
    (p0 p1 : Vector3d) :
  0 <= i -> i + 1 <= UINT32_MAX ->
  is_boundary h i ->
  half_edge_ends h i = Some (i0, i1, p0, p1) ->
  p0 = p1 \/ nonzero_length p0 p1 = false ->
  boundary_edge i h = (Ret h, []) /\
  Forall normalizes_nonzero (snd (derive_boundary h)).
Proof.
  intros Hi Hmax Hb Hends Hzero.
  split; [|apply derive_boundary_rule].
  assert (Hg : nonzero_length p0 p1 = false).
  { destruct Hzero as [->|]; [apply nonzero_length_same | assumption]. }
  apply half_edge_ends_inv in Hends as (a & b & Ha & Hb' & -> & -> & Hp0 & Hp1).
  unfold boundary_edge.
  assert (R : forall {A} (l : list A) (k : Z) (x : A),
             0 <= k -> l !! Z.to_nat k = Some x -> read l k = Ret x).
  { intros A l k x Hk Hx. apply read_Ret. auto. }
  rewrite (R _ (mE2E h) i (-1) Hi Hb), bindM_lift_Ret. cbn [Z.eqb Pos.eqb].
  unfold coeff3. rewrite (to_uint32_small (i + 1)) by (unfold UINT32_MAX in Hmax; lia).
  pose proof (Z.mod_pos_bound i 3 ltac:(lia)).
  pose proof (Z.mod_pos_bound (i + 1) 3 ltac:(lia)).
  pose proof (Z.div_pos i 3 Hi ltac:(lia)).
  rewrite (R _ (mF h) (3 * (i / 3) + i mod 3) a ltac:(lia) Ha), bindM_lift_Ret.
  rewrite (R _ (mF h) (3 * (i / 3) + (i + 1) mod 3) b ltac:(lia) Hb'), bindM_lift_Ret.
  pose proof (to_uint32_range a). pose proof (to_uint32_range b).
  rewrite (proj2 (read0_Ret (mV h) (to_uint32 a) p0)), bindM_lift_Ret by (split; [lia | exact Hp0]).
  rewrite (proj2 (read0_Ret (mV h) (to_uint32 b) p1)), bindM_lift_Ret by (split; [lia | exact Hp1]).
  unfold nonzero_length in Hg. rewrite Hg. reflexivity.
Qed.

(** Once the boundary loop has returned, both endpoints of every
    half-edge that has no opposite and whose edge vector passes the
    test [squaredNorm() > 0] carry position weight 1.0 and direction
    weight 1.0 at level 0. *)
Lemma boundary_loop_weights {X} (h h' : Hierarchy X) (i i0 i1 : Z)
    (p0 p1 : Vector3d) :
  fst (derive_boundary h) = Ret h' ->
  0 <= i < 3 * cols3 (mF h) ->
  is_boundary h i ->
  half_edge_ends h i = Some (i0, i1, p0, p1) ->
  nonzero_length p0 p1 = true ->
  level0 (mCOw h') i0 = Some 1%float /\ level0 (mCQw h') i0 = Some 1%float /\
  level0 (mCOw h') i1 = Some 1%float /\ level0 (mCQw h') i1 = Some 1%float.
Proof.
  intros Hrun Hi Hb Hends Hnz.
  destruct (proj2 (derive_boundary_rule h) h' Hrun) as [_ Hw _ _].
  assert (Hc : constrains h i i0 i1 p0 p1) by (split; [|split]; assumption).
  destruct (Hw i i0 Hi) as [? ?]; [exists i0, i1, p0, p1; auto|].
  destruct (Hw i i1 Hi) as [? ?]; [exists i0, i1, p0, p1; auto|].
  auto.
Qed.

(** C8.  Once the boundary loop has returned, a vertex [v] that is an
    endpoint of constraining half-edges (boundary, non-zero length)
    carries what the last of them in iteration order wrote: its own
    position as constrained position, that edge's normalized vector as
    constrained direction, and both weights 1.0 -- whatever earlier
    half-edges had written there. *)
Theorem last_boundary_edge_wins {X} (h h' : Hierarchy X) (i v i0 i1 : Z)
    (p0 p1 : Vector3d) :
  fst (derive_boundary h) = Ret h' ->
  0 <= i < 3 * cols3 (mF h) ->
  constrains h i i0 i1 p0 p1 ->
  v = i0 \/ v = i1 ->
  (forall j, i < j < 3 * cols3 (mF h) -> ~ touches h j v) ->
  level0 (mCO h') v = level0 (mV h) v /\
  level0 (mCO h') v = Some (if decide (v = i1) then p1 else p0) /\
  level0 (mCQ h') v = Some (normalize (Vector3d_sub p1 p0)) /\
  level0 (mCOw h') v = Some 1%float /\
  level0 (mCQw h') v = Some 1%float.
Proof.
  intros Hrun Hi Hc Hv Hlast.
  destruct (proj2 (derive_boundary_rule h) h' Hrun) as [_ Hw Hl _].
  destruct (Hl i v i0 i1 p0 p1 Hi Hc Hv Hlast) as [HCO HCQ].
  destruct (Hw i v Hi) as [HCOw HCQw]; [exists i0, i1, p0, p1; auto|].
  split; [|auto].
  rewrite HCO. destruct Hc as (_ & Hends & _).
  apply half_edge_ends_inv in Hends as (a & b & _ & _ & _ & _ & Hp0 & Hp1).
  destruct (decide (v = i1)) as [->|Hne]; [congruence|].
  destruct Hv as [->|]; [congruence | contradiction].
Qed.

(** ** The stages a run logs *)

Section StageLogs.
Context {X : Type}.

Lemma stages_app (t1 t2 : list (event X)) : stages (t1 ++ t2) = stages t1 ++ stages t2.
Proof. apply omap_app. Qed.

Lemma logs_ret {A} (a : A) (Q : A -> Prop) : Q a -> logs (retM (X:=X) a) [] Q.
Proof.
  intros HQ. split; [reflexivity|]. intros a' H. injection H as <-. auto.
Qed.

Lemma logs_lift {A} (o : outcome A) (Q : A -> Prop) :
  (forall a, o = Ret a -> Q a) -> logs (lift (X:=X) o) [] Q.
Proof. intros HQ. split; [reflexivity|]. intros a H. simpl in H. auto. Qed.

Lemma logs_emit (s : stage) (field : Parametrizer X) (args : list Z) :
  logs (emit (Call s field args)) [s] (fun _ => True).
Proof. split; [reflexivity|]. intros a _. auto. Qed.

Lemma logs_call {A} (s : stage) (field : Parametrizer X) (args : list Z)
    (o : outcome A) (Q : A -> Prop) :
  (forall a, o = Ret a -> Q a) -> logs (call s field args o) [s] Q.
Proof. intros HQ. split; [reflexivity|]. intros a H. simpl in H. auto. Qed.

Lemma logs_bind {A B} (m : M X A) (f : A -> M X B) (L1 L2 : list stage)
    (Q : A -> Prop) (R : B -> Prop) :
  logs m L1 Q -> (forall a, Q a -> logs (f a) L2 R) ->
  logs (bindM m f) (L1 ++ L2) R.
Proof.
  intros [Hpre Hret] Hf. unfold logs, bindM.
  destruct (fst m) as [a| | |] eqn:Hm; cbn [fst snd];
    try (split; [apply prefix_app_r; exact Hpre | discriminate]).
  destruct (Hret a eq_refl) as [HL1 HQ]. destruct (Hf a HQ) as [Hpre2 Hret2].
  rewrite stages_app, HL1. split.
  - apply prefix_app. exact Hpre2.
  - intros b Hb. destruct (Hret2 b Hb) as [-> HR]. auto.
Qed.

Lemma logs_eq {A} (m : M X A) (L L' : list stage) (Q : A -> Prop) :
  logs m L Q -> L = L' -> logs m L' Q.
Proof. intros H <-. exact H. Qed.

Lemma stages_normalize_only (t : list (event X)) :
  Forall normalizes_nonzero t -> stages t = [].
Proof.
  induction 1 as [|e t He _ IH]; [reflexivity|].
  destruct e; [destruct He | exact IH].
Qed.

Lemma derive_boundary_logs (h : Hierarchy X) :
  logs (derive_boundary h) [] (fun h' => derive_inv h (3 * cols3 (mF h)) h').
Proof.
  destruct (derive_boundary_rule h) as [HQ HP].
  unfold logs. rewrite (stages_normalize_only _ HQ). split; [reflexivity|]. auto.
Qed.

Variable E : Engine X.
Hypothesis HE : keeps_flags E.

Lemma LoadFromArrays_logs (field : Parametrizer X) (verts : list float) (N : Z)
    (fi : list Z) (M : Z) :
  logs (LoadFromArrays E field verts N fi M) [StNormalizeMesh]
    (fun f => flag_preserve_boundary f = flag_preserve_boundary field /\
              flag_adaptive_scale f = flag_adaptive_scale field).
Proof.
  unfold LoadFromArrays.
  apply (logs_bind _ _ [] [StNormalizeMesh] (fun _ => True)).
  - apply logs_lift. auto.
  - intros vf _. apply logs_call. intros f Hf.
    apply (kf_normalize E HE) in Hf. exact Hf.
Qed.

Lemma boundary_constraints_logs (field : Parametrizer X) :
  logs (boundary_constraints E field)
    [StClearConstraints; DeriveBoundary; StPropagateConstraints]
    (fun f => flag_adaptive_scale f = flag_adaptive_scale field).
Proof.
  unfold boundary_constraints.
  apply (logs_bind _ _ [StClearConstraints] [DeriveBoundary; StPropagateConstraints]
           (fun _ => True)); [apply logs_call; auto|]. intros h _.
  apply (logs_bind _ _ [DeriveBoundary] [StPropagateConstraints] (fun _ => True));
    [apply logs_emit|]. intros _ _.
  apply (logs_bind _ _ [] [StPropagateConstraints] (fun _ => True)).
  { destruct (derive_boundary_logs (hierarchy (set_hierarchy field h))) as [Hp Hr].
    split; [exact Hp|]. intros a Ha. destruct (Hr a Ha). auto. }
  intros h' _.
  apply (logs_bind _ _ [StPropagateConstraints] [] (fun _ => True));
    [apply logs_call; auto|]. intros h'' _.
  apply logs_ret. reflexivity.
Qed.

Lemma optimization_logs (field : Parametrizer X) (ad : bool) :
  flag_adaptive_scale field = (if ad then 1 else 0) ->
  logs (optimization E field)
    ([StOptimizeOrientations; StOrientationSingularities]
     ++ (if ad then [StEstimateSlope] else [])
     ++ [StOptimizeScale; StOptimizePositions; StPositionSingularities; StIndexMap])
    (fun _ => True).
Proof.
  intros Hflag. unfold optimization.
  apply (logs_bind _ _ [StOptimizeOrientations] _ (fun _ => True));
    [apply logs_call; auto|]. intros h _.
  apply (logs_bind _ _ [StOrientationSingularities] _
           (fun f => flag_adaptive_scale f = (if ad then 1 else 0))).
  { apply logs_call. intros f Hf. apply (kf_orientation E HE) in Hf.
    rewrite Hf. exact Hflag. }
  intros f Hf.
  apply (logs_bind _ _ (if ad then [StEstimateSlope] else []) _ (fun _ => True)).
  { rewrite Hf. destruct ad; simpl; [apply logs_call | apply logs_ret]; auto. }
  intros f' _.
  apply (logs_bind _ _ [StOptimizeScale] _ (fun _ => True));
    [apply logs_call; auto|]. intros hr _.
  apply (logs_bind _ _ [StOptimizePositions] _ (fun _ => True));
    [apply logs_call; auto|]. intros h' _.
  apply (logs_bind _ _ [StPositionSingularities] [StIndexMap] (fun _ => True));
    [apply logs_call; auto|]. intros f'' _.
  apply logs_call. auto.
Qed.

End StageLogs.

Lemma set_flags_flags {X} (E : Engine X) (seed : Z) (ps pb ad ag mc : bool) :
  flag_preserve_boundary (set_flags (Parametrizer2_new E) seed ps pb ad ag mc)
    = (if pb then 1 else 0) /\
  flag_adaptive_scale (set_flags (Parametrizer2_new E) seed ps pb ad ag mc)
    = (if ad then 1 else 0).
Proof. destruct ps, pb, ad, ag, mc; split; reflexivity. Qed.

Lemma run_stages_logs {X} (E : Engine X) (verts : list float) (N : Z) (fi : list Z)
    (M target_faces seed : Z) (ps pb ad ag mc : bool) :
  keeps_flags E ->
  logs (run_stages E verts N fi M target_faces seed ps pb ad ag mc)
    (stage_order pb ad) (fun _ => True).
Proof.
  intros HE. unfold run_stages, stage_order.
  destruct (set_flags_flags E seed ps pb ad ag mc) as [Hpb Had].
  set (field0 := set_flags _ _ _ _ _ _ _) in *.
  apply (logs_bind _ _ [SetFlags] _ (fun _ => True)); [apply logs_emit|]. intros _ _.
  apply (logs_bind _ _ [StLoadFromArrays] _ (fun _ => True)); [apply logs_emit|].
  intros _ _.
  apply (logs_bind _ _ [StNormalizeMesh] _ _ _ (LoadFromArrays_logs E HE field0 _ _ _ _)).
  intros f1 [Hpb1 Had1].
  apply (logs_bind _ _ [StInitialize] _
           (fun f => flag_preserve_boundary f = (if pb then 1 else 0) /\
                     flag_adaptive_scale f = (if ad then 1 else 0))).
  { apply logs_call. intros f Hf. apply (kf_initialize E HE) in Hf. intuition congruence. }
  intros f2 [Hpb2 Had2].
  apply (logs_bind _ _
           (if pb then [StClearConstraints; DeriveBoundary; StPropagateConstraints] else [])
           _ (fun f => flag_adaptive_scale f = (if ad then 1 else 0))).
  { rewrite Hpb2. destruct pb; simpl.
    - destruct (boundary_constraints_logs E f2) as [Hp Hr]. split; [exact Hp|].
      intros a Ha. destruct (Hr a Ha) as [? ?]. split; [assumption | congruence].
    - apply logs_ret. exact Had2. }
  intros f3 Had3. apply optimization_logs; assumption.
Qed.

(** ** The stages a run carries out *)

Section Chains.
Context {X : Type}.
Variable E : Engine X.
Variable a : run_args.

Lemma calls_app (t1 t2 : list (event X)) : calls (t1 ++ t2) = calls t1 ++ calls t2.
Proof. apply omap_app. Qed.

Lemma calls_stages (t : list (event X)) : stages t = (fun c => c.1.1) <$> calls t.
Proof.
  induction t as [|e t IH]; [reflexivity|].
  destruct e; simpl; [f_equal|]; exact IH.
Qed.

Lemma calls_normalize_only (t : list (event X)) :
  Forall normalizes_nonzero t -> calls t = [].
Proof.
  induction 1 as [|e t He _ IH]; [reflexivity|].
  destruct e; [destruct He | exact IH].
Qed.

Lemma calls_elem (t : list (event X)) (s : stage) (field : Parametrizer X) (args : list Z) :
  (s, field, args) ∈ calls t <-> Call s field args ∈ t.
Proof.
  unfold calls. rewrite list_elem_of_omap. split.
  - intros [e [He Hc]]. destruct e; [|discriminate]. injection Hc as -> -> ->. exact He.
  - intros H. exists (Call s field args). auto.
Qed.

(** A computation that logs no call and ends as the stage of [c] does. *)
Lemma continues_end (c : stage * Parametrizer X * list Z) (m : M X (Parametrizer X)) :
  calls (snd m) = [] -> step_of E a c = fst m -> continues E a c m.
Proof.
  intros Hl Hs. unfold continues. rewrite Hl. split; [exact I|].
  exists c. split; [reflexivity | exact Hs].
Qed.

(** An entry, and what follows it. *)
Lemma continues_entry (c : stage * Parametrizer X * list Z)
    (s : stage) (field : Parametrizer X) (args : list Z) (m : M X (Parametrizer X)) :
  step_of E a c = Ret field ->
  continues E a (s, field, args) m ->
  continues E a c (fst m, Call s field args :: snd m).
Proof.
  intros Hc [Hchain [c' [Hlast Hs]]]. unfold continues in *. cbn [snd fst] in *.
  change (calls (Call s field args :: snd m)) with ((s, field, args) :: calls (snd m)).
  split; [split; [exact Hc | exact Hchain]|].
  exists c'. split; [|exact Hs]. rewrite last_cons. rewrite Hlast. reflexivity.
Qed.

Lemma continues_emit (c : stage * Parametrizer X * list Z)
    (s : stage) (field : Parametrizer X) (args : list Z) (k : unit -> M X (Parametrizer X)) :
  step_of E a c = Ret field ->
  continues E a (s, field, args) (k tt) ->
  continues E a c (bindM (emit (Call s field args)) k).
Proof. intros Hc Hk. rewrite bindM_emit. apply continues_entry; assumption. Qed.

(** A stage call whose result the source stores in the object by [g],
    and what follows it. *)
Lemma continues_call {A} (c : stage * Parametrizer X * list Z)
    (s : stage) (field : Parametrizer X) (args : list Z) (o : outcome A)
    (g : A -> Parametrizer X) (k : A -> M X (Parametrizer X)) :
  step_of E a c = Ret field ->
  step E a s field args = bindO o (fun x => Ret (g x)) ->
  (forall x, o = Ret x -> step_of E a (s, field, args) = Ret (g x) ->
     continues E a (s, field, args) (k x)) ->
  continues E a c (bindM (call s field args o) k).
Proof.
  intros Hc Hs Hk. unfold bindM, call. cbn [fst snd].
  destruct o as [x| e | |]; cbn [bindO] in Hs.
  - apply (continues_entry c s field args (k x) Hc). apply Hk; [reflexivity | exact Hs].
  - apply (continues_entry c s field args (Throw e, []) Hc).
    apply continues_end; [reflexivity | exact Hs].
  - apply (continues_entry c s field args (Undefined, []) Hc).
    apply continues_end; [reflexivity | exact Hs].
  - apply (continues_entry c s field args (Diverges, []) Hc).
    apply continues_end; [reflexivity | exact Hs].
Qed.

(** The last stage call of a computation. *)
Lemma continues_last_call (c : stage * Parametrizer X * list Z)
    (s : stage) (field : Parametrizer X) (args : list Z) (o : outcome (Parametrizer X)) :
  step_of E a c = Ret field ->
  step E a s field args = o ->
  continues E a c (call s field args o).
Proof.
  intros Hc Hs. apply (continues_entry c s field args (o, []) Hc).
  apply continues_end; [reflexivity | exact Hs].
Qed.

(** A part that logs no call (unlogged code, the boundary loop), inside
    the stage of [c]. *)
Lemma continues_silent {A} (c : stage * Parametrizer X * list Z)
    (m : M X A) (g : A -> Parametrizer X) (k : A -> M X (Parametrizer X)) :
  calls (snd m) = [] ->
  step_of E a c = bindO (fst m) (fun x => Ret (g x)) ->
  (forall x, fst m = Ret x -> step_of E a c = Ret (g x) -> continues E a c (k x)) ->
  continues E a c (bindM m k).
Proof.
  intros Hl Hs Hk. unfold bindM.
  destruct (fst m) as [x| e | |] eqn:Hm; cbn [bindO] in Hs.
  - specialize (Hk x eq_refl Hs). unfold continues in *. cbn [fst snd].
    rewrite calls_app, Hl. exact Hk.
  - apply continues_end; [exact Hl | exact Hs].
  - apply continues_end; [exact Hl | exact Hs].
  - apply continues_end; [exact Hl | exact Hs].
Qed.

Lemma bindM_assoc {A B C} (m : M X A) (f : A -> M X B) (g : B -> M X C) :
  bindM (bindM m f) g = bindM m (fun x => bindM (f x) g).
Proof.
  unfold bindM. destruct (fst m) as [x| e | |]; cbn [fst snd]; try reflexivity.
  destruct (fst (f x)) as [y| e | |]; cbn [fst snd]; rewrite ?app_assoc; reflexivity.
Qed.

Lemma bindM_retM {A B} (x : A) (f : A -> M X B) : bindM (retM x) f = f x.
Proof. apply bindM_lift_Ret. Qed.

Lemma bindO_Ret_r {A} (o : outcome A) : o = bindO o (fun x => Ret x).
Proof. destruct o; reflexivity. Qed.

(** The boundary block, then [k]. *)
Lemma boundary_constraints_continues (c : stage * Parametrizer X * list Z)
    (field : Parametrizer X) (k : Parametrizer X -> M X (Parametrizer X)) :
  step_of E a c = Ret field ->
  (forall c' field', step_of E a c' = Ret field' -> continues E a c' (k field')) ->
  continues E a c (bindM (boundary_constraints E field) k).
Proof.
  intros Hc Hk. unfold boundary_constraints. rewrite bindM_assoc.
  apply (continues_call c _ _ _ _ (set_hierarchy field)); [exact Hc | reflexivity|].
  intros hc _ Hclear. rewrite bindM_assoc.
  apply continues_emit; [exact Hclear|]. rewrite bindM_assoc.
  apply (continues_silent _ _ (set_hierarchy (set_hierarchy field hc))).
  { apply calls_normalize_only, derive_boundary_rule. }
  { reflexivity. }
  intros h' _ Hderive. rewrite bindM_assoc.
  apply (continues_call _ _ _ _ _
           (set_hierarchy (set_hierarchy (set_hierarchy field hc) h')));
    [exact Hderive | reflexivity|].
  intros h'' _ Hprop. rewrite bindM_retM. apply Hk. exact Hprop.
Qed.

(** The optimization block. *)
Lemma optimization_continues (c : stage * Parametrizer X * list Z)
    (field : Parametrizer X) :
  step_of E a c = Ret field -> continues E a c (optimization E field).
Proof.
  intros Hc. unfold optimization.
  apply (continues_call c _ _ _ _ (set_hierarchy field)); [exact Hc | reflexivity|].
  intros h _ H1.
  apply (continues_call _ _ _ _ _ (fun f => f)); [exact H1 | apply bindO_Ret_r|].
  intros f1 _ H2.
  assert (Hslope : forall k,
            (forall c' f', step_of E a c' = Ret f' -> continues E a c' (k f')) ->
            continues E a (StOrientationSingularities, set_hierarchy field h, [])
              (bindM (if flag_adaptive_scale f1 =? 1
                      then call StEstimateSlope f1 [] (EstimateSlope E f1)
                      else retM f1) k)).
  { intros k Hk. destruct (flag_adaptive_scale f1 =? 1).
    - apply (continues_call _ _ _ _ _ (fun f => f)); [exact H2 | apply bindO_Ret_r|].
      intros f2 _ H3. apply Hk. exact H3.
    - rewrite bindM_retM. apply Hk. exact H2. }
  apply Hslope. intros c3 f2 H3.
  apply (continues_call _ _ _ _ _
           (fun hr => set_flag_adaptive_scale (set_rho (set_hierarchy f2 hr.1) hr.2) 1));
    [exact H3 | reflexivity|].
  intros hr _ H4.
  apply (continues_call _ _ _ _ _
           (set_hierarchy (set_flag_adaptive_scale
                             (set_rho (set_hierarchy f2 hr.1) hr.2) 1)));
    [exact H4 | reflexivity|].
  intros h5 _ H5.
  apply (continues_call _ _ _ _ _ (fun f => f)); [exact H5 | apply bindO_Ret_r|].
  intros f6 _ H6.
  apply continues_last_call; [exact H6 | reflexivity].
Qed.

End Chains.

Section ChainLookups.
Context {X : Type}.
Variable E : Engine X.
Variable a : run_args.

Lemma chain_lookup (cs : list (stage * Parametrizer X * list Z)) (k : nat)
    (c c' : stage * Parametrizer X * list Z) :
  chain E a cs -> cs !! k = Some c -> cs !! Datatypes.S k = Some c' ->
  step_of E a c = Ret c'.1.2.
Proof.
  revert k. induction cs as [|c0 cs IH]; intros k Hchain Hk Hk'; [discriminate|].
  destruct cs as [|c1 cs]; [discriminate|]. destruct Hchain as [H01 Hchain].
  destruct k as [|k].
  - injection Hk as <-. injection Hk' as <-. exact H01.
  - apply (IH k Hchain); assumption.
Qed.

(** An entry whose stage does not return is the last one. *)
Lemma chain_stops (cs : list (stage * Parametrizer X * list Z))
    (c : stage * Parametrizer X * list Z) :
  chain E a cs -> c ∈ cs -> (forall x, step_of E a c <> Ret x) -> last cs = Some c.
Proof.
  intros Hchain Hin Hstop. apply list_elem_of_lookup in Hin as [k Hk].
  rewrite last_lookup.
  destruct (cs !! Datatypes.S k) as [c'|] eqn:Hk'.
  - destruct (Hstop _ (chain_lookup cs k c c' Hchain Hk Hk')).
  - apply lookup_ge_None in Hk'. pose proof (lookup_lt_Some _ _ _ Hk) as Hlt.
    replace (pred (length cs)) with k by lia. exact Hk.
Qed.

End ChainLookups.

(** From the entry of [SetFlags] on, the calls a run logs form a
    chain, and the run ends as the stage of its last entry does. *)
Lemma run_stages_continues {X} (E : Engine X) (verts : list float) (N : Z) (fi : list Z)
    (M target_faces seed : Z) (ps pb ad ag mc : bool) :
  let a := mk_run_args verts N fi M seed ps pb ad ag mc in
  let run := run_stages E verts N fi M target_faces seed ps pb ad ag mc in
  exists rest,
    calls (snd run) = (SetFlags, Parametrizer2_new E, []) :: rest /\
    chain E a (calls (snd run)) /\
    exists c, last (calls (snd run)) = Some c /\ step_of E a c = fst run.
Proof.
  intros a run. subst run. unfold run_stages. cbv zeta.
  set (field0 := set_flags _ _ _ _ _ _ _).
  rewrite bindM_emit. cbn [fst snd].
  match goal with |- context [calls (Call SetFlags ?f [] :: snd ?m)] =>
    change (calls (Call SetFlags f [] :: snd m)) with ((SetFlags, f, []) :: calls (snd m));
    assert (Hrest : continues E a (SetFlags, f, []) m)
  end.
  2:{ destruct Hrest as [Hchain Hlast]. eexists. split; [reflexivity|]. split; assumption. }
  apply (continues_emit E a _ _ field0); [reflexivity|]. cbv beta.
  unfold LoadFromArrays. cbv zeta. rewrite bindM_assoc.
  apply (continues_silent E a _ (lift (compact_mesh verts N fi M))
           (fun vf => set_mesh field0 vf.1 vf.2)); [reflexivity | reflexivity|].
  intros vf _ Hload.
  apply (continues_call E a _ _ _ _ _ (fun f => f)); [exact Hload | apply bindO_Ret_r|].
  intros f1 _ H1.
  apply (continues_call E a _ _ _ _ _ (fun f => f)); [exact H1 | apply bindO_Ret_r|].
  intros f2 _ H2.
  destruct (flag_preserve_boundary f2 =? 0).
  - rewrite bindM_retM. apply optimization_continues. exact H2.
  - apply boundary_constraints_continues; [exact H2|].
    intros c' f3 H3. apply optimization_continues. exact H3.
Qed.


(** ** What every entry of a log satisfies *)

Section LogEntries.
Context {X : Type}.
Variable E : Engine X.

Lemma call_log_Forall {A} (Q : event X -> Prop) (s : stage) (field : Parametrizer X)
    (args : list Z) (o : outcome A) :
  Q (Call s field args) -> Forall Q (snd (call s field args o)).
Proof. intros H. simpl. constructor; [exact H | constructor]. Qed.

Lemma normalize_log_Forall (Q : event X -> Prop) (t : list (event X)) :
  Forall normalizes_nonzero t -> (forall e, Q (Normalize e)) -> Forall Q t.
Proof.
  intros Ht HQ. induction Ht as [|e t He _ IH]; constructor; [|exact IH].
  destruct e; [destruct He | apply HQ].
Qed.

(** The boundary block hands the loop's result to [propagateConstraints]. *)
Lemma boundary_constraints_derivation (field : Parametrizer X) :
  Forall carries_derivation (snd (boundary_constraints E field)).
Proof.
  unfold boundary_constraints.
  apply bindM_log_Forall; [apply call_log_Forall; exact I | intros h _].
  apply bindM_log_Forall; [repeat constructor | intros _ _].
  apply bindM_log_Forall.
  { eapply normalize_log_Forall; [apply derive_boundary_rule | intros; exact I]. }
  intros h' Hh'.
  apply bindM_log_Forall; [|intros; constructor].
  apply call_log_Forall. simpl. eauto.
Qed.

Lemma optimization_derivation (field : Parametrizer X) :
  Forall carries_derivation (snd (optimization E field)).
Proof.
  unfold optimization.
  repeat first
    [ apply call_log_Forall; exact I
    | apply Forall_nil_2
    | apply bindM_log_Forall; [|intros ? _]
    | match goal with |- context [if ?c then _ else _] => destruct c end ].
Qed.

(** Wherever a run calls [propagateConstraints], it does so on the
    hierarchy the boundary loop has just returned. *)
Lemma propagate_receives_derivation (verts : list float) (N : Z) (fi : list Z)
    (M target_faces seed : Z) (ps pb ad ag mc : bool) :
  Forall carries_derivation
    (snd (run_quadriflow E verts N fi M target_faces seed ps pb ad ag mc)).
Proof.
  unfold run_quadriflow.
  destruct (_ || _); [constructor|]. destruct (_ <=? _); [constructor|].
  apply bindM_log_Forall; [|intros; constructor].
  unfold run_stages.
  apply bindM_log_Forall; [repeat constructor | intros _ _].
  apply bindM_log_Forall; [repeat constructor | intros _ _].
  apply bindM_log_Forall.
  { unfold LoadFromArrays. apply bindM_log_Forall; [constructor | intros ? _].
    apply call_log_Forall. exact I. }
  intros f1 _.
  apply bindM_log_Forall; [apply call_log_Forall; exact I | intros f2 _].
  apply bindM_log_Forall; [|intros; apply optimization_derivation].
  destruct (_ =? _); [constructor | apply boundary_constraints_derivation].
Qed.

Hypothesis HE : keeps_flags E.

Ltac flag_entry :=
  simpl; intros _; repeat split; try discriminate;
  try (intros _; f_equal); first [assumption | congruence | reflexivity].

Lemma boundary_constraints_flags (field : Parametrizer X) (ad : bool) :
  flag_adaptive_scale field = (if ad then 1 else 0) ->
  Forall (adaptive_flag_seen ad) (snd (boundary_constraints E field)).
Proof.
  intros Hf. unfold boundary_constraints.
  apply bindM_log_Forall; [apply call_log_Forall; flag_entry | intros h _].
  apply bindM_log_Forall; [constructor; [flag_entry | constructor] | intros _ _].
  apply bindM_log_Forall.
  { eapply normalize_log_Forall; [apply derive_boundary_rule | intros; exact I]. }
  intros h' _.
  apply bindM_log_Forall; [|intros; constructor].
  apply call_log_Forall. flag_entry.
Qed.

Lemma optimization_flags (field : Parametrizer X) (ad : bool) :
  flag_adaptive_scale field = (if ad then 1 else 0) ->
  Forall (adaptive_flag_seen ad) (snd (optimization E field)).
Proof.
  intros Hf. unfold optimization.
  apply bindM_log_Forall; [apply call_log_Forall; flag_entry | intros h _].
  apply bindM_log_Forall; [apply call_log_Forall; flag_entry | intros f1 Hf1].
  simpl in Hf1. apply (kf_orientation E HE) in Hf1. simpl in Hf1.
  assert (Hflag1 : flag_adaptive_scale f1 = (if ad then 1 else 0)) by congruence.
  apply bindM_log_Forall with (m := if flag_adaptive_scale f1 =? 1 then _ else _).
  { destruct (_ =? _); [apply call_log_Forall; flag_entry | constructor]. }
  intros f2 Hf2.
  assert (Hflag2 : flag_adaptive_scale f2 = (if ad then 1 else 0)).
  { destruct (flag_adaptive_scale f1 =? 1); simpl in Hf2.
    - apply (kf_slope E HE) in Hf2. congruence.
    - injection Hf2 as <-. exact Hflag1. }
  apply bindM_log_Forall; [apply call_log_Forall; flag_entry | intros hr _].
  apply bindM_log_Forall; [apply call_log_Forall; flag_entry | intros h' _].
  apply bindM_log_Forall; [apply call_log_Forall; flag_entry | intros f3 Hf3].
  simpl in Hf3. apply (kf_position E HE) in Hf3. simpl in Hf3.
  apply call_log_Forall. flag_entry.
Qed.

Lemma run_quadriflow_flags (verts : list float) (N : Z) (fi : list Z)
    (M target_faces seed : Z) (ps pb ad ag mc : bool) :
  Forall (adaptive_flag_seen ad)
    (snd (run_quadriflow E verts N fi M target_faces seed ps pb ad ag mc)).
Proof.
  unfold run_quadriflow.
  destruct (_ || _); [constructor|]. destruct (_ <=? _); [constructor|].
  apply bindM_log_Forall; [|intros; constructor].
  unfold run_stages.
  destruct (set_flags_flags E seed ps pb ad ag mc) as [_ Had].
  set (field0 := set_flags _ _ _ _ _ _ _) in *.
  apply bindM_log_Forall; [constructor; [simpl; congruence | constructor] | intros _ _].
  apply bindM_log_Forall; [constructor; [flag_entry | constructor] | intros _ _].
  pose proof (LoadFromArrays_logs E HE field0 verts N fi M) as [_ Hload].
  apply bindM_log_Forall.
  { unfold LoadFromArrays. apply bindM_log_Forall; [constructor | intros ? _].
    apply call_log_Forall. flag_entry. }
  intros f1 Hf1. destruct (Hload f1 Hf1) as [_ [_ Had1]].
  apply bindM_log_Forall; [apply call_log_Forall; flag_entry | intros f2 Hf2].
  simpl in Hf2. apply (kf_initialize E HE) in Hf2 as [_ Had2].
  assert (Hflag2 : flag_adaptive_scale f2 = (if ad then 1 else 0)) by congruence.
  pose proof (boundary_constraints_logs E f2) as [_ Hb].
  apply bindM_log_Forall.
  { destruct (_ =? _); [constructor | apply boundary_constraints_flags; exact Hflag2]. }
  intros f3 Hf3. apply optimization_flags.
  destruct (flag_preserve_boundary f2 =? 0).
  - simpl in Hf3. injection Hf3 as <-. exact Hflag2.
  - destruct (Hb f3 Hf3) as [_ ->]. exact Hflag2.
Qed.

End LogEntries.

(** C2, as the code has it.  In every run, whatever the caller passed
    as [adaptive_scale]: scale optimization receives the caller's
    value; position optimization receives 1; and the flag of the
    pipeline object is the caller's value at every stage up to scale
    optimization and 1 at every stage after it -- position
    optimization, position singularities and the index map. *)
Theorem adaptive_scale_override {X} (E : Engine X) (verts : list float) (N : Z)
    (fi : list Z) (M target_faces seed : Z) (ps pb ad ag mc : bool)
    (s : stage) (field : Parametrizer X) (args : list Z) :
  keeps_flags E ->
  Call s field args ∈ snd (run_quadriflow E verts N fi M target_faces seed ps pb ad ag mc) ->
  s <> SetFlags ->
  flag_adaptive_scale field = (if after_override s then 1 else if ad then 1 else 0) /\
  (s = StOptimizeScale -> args = [if ad then 1 else 0]) /\
  (s = StOptimizePositions -> args = [1]).
Proof.
  intros HE Hin Hs.
  pose proof (run_quadriflow_flags E HE verts N fi M target_faces seed ps pb ad ag mc) as H.
  rewrite Forall_forall in H. exact (H _ Hin Hs).
Qed.

(** C6.  With no vertices, no faces or a non-positive target the run
    throws at once, before anything is logged; a run whose stages all
    return but leave no output vertex or no output face throws the
    empty-mesh error; and that error is told apart from the two
    precondition errors by its message. *)
Theorem precondition_and_empty_result_errors {X} (E : Engine X) (verts : list float)
    (N : Z) (fi : list Z) (M target_faces seed : Z) (ps pb ad ag mc : bool) :
  let run := run_quadriflow E verts N fi M target_faces seed ps pb ad ag mc in
  let empty_result := runtime_error "QuadriFlow produced an empty mesh" in
  (N <= 0 \/ M <= 0 -> run = (Throw (runtime_error "Input mesh is empty"), [])) /\
  (0 < N -> 0 < M -> target_faces <= 0 ->
   run = (Throw (runtime_error "target_faces must be positive"), [])) /\
  (forall field,
     0 < N -> 0 < M -> 0 < target_faces ->
     fst (run_stages E verts N fi M target_faces seed ps pb ad ag mc) = Ret field ->
     O_compact field = [] \/ F_compact field = [] ->
     fst run = Throw empty_result) /\
  empty_result <> runtime_error "Input mesh is empty" /\
  empty_result <> runtime_error "target_faces must be positive".
Proof.
  intros run empty_result. subst run. unfold run_quadriflow.
  split; [|split; [|split; [|split]]].
  - intros [H|H].
    + destruct (Z.leb_spec N 0); [reflexivity | lia].
    + destruct (Z.leb_spec M 0); [|lia]. rewrite orb_true_r. reflexivity.
  - intros HN HM Ht.
    destruct (Z.leb_spec N 0); [lia|]. destruct (Z.leb_spec M 0); [lia|].
    destruct (Z.leb_spec target_faces 0); [reflexivity | lia].
  - intros field HN HM Ht Hfield Hempty.
    destruct (Z.leb_spec N 0); [lia|]. destruct (Z.leb_spec M 0); [lia|].
    destruct (Z.leb_spec target_faces 0); [lia|]. cbn [orb].
    rewrite (bindM_Ret _ _ field Hfield). cbn [fst lift].
    unfold extract_output. destruct Hempty as [-> | ->]; simpl.
    + reflexivity.
    + rewrite orb_true_r. reflexivity.
  - discriminate.
  - discriminate.
Qed.

(** ** The boundary weights in a run *)

Lemma run_quadriflow_log {X} (E : Engine X) (verts : list float) (N : Z) (fi : list Z)
    (M target_faces seed : Z) (ps pb ad ag mc : bool) :
  snd (run_quadriflow E verts N fi M target_faces seed ps pb ad ag mc) = [] \/
  snd (run_quadriflow E verts N fi M target_faces seed ps pb ad ag mc)
    = snd (run_stages E verts N fi M target_faces seed ps pb ad ag mc).
Proof.
  unfold run_quadriflow.
  destruct (_ || _); [left; reflexivity|]. destruct (_ <=? _); [left; reflexivity|].
  right. unfold bindM. destruct (fst (run_stages _ _ _ _ _ _ _ _ _ _ _ _));
    cbn [snd lift]; rewrite ?app_nil_r; reflexivity.
Qed.

(** Two hierarchies with the same mesh have the same boundary
    half-edges, with the same ends. *)
Lemma same_mesh_edges {X} (h h' : Hierarchy X) (i : Z) :
  same_mesh h h' ->
  cols3 (mF h') = cols3 (mF h) /\
  (is_boundary h' i <-> is_boundary h i) /\
  half_edge_ends h' i = half_edge_ends h i.
Proof.
  intros (HF & HE & HV). unfold is_boundary, half_edge_ends.
  rewrite HF, HE, HV. auto.
Qed.

(** At the call of [propagateConstraints]. *)
Lemma propagate_entry_weights {X} (E : Engine X) (verts : list float) (N : Z)
    (fi : list Z) (M target_faces seed : Z) (ps pb ad ag mc : bool)
    (field : Parametrizer X) (args : list Z) (i i0 i1 : Z) (p0 p1 : Vector3d) :
  Call StPropagateConstraints field args
    ∈ snd (run_quadriflow E verts N fi M target_faces seed ps pb ad ag mc) ->
  0 <= i < 3 * cols3 (mF (hierarchy field)) ->
  is_boundary (hierarchy field) i ->
  half_edge_ends (hierarchy field) i = Some (i0, i1, p0, p1) ->
  nonzero_length p0 p1 = true ->
  level0 (mCOw (hierarchy field)) i0 = Some 1%float /\
  level0 (mCQw (hierarchy field)) i0 = Some 1%float /\
  level0 (mCOw (hierarchy field)) i1 = Some 1%float /\
  level0 (mCQw (hierarchy field)) i1 = Some 1%float.
Proof.
  intros Hin Hi Hb Hends Hnz.
  pose proof (propagate_receives_derivation E verts N fi M target_faces seed ps pb ad ag mc)
    as HQ.
  rewrite Forall_forall in HQ. destruct (HQ _ Hin) as [h Hrun].
  pose proof (proj2 (derive_boundary_rule h) _ Hrun) as [Hmesh _ _ _].
  destruct (same_mesh_edges h (hierarchy field) i Hmesh) as (Hc & Hbi & He).
  apply (boundary_loop_weights h (hierarchy field) i i0 i1 p0 p1 Hrun).
  - rewrite <- Hc. exact Hi.
  - apply Hbi. exact Hb.
  - rewrite <- He. exact Hends.
  - exact Hnz.
Qed.

(** In a run with boundary preservation, orientation optimization is
    entered with the hierarchy [propagateConstraints] returned. *)
Lemma orientation_entry_after_propagate {X} (E : Engine X) (verts : list float) (N : Z)
    (fi : list Z) (M target_faces seed : Z) (ps ad ag mc : bool)
    (field : Parametrizer X) (args : list Z) :
  keeps_flags E ->
  Call StOptimizeOrientations field args
    ∈ snd (run_quadriflow E verts N fi M target_faces seed ps true ad ag mc) ->
  exists fp,
    Call StPropagateConstraints fp []
      ∈ snd (run_quadriflow E verts N fi M target_faces seed ps true ad ag mc) /\
    propagateConstraints E (hierarchy fp) = Ret (hierarchy field).
Proof.
  intros HE Hin.
  destruct (run_quadriflow_log E verts N fi M target_faces seed ps true ad ag mc)
    as [Hlog | Hlog]; rewrite Hlog in *; [apply elem_of_nil in Hin; destruct Hin|].
  destruct (run_stages_logs E verts N fi M target_faces seed ps true ad ag mc HE) as [Hpre _].
  destruct (run_stages_continues E verts N fi M target_faces seed ps true ad ag mc)
    as (_ & _ & Hchain & _).
  rewrite calls_stages in Hpre.
  apply calls_elem, list_elem_of_lookup in Hin as [k Hk].
  assert (Hname : stage_order true ad !! k = Some StOptimizeOrientations).
  { eapply prefix_lookup_Some; [|exact Hpre]. rewrite list_lookup_fmap, Hk. reflexivity. }
  assert (k = 7%nat) as ->.
  { apply (NoDup_lookup (stage_order true ad) k 7 StOptimizeOrientations);
      [|exact Hname | destruct ad; reflexivity].
    destruct ad; apply (bool_decide_unpack _); vm_compute; exact I. }
  destruct (lookup_lt_is_Some_2 (calls (snd (run_stages E verts N fi M target_faces seed
                                               ps true ad ag mc))) 6) as [[[s6 fp] ap] H6].
  { apply lookup_lt_Some in Hk. lia. }
  assert (Hname6 : stage_order true ad !! 6%nat = Some s6).
  { eapply prefix_lookup_Some; [|exact Hpre]. rewrite list_lookup_fmap, H6. reflexivity. }
  assert (s6 = StPropagateConstraints) as -> by (destruct ad; simpl in Hname6; congruence).
  pose proof (chain_lookup E _ _ 6 _ _ Hchain H6 Hk) as Hstep.
  unfold step_of in Hstep. cbn [fst snd step] in Hstep.
  destruct ap as [|? ?]; [|discriminate Hstep].
  apply bindO_Ret in Hstep as [h [Hh Hf]]. injection Hf as <-.
  exists fp. split; [|exact Hh].
  apply calls_elem. eapply list_elem_of_lookup_2. exact H6.
Qed.

(** C1, as the code has it.  In a run, at the call of
    [propagateConstraints] -- the moment the boundary loop has
    returned -- both endpoints of every half-edge that has no opposite
    and whose edge vector passes the test [squaredNorm() > 0] carry
    position weight 1.0 and direction weight 1.0 at level 0.  With
    boundary preservation requested, the same holds at the call of
    [optimize_orientations], the first optimization stage, provided the
    solver keeps its side: its stages leave the flags alone and
    [propagateConstraints] leaves the mesh and the level-0 weights as
    they are. *)
Theorem boundary_weights_after_derivation {X} (E : Engine X) (verts : list float) (N : Z)
    (fi : list Z) (M target_faces seed : Z) (ps pb ad ag mc : bool)
    (s : stage) (field : Parametrizer X) (args : list Z)
    (i i0 i1 : Z) (p0 p1 : Vector3d) :
  Call s field args ∈ snd (run_quadriflow E verts N fi M target_faces seed ps pb ad ag mc) ->
  s = StPropagateConstraints \/
  (s = StOptimizeOrientations /\ pb = true /\ keeps_flags E /\ propagate_keeps_level0 E) ->
  0 <= i < 3 * cols3 (mF (hierarchy field)) ->
  is_boundary (hierarchy field) i ->
  half_edge_ends (hierarchy field) i = Some (i0, i1, p0, p1) ->
  nonzero_length p0 p1 = true ->
  level0 (mCOw (hierarchy field)) i0 = Some 1%float /\
  level0 (mCQw (hierarchy field)) i0 = Some 1%float /\
  level0 (mCOw (hierarchy field)) i1 = Some 1%float /\
  level0 (mCQw (hierarchy field)) i1 = Some 1%float.
Proof.
  intros Hin [-> | (-> & -> & HE & HP)] Hi Hb Hends Hnz.
  - exact (propagate_entry_weights E verts N fi M target_faces seed ps pb ad ag mc
             field args i i0 i1 p0 p1 Hin Hi Hb Hends Hnz).
  - destruct (orientation_entry_after_propagate E verts N fi M target_faces seed
                ps ad ag mc field args HE Hin) as (fp & Hfp & Hprop).
    destruct (HP _ _ Hprop) as [Hmesh Hw].
    destruct (same_mesh_edges (hierarchy fp) (hierarchy field) i Hmesh) as (Hc & Hbi & He).
    destruct (Hw i0) as [-> ->]. destruct (Hw i1) as [-> ->].
    apply (propagate_entry_weights E verts N fi M target_faces seed ps true ad ag mc
             fp [] i i0 i1 p0 p1 Hfp).
    + rewrite <- Hc. exact Hi.
    + apply Hbi. exact Hb.
    + rewrite <- He. exact Hends.
    + exact Hnz.
Qed.

(** ** The output arrays *)

Lemma write_int_Ret {A} (a : list A) (i : Z) (x : A) (a' : list A) :
  write_int a i x = Ret a' ->
  0 <= i < Z.of_nat (length a) /\ a' = <[Z.to_nat i := x]> a.
Proof.
  unfold write_int. destruct (int_range i); [|discriminate]. apply write_Ret.
Qed.

Lemma resize_int_Ret {A} (n : Z) (x : A) (l : list A) :
  resize_int n x = Ret l -> 0 <= n <= INT_MAX /\ l = replicate (Z.to_nat n) x.
Proof.
  unfold resize_int. destruct (int_range n) eqn:Hr; [|discriminate].
  apply int_range_spec in Hr. destruct (Z.ltb_spec n 0); [discriminate|].
  intros H'. injection H' as <-. split; [lia | reflexivity].
Qed.

Lemma vertices_written_step {X} (field : Parametrizer X) (len j : Z) (out out' : list float) :
  vertices_written field len j out -> extract_vertex field j out = Ret out' ->
  vertices_written field len (j + 1) out'.
Proof.
  intros [Hlen Hprev] H. unfold extract_vertex in H.
  apply bindO_Ret in H as [oj [Hoj H]]. apply read_Ret in Hoj as [Hj Hoj].
  apply bindO_Ret in H as [out1 [H1 H]]. apply write_int_Ret in H1 as [Hi1 ->].
  apply bindO_Ret in H as [out2 [H2 H]]. apply write_int_Ret in H2 as [Hi2 ->].
  apply write_int_Ret in H as [Hi3 ->].
  rewrite ?length_insert in *.
  split; [rewrite !length_insert; exact Hlen|].
  intros i o Hi Ho. destruct (decide (i = j)) as [->|Hne].
  - assert (o = oj) as -> by congruence. cbv zeta.
    rewrite Z.add_0_r.
    repeat split.
    + rewrite !list_lookup_insert_ne by lia. apply list_lookup_insert_eq. lia.
    + rewrite list_lookup_insert_ne by lia. apply list_lookup_insert_eq.
      rewrite length_insert. lia.
    + apply list_lookup_insert_eq. rewrite !length_insert. lia.
  - destruct (Hprev i o ltac:(lia) Ho) as (Hx & Hy & Hz). cbv zeta.
    rewrite !list_lookup_insert_ne by lia. auto.
Qed.

Lemma faces_written_step {X} (field : Parametrizer X) (len j : Z) (out out' : list Z) :
  faces_written field len j out -> extract_face field j out = Ret out' ->
  faces_written field len (j + 1) out'.
Proof.
  intros [Hlen Hprev] H. unfold extract_face in H.
  apply bindO_Ret in H as [f0 [Hf0 H]]. apply read_Ret in Hf0 as [Hj Hf0].
  apply bindO_Ret in H as [out1 [H1 H]]. apply write_int_Ret in H1 as [Hi1 ->].
  apply bindO_Ret in H as [f1 [Hf1 H]]. apply read_Ret in Hf1 as [_ Hf1].
  apply bindO_Ret in H as [out2 [H2 H]]. apply write_int_Ret in H2 as [Hi2 ->].
  apply bindO_Ret in H as [f2 [Hf2 H]]. apply read_Ret in Hf2 as [_ Hf2].
  apply bindO_Ret in H as [out3 [H3 H]]. apply write_int_Ret in H3 as [Hi3 ->].
  apply bindO_Ret in H as [f3 [Hf3 H]]. apply read_Ret in Hf3 as [_ Hf3].
  apply write_int_Ret in H as [Hi4 ->].
  assert (f1 = f0) as -> by congruence. assert (f2 = f0) as -> by congruence.
  assert (f3 = f0) as -> by congruence.
  rewrite ?length_insert in *.
  split; [rewrite !length_insert; exact Hlen|].
  intros i q Hi Hq. destruct (decide (i = j)) as [->|Hne].
  - assert (q = f0) as -> by congruence. rewrite Z.add_0_r.
    repeat split.
    + rewrite !list_lookup_insert_ne by lia. apply list_lookup_insert_eq. lia.
    + rewrite !list_lookup_insert_ne by lia. apply list_lookup_insert_eq.
      rewrite length_insert. lia.
    + rewrite list_lookup_insert_ne by lia. apply list_lookup_insert_eq.
      rewrite !length_insert. lia.
    + apply list_lookup_insert_eq. rewrite !length_insert. lia.
  - destruct (Hprev i q ltac:(lia) Hq) as (Ha & Hb & Hc & Hd).
    rewrite !list_lookup_insert_ne by lia. auto.
Qed.

(** What [extract_output] returns, when the sizes of the compact
    sequences are representable as [int]. *)
Lemma extract_output_Ret {X} (field : Parametrizer X) (res : QuadriFlowResult) :
  extract_output field = Ret res ->
  Z.of_nat (length (O_compact field)) <= INT_MAX ->
  Z.of_nat (length (F_compact field)) <= INT_MAX ->
  num_vertices res = Z.of_nat (length (O_compact field)) /\
  num_faces res = Z.of_nat (length (F_compact field)) /\
  vertices_written field (3 * num_vertices res) (num_vertices res) (vertices res) /\
  faces_written field (4 * num_faces res) (num_faces res) (faces res).
Proof.
  unfold extract_output, INT_MAX. intros H HO HF.
  rewrite (to_int_small (Z.of_nat (length (O_compact field)))) in H by lia.
  rewrite (to_int_small (Z.of_nat (length (F_compact field)))) in H by lia.
  set (nv := Z.of_nat (length (O_compact field))) in *.
  set (nf := Z.of_nat (length (F_compact field))) in *.
  destruct ((nv =? 0) || (nf =? 0)); [discriminate|].
  apply bindO_Ret in H as [vs0 [Hvs0 H]]. apply bindO_Ret in H as [vs [Hvs H]].
  apply bindO_Ret in H as [fs0 [Hfs0 H]]. apply bindO_Ret in H as [fs [Hfs H]].
  injection H as <-. cbn [num_vertices num_faces vertices faces].
  apply resize_int_Ret in Hvs0 as [Hnv ->], Hfs0 as [Hnf ->].
  split; [reflexivity|]. split; [reflexivity|]. split.
  - replace nv with (0 + Z.of_nat (Z.to_nat nv)) at 2 by lia.
    apply (forO_invariant (vertices_written field (3 * nv)) (extract_vertex field)
             _ 0 (replicate (Z.to_nat (nv * 3)) 0%float) vs).
    + split; [rewrite length_replicate; lia | intros; lia].
    + intros j t t' _. apply vertices_written_step.
    + exact Hvs.
  - replace nf with (0 + Z.of_nat (Z.to_nat nf)) at 2 by lia.
    apply (forO_invariant (faces_written field (4 * nf)) (extract_face field)
             _ 0 (replicate (Z.to_nat (nf * 4)) 0) fs).
    + split; [rewrite length_replicate; lia | intros; lia].
    + intros j t t' _. apply faces_written_step.
    + exact Hfs.
Qed.

(** C7.  When a run returns (the compact output sizes being
    representable as [int]): the counts are the lengths of the compact
    sequences; output vertex [i] is compact vertex [i] times
    [normalize_scale] plus [normalize_offset], its three coordinates in
    slots [3i], [3i+1], [3i+2]; output face [i] is the four indices of
    compact face [i], in their order, in slots [4i .. 4i+3]. *)
Theorem output_arrays {X} (E : Engine X) (verts : list float) (N : Z) (fi : list Z)
    (M target_faces seed : Z) (ps pb ad ag mc : bool)
    (field : Parametrizer X) (res : QuadriFlowResult) :
  fst (run_stages E verts N fi M target_faces seed ps pb ad ag mc) = Ret field ->
  fst (run_quadriflow E verts N fi M target_faces seed ps pb ad ag mc) = Ret res ->
  Z.of_nat (length (O_compact field)) <= INT_MAX ->
  Z.of_nat (length (F_compact field)) <= INT_MAX ->
  num_vertices res = Z.of_nat (length (O_compact field)) /\
  num_faces res = Z.of_nat (length (F_compact field)) /\
  length (vertices res) = (3 * length (O_compact field))%nat /\
  length (faces res) = (4 * length (F_compact field))%nat /\
  (forall (i : nat) (o : Vector3d),
     O_compact field !! i = Some o ->
     vertices res !! (3 * i)%nat
       = Some (vx o * normalize_scale field + vx (normalize_offset field))%float /\
     vertices res !! (3 * i + 1)%nat
       = Some (vy o * normalize_scale field + vy (normalize_offset field))%float /\
     vertices res !! (3 * i + 2)%nat
       = Some (vz o * normalize_scale field + vz (normalize_offset field))%float) /\
  (forall (i : nat) (q : Vector4i),
     F_compact field !! i = Some q ->
     faces res !! (4 * i)%nat = Some (q0 q) /\
     faces res !! (4 * i + 1)%nat = Some (q1 q) /\
     faces res !! (4 * i + 2)%nat = Some (q2 q) /\
     faces res !! (4 * i + 3)%nat = Some (q3 q)).
Proof.
  intros Hfield Hres HO HF.
  assert (Hex : extract_output field = Ret res).
  { unfold run_quadriflow in Hres.
    destruct (_ || _); [discriminate|]. destruct (_ <=? _); [discriminate|].
    rewrite (bindM_Ret _ _ field Hfield) in Hres. exact Hres. }
  destruct (extract_output_Ret field res Hex HO HF) as (Hnv & Hnf & [Hvl Hv] & [Hfl Hf]).
  rewrite Hnv in Hvl, Hv. rewrite Hnf in Hfl, Hf.
  split; [exact Hnv|]. split; [exact Hnf|]. split; [lia|]. split; [lia|]. split.
  - intros i o Ho. pose proof (lookup_lt_Some _ _ _ Ho) as Hi.
    destruct (Hv (Z.of_nat i) o ltac:(lia)) as (Hx & Hy & Hz).
    { rewrite Nat2Z.id. exact Ho. }
    replace (Z.to_nat (Z.of_nat i * 3)) with (3 * i)%nat in Hx by lia.
    replace (Z.to_nat (Z.of_nat i * 3 + 1)) with (3 * i + 1)%nat in Hy by lia.
    replace (Z.to_nat (Z.of_nat i * 3 + 2)) with (3 * i + 2)%nat in Hz by lia.
    auto.
  - intros i q Hq. pose proof (lookup_lt_Some _ _ _ Hq) as Hi.
    destruct (Hf (Z.of_nat i) q ltac:(lia)) as (Ha & Hb & Hc & Hd).
    { rewrite Nat2Z.id. exact Hq. }
    replace (Z.to_nat (Z.of_nat i * 4)) with (4 * i)%nat in Ha by lia.
    replace (Z.to_nat (Z.of_nat i * 4 + 1)) with (4 * i + 1)%nat in Hb by lia.
    replace (Z.to_nat (Z.of_nat i * 4 + 2)) with (4 * i + 2)%nat in Hc by lia.
    replace (Z.to_nat (Z.of_nat i * 4 + 3)) with (4 * i + 3)%nat in Hd by lia.
    auto.
Qed.

(* ================================================================== *)
(** * Part III: the theorems at concrete inputs *)
(* ================================================================== *)

Lemma demo_engine_keeps_flags (quads : list Vector4i) : keeps_flags (demo_engine_with quads).
Proof.
  split; simpl.
  - intros p p' H. injection H as <-. auto.
  - intros t p p' H. unfold demo_Initialize in H. injection H as <-. auto.
  - intros p p' H. injection H as <-. auto.
  - intros p p' H. injection H as <-. auto.
  - intros p p' H. injection H as <-. auto.
Qed.

Lemma square_arrays_well_formed (fi : list Z) :
  length fi = 6%nat -> (forall x, x ∈ fi -> INT_MIN <= x <= INT_MAX) ->
  well_formed_arrays square_verts 4 fi 2.
Proof.
  intros Hlen Hint. split; try exact Hint; unfold INT_MAX; simpl; try rewrite Hlen; lia.
Qed.

Lemma square_faces_range (x : Z) : x ∈ square_faces -> 0 <= x < 4.
Proof.
  unfold square_faces. rewrite !elem_of_cons, elem_of_nil. lia.
Qed.

Lemma compact_indices_witness :
  compact_mesh square_verts 4 square_faces 2 = Ret (square_V, square_faces) /\
  length square_faces = Z.to_nat (3 * 2) /\
  (forall c, 0 <= c < Z.of_nat (length square_V) ->
     exists a, square_faces !! a = Some c).
Proof.
  assert (Hint : forall x, x ∈ square_faces -> INT_MIN <= x <= INT_MAX).
  { intros x Hx. apply square_faces_range in Hx. unfold INT_MIN, INT_MAX. lia. }
  assert (Hrun : compact_mesh square_verts 4 square_faces 2 = Ret (square_V, square_faces)).
  { vm_compute. reflexivity. }
  destruct (compact_indices_first_reference_order
              square_verts 4 square_faces 2 square_V square_faces Hint Hrun)
    as (Hlen & _ & _ & Hdense & _).
  split; [exact Hrun|]. split; [exact Hlen | exact Hdense].
Defined.

Lemma compact_mesh_shape_witness :
  valid_input square_verts 4 square_faces 2 /\
  exists v f,
    compact_mesh square_verts 4 square_faces 2 = Ret (v, f) /\
    Z.of_nat (length v) <= 4 /\ Z.of_nat (length f) = 3 * 2.
Proof.
  assert (Hvalid : valid_input square_verts 4 square_faces 2).
  { split; [|exact square_faces_range].
    apply square_arrays_well_formed; [reflexivity|].
    intros x Hx. apply square_faces_range in Hx. unfold INT_MIN, INT_MAX. lia. }
  split; [exact Hvalid|].
  destruct (compact_mesh_shape square_verts 4 square_faces 2 Hvalid)
    as (v & f & Hrun & Hv & Hf & _).
  exists v, f. auto.
Defined.

Lemma bad_face_index_witness :
  fst (run_quadriflow demo_engine square_verts 4 [0; 1; 2; 2; 1; -1] 2 10 0
         false false false false false) = Throw out_of_range.
Proof.
  refine (proj1 (proj2 (bad_face_index_throws demo_engine square_verts 4
                          [0; 1; 2; 2; 1; -1] 2 10 0 false false false false false (-1)
                          _ _ _ _))).
  - apply square_arrays_well_formed; [reflexivity|].
    intros x. rewrite !elem_of_cons, elem_of_nil. unfold INT_MIN, INT_MAX. lia.
  - lia.
  - rewrite !elem_of_cons. auto 10.
  - lia.
Defined.

Lemma zero_length_edge_witness :
  boundary_edge 0 collapsed = (Ret collapsed, []).
Proof.
  refine (proj1 (zero_length_edge_adds_nothing collapsed 0 0 1 origin origin _ _ _ _ _)).
  - lia.
  - unfold UINT32_MAX. lia.
  - reflexivity.
  - reflexivity.
  - left. reflexivity.
Defined.

(** Vertex 0 of [triangle] ends half-edge 2 and starts half-edge 0;
    half-edge 2, processed last, decides its constraints. *)
Lemma last_boundary_edge_witness :
  touches triangle 0 0 /\ touches triangle 2 0 /\
  level0 (mCQ triangle_constrained) 0
    = Some (normalize (Vector3d_sub origin (mkVector3d 0 1 0))).
Proof.
  assert (Hrun : fst (derive_boundary triangle) = Ret triangle_constrained).
  { vm_compute. reflexivity. }
  assert (H0 : constrains triangle 0 0 1 origin (mkVector3d 1 0 0)).
  { split; [reflexivity|]. split; reflexivity. }
  assert (H2 : constrains triangle 2 2 0 (mkVector3d 0 1 0) origin).
  { split; [reflexivity|]. split; reflexivity. }
  destruct (last_boundary_edge_wins triangle triangle_constrained 2 0 2 0
              (mkVector3d 0 1 0) origin Hrun)
    as (_ & _ & HCQ & _).
  - apply Z_between. reflexivity.
  - exact H2.
  - right. reflexivity.
  - intros j Hj. change (3 * cols3 (mF triangle)) with 3 in Hj. lia.
  - split; [exists 0, 1, origin, (mkVector3d 1 0 0); auto|].
    split; [exists 2, 0, (mkVector3d 0 1 0), origin; auto|]. exact HCQ.
Defined.

(** The stand-in solver run on the square, stage by stage: each
    stage is evaluated on the value the one before it returned. *)

Lemma bindM_returns {X A B} (m : M X A) (f : A -> M X B) (a : A) (b : B) :
  fst m = Ret a -> fst (f a) = Ret b -> fst (bindM m f) = Ret b.
Proof. intros Hm Hf. apply bindM_fst_Ret. eauto. Qed.

Ltac returns_leaf :=
  lazymatch goal with
  | |- ?lhs = Ret ?e =>
      let v := eval vm_compute in lhs in
      lazymatch v with
      | Ret ?a => unify e a; vm_compute; reflexivity
      end
  end.

Ltac returns :=
  cbv beta zeta;
  lazymatch goal with
  | |- fst (bindM _ _) = Ret _ => eapply bindM_returns; [returns | returns]
  | |- fst (if ?c then _ else _) = Ret _ =>
      let cv := eval vm_compute in c in
      change c with cv; cbv iota; returns
  | |- fst (run_stages _ _ _ _ _ _ _ _ _ _ _ _) = Ret _ => unfold run_stages; returns
  | |- fst (LoadFromArrays _ _ _ _ _ _) = Ret _ => unfold LoadFromArrays; returns
  | |- fst (boundary_constraints _ _) = Ret _ => unfold boundary_constraints; returns
  | |- fst (optimization _ _) = Ret _ => unfold optimization; returns
  | |- _ => returns_leaf
  end.

Lemma square_run_value :
  exists f,
    fst (run_stages demo_engine square_verts 4 square_faces 2 10 0
           false true true false false) = Ret f /\
    O_compact f = square_V /\ F_compact f = [mkVector4i 0 1 3 2] /\
    normalize_scale f = 2%float /\ normalize_offset f = mkVector3d 1 1 1.
Proof.
  eexists. split; [returns|]. repeat split; reflexivity.
Qed.

Lemma square_run_stages :
  fst (run_stages demo_engine square_verts 4 square_faces 2 10 0
         false true true false false) = Ret square_field.
Proof.
  destruct square_run_value as (f & Hf & _).
  unfold square_field. rewrite Hf. reflexivity.
Qed.

Lemma square_field_value :
  O_compact square_field = square_V /\ F_compact square_field = [mkVector4i 0 1 3 2] /\
  normalize_scale square_field = 2%float /\
  normalize_offset square_field = mkVector3d 1 1 1.
Proof.
  destruct square_run_value as (f & Hf & H).
  unfold square_field. rewrite Hf. exact H.
Qed.

Lemma square_run_result :
  fst (run_quadriflow demo_engine square_verts 4 square_faces 2 10 0
         false true true false false)
  = Ret (mkQuadriFlowResult [1; 1; 1;  3; 1; 1;  1; 3; 1;  3; 3; 1]%float
           [0; 1; 3; 2] 4 1).
Proof.
  destruct square_run_value as (f & Hf & HO & HF & Hs & Ho).
  unfold run_quadriflow.
  change ((4 <=? 0) || (2 <=? 0)) with false. change (10 <=? 0) with false. cbv iota.
  rewrite (bindM_Ret _ _ f Hf). cbn [fst lift].
  unfold extract_output, extract_vertex, extract_face.
  rewrite HO, HF, Hs, Ho. vm_compute. reflexivity.
Qed.

Lemma square_result_value :
  square_result
  = mkQuadriFlowResult [1; 1; 1;  3; 1; 1;  1; 3; 1;  3; 3; 1]%float [0; 1; 3; 2] 4 1.
Proof. unfold square_result. rewrite square_run_result. reflexivity. Qed.

Lemma square_run :
  fst (run_quadriflow demo_engine square_verts 4 square_faces 2 10 0
         false true true false false) = Ret square_result.
Proof. rewrite square_result_value. exact square_run_result. Qed.


(** A run with [adaptive_scale = false]: the object on which the
    position singularities are computed has its flag at 1. *)
Lemma position_singularities_entry :
  exists field,
    Call StPositionSingularities field []
      ∈ snd (run_quadriflow demo_engine square_verts 4 square_faces 2 10 0
               false false false false false) /\
    flag_adaptive_scale field = 1.
Proof.
  eexists. split.
  - set (log := snd _). vm_compute in (value of log). subst log.
    do 8 apply list_elem_of_further. apply list_elem_of_here.
  - reflexivity.
Qed.

Lemma adaptive_scale_override_witness :
  exists field,
    Call StPositionSingularities field []
      ∈ snd (run_quadriflow demo_engine square_verts 4 square_faces 2 10 0
               false false false false false) /\
    flag_adaptive_scale field = (if after_override StPositionSingularities then 1 else 0).
Proof.
  destruct position_singularities_entry as [field [Hin _]].
  exists field. split; [exact Hin|].
  refine (proj1 (adaptive_scale_override demo_engine square_verts 4 square_faces 2 10 0
                   false false false false false StPositionSingularities field []
                   (demo_engine_keeps_flags _) Hin _)).
  discriminate.
Defined.

Lemma adaptive_override_counterexample :
  ~ (forall (E : Engine unit) (verts : list float) (N : Z) (fi : list Z)
            (M target_faces seed : Z) (ps pb ad ag mc : bool)
            (s : stage) (field : Parametrizer unit) (args : list Z),
       keeps_flags E ->
       Call s field args
         ∈ snd (run_quadriflow E verts N fi M target_faces seed ps pb ad ag mc) ->
       s <> SetFlags -> s <> StOptimizePositions ->
       flag_adaptive_scale field = (if ad then 1 else 0)).
Proof.
  intros H.
  destruct position_singularities_entry as [field [Hin Hflag]].
  specialize (H demo_engine square_verts 4 square_faces 2 10 0
                false false false false false StPositionSingularities field []
                (demo_engine_keeps_flags _) Hin ltac:(discriminate) ltac:(discriminate)).
  simpl in H. congruence.
Qed.

(** Go past a step of a logged computation that returns. *)
Ltac log_past tac :=
  apply bindM_log_elem; right; eexists; split; [tac | cbv beta zeta].

Lemma demo_engine_propagates (quads : list Vector4i) :
  propagate_keeps_level0 (demo_engine_with quads).
Proof. intros h h' H. injection H as <-. split; [repeat split | auto]. Qed.

Lemma forgetful_engine_keeps_flags : keeps_flags forgetful_engine.
Proof.
  split; simpl.
  - intros p p' H. injection H as <-. auto.
  - intros t p p' H. unfold demo_Initialize in H. injection H as <-. auto.
  - intros p p' H. injection H as <-. auto.
  - intros p p' H. injection H as <-. auto.
  - intros p p' H. injection H as <-. auto.
Qed.

(** Go to the first entry of the optimization block of a run of
    stand-in solver [E] that gets there. *)
Ltac orientation_entry :=
  unfold run_quadriflow;
  repeat lazymatch goal with
  | |- context [if ?c then _ else _] =>
      let cv := eval vm_compute in c in change c with cv; cbv iota
  end;
  apply bindM_log_elem; left; unfold run_stages; cbv zeta;
  log_past ltac:(reflexivity); log_past ltac:(reflexivity);
  log_past returns; log_past returns; log_past returns;
  unfold optimization; apply bindM_log_elem; left; apply list_elem_of_here.

(** One triangle, boundary preservation requested: the object
    orientation optimization is entered with. *)
Lemma triangle_orientation_entry :
  exists field,
    Call StOptimizeOrientations field []
      ∈ snd (run_quadriflow demo_engine [0; 0; 0;  1; 0; 0;  0; 1; 0]%float 3 [0; 1; 2] 1
               10 0 false true false false false) /\
    mF (hierarchy field) = [0; 1; 2] /\ mE2E (hierarchy field) = [-1; -1; -1] /\
    mV (hierarchy field) = [[origin; mkVector3d 1 0 0; mkVector3d 0 1 0]].
Proof.
  eexists. split; [orientation_entry|]. repeat split; reflexivity.
Qed.

(** The same run with the propagation that clears the constraints. *)
Lemma forgetful_orientation_entry :
  exists field,
    Call StOptimizeOrientations field []
      ∈ snd (run_quadriflow forgetful_engine [0; 0; 0;  1; 0; 0;  0; 1; 0]%float 3
               [0; 1; 2] 1 10 0 false true false false false) /\
    mF (hierarchy field) = [0; 1; 2] /\ mE2E (hierarchy field) = [-1; -1; -1] /\
    mV (hierarchy field) = [[origin; mkVector3d 1 0 0; mkVector3d 0 1 0]] /\
    mCOw (hierarchy field) = [[0; 0; 0]%float].
Proof.
  eexists. split; [orientation_entry|]. repeat split; reflexivity.
Qed.

(** Three input vertices on one point: the object
    [propagateConstraints] is called on. *)
Lemma collapsed_propagate_entry :
  exists field,
    Call StPropagateConstraints field []
      ∈ snd (run_quadriflow demo_engine [0; 0; 0;  0; 0; 0;  0; 0; 0]%float 3 [0; 1; 2] 1
               10 0 false true false false false) /\
    mF (hierarchy field) = [0; 1; 2] /\ mE2E (hierarchy field) = [-1; -1; -1] /\
    mV (hierarchy field) = [[origin; origin; origin]] /\
    mCOw (hierarchy field) = [[0; 0; 0]%float].
Proof.
  eexists. split.
  - unfold run_quadriflow.
    change ((3 <=? 0) || (1 <=? 0)) with false. change (10 <=? 0) with false. cbv iota.
    apply bindM_log_elem. left. unfold run_stages. cbv zeta.
    log_past ltac:(reflexivity). log_past ltac:(reflexivity).
    log_past returns. log_past returns.
    apply bindM_log_elem. left.
    lazymatch goal with
    | |- context [if ?c then _ else _] =>
        let cv := eval vm_compute in c in change c with cv; cbv iota
    end.
    unfold boundary_constraints.
    log_past returns. log_past ltac:(reflexivity). log_past returns.
    apply bindM_log_elem. left. apply list_elem_of_here.
  - repeat split; reflexivity.
Qed.

Lemma boundary_weights_witness :
  exists field,
    Call StOptimizeOrientations field []
      ∈ snd (run_quadriflow demo_engine [0; 0; 0;  1; 0; 0;  0; 1; 0]%float 3 [0; 1; 2] 1
               10 0 false true false false false) /\
    level0 (mCOw (hierarchy field)) 0 = Some 1%float /\
    level0 (mCQw (hierarchy field)) 1 = Some 1%float.
Proof.
  destruct triangle_orientation_entry as (field & Hin & HF & HE & HV).
  exists field. split; [exact Hin|].
  destruct (boundary_weights_after_derivation demo_engine
              [0; 0; 0;  1; 0; 0;  0; 1; 0]%float 3 [0; 1; 2] 1 10 0
              false true false false false StOptimizeOrientations field []
              0 0 1 origin (mkVector3d 1 0 0) Hin)
    as (H0 & _ & _ & H1).
  - right. split; [reflexivity|]. split; [reflexivity|].
    split; [apply demo_engine_keeps_flags | apply demo_engine_propagates].
  - rewrite HF. apply Z_between. reflexivity.
  - unfold is_boundary. rewrite HE. reflexivity.
  - unfold half_edge_ends. rewrite HF, HV. reflexivity.
  - reflexivity.
  - split; [exact H0 | exact H1].
Defined.

(** Without the test of line 144 the statement fails on a triangle
    collapsed to a point; and at the call of [optimize_orientations] it
    fails for a solver whose propagation rewrites the level-0
    weights. *)
Lemma boundary_weights_counterexample :
  ~ (forall (E : Engine unit) (verts : list float) (N : Z) (fi : list Z)
            (M target_faces seed : Z) (ps pb ad ag mc : bool)
            (s : stage) (field : Parametrizer unit) (args : list Z)
            (i i0 i1 : Z) (p0 p1 : Vector3d),
       Call s field args
         ∈ snd (run_quadriflow E verts N fi M target_faces seed ps pb ad ag mc) ->
       s = StPropagateConstraints \/
       (s = StOptimizeOrientations /\ pb = true /\ keeps_flags E /\
        propagate_keeps_level0 E) ->
       0 <= i < 3 * cols3 (mF (hierarchy field)) ->
       is_boundary (hierarchy field) i ->
       half_edge_ends (hierarchy field) i = Some (i0, i1, p0, p1) ->
       level0 (mCOw (hierarchy field)) i0 = Some 1%float /\
       level0 (mCQw (hierarchy field)) i0 = Some 1%float /\
       level0 (mCOw (hierarchy field)) i1 = Some 1%float /\
       level0 (mCQw (hierarchy field)) i1 = Some 1%float) /\
  ~ (forall (E : Engine unit) (verts : list float) (N : Z) (fi : list Z)
            (M target_faces seed : Z) (ps ad ag mc : bool)
            (field : Parametrizer unit) (args : list Z)
            (i i0 i1 : Z) (p0 p1 : Vector3d),
       keeps_flags E ->
       Call StOptimizeOrientations field args
         ∈ snd (run_quadriflow E verts N fi M target_faces seed ps true ad ag mc) ->
       0 <= i < 3 * cols3 (mF (hierarchy field)) ->
       is_boundary (hierarchy field) i ->
       half_edge_ends (hierarchy field) i = Some (i0, i1, p0, p1) ->
       nonzero_length p0 p1 = true ->
       level0 (mCOw (hierarchy field)) i0 = Some 1%float /\
       level0 (mCQw (hierarchy field)) i0 = Some 1%float /\
       level0 (mCOw (hierarchy field)) i1 = Some 1%float /\
       level0 (mCQw (hierarchy field)) i1 = Some 1%float).
Proof.
  assert (Hzero : forall m : list (list float),
            m = [[0; 0; 0]%float] -> level0 m 0 <> Some 1%float).
  { intros m -> H.
    pose proof (f_equal (fun o : option float =>
                           match o with Some x => (0 <? x)%float | None => false end)
                  H) as H'.
    vm_compute in H'. discriminate H'. }
  split.
  - intros H. destruct collapsed_propagate_entry as (field & Hin & HF & HE & HV & HW).
    destruct (H demo_engine _ _ _ _ _ _ _ _ _ _ _ StPropagateConstraints field []
                0 0 1 origin origin Hin) as [H0 _].
    + left. reflexivity.
    + rewrite HF. apply Z_between. reflexivity.
    + unfold is_boundary. rewrite HE. reflexivity.
    + unfold half_edge_ends. rewrite HF, HV. reflexivity.
    + exact (Hzero _ HW H0).
  - intros H. destruct forgetful_orientation_entry as (field & Hin & HF & HE & HV & HW).
    destruct (H forgetful_engine _ _ _ _ _ _ _ _ _ _ field []
                0 0 1 origin (mkVector3d 1 0 0) forgetful_engine_keeps_flags Hin)
      as [H0 _].
    + rewrite HF. apply Z_between. reflexivity.
    + unfold is_boundary. rewrite HE. reflexivity.
    + unfold half_edge_ends. rewrite HF, HV. reflexivity.
    + reflexivity.
    + exact (Hzero _ HW H0).
Qed.

Lemma precondition_errors_witness :
  run_quadriflow demo_engine [] 0 [] 0 10 0 false false false false false
    = (Throw (runtime_error "Input mesh is empty"), []) /\
  run_quadriflow demo_engine square_verts 4 square_faces 2 0 0 false false false false false
    = (Throw (runtime_error "target_faces must be positive"), []) /\
  fst (run_quadriflow barren_engine square_verts 4 square_faces 2 10 0
         false false false false false)
    = Throw (runtime_error "QuadriFlow produced an empty mesh").
Proof.
  split; [|split].
  - refine (proj1 (precondition_and_empty_result_errors demo_engine [] 0 [] 0 10 0
                     false false false false false) _).
    left. lia.
  - refine (proj1 (proj2 (precondition_and_empty_result_errors demo_engine
                            square_verts 4 square_faces 2 0 0
                            false false false false false)) _ _ _); lia.
  - refine (proj1 (proj2 (proj2 (precondition_and_empty_result_errors barren_engine
                                   square_verts 4 square_faces 2 10 0
                                   false false false false false)))
              _ _ _ _ _ _); try lia.
    + vm_compute. reflexivity.
    + right. reflexivity.
Defined.

(** Output vertex 1 of the remeshed square is compact vertex 1,
    (1,0,0), times 2 plus (1,1,1); the quad keeps its index order. *)
Lemma output_arrays_witness :
  num_vertices square_result = 4 /\ num_faces square_result = 1 /\
  (vertices square_result !! 3%nat = Some 3%float /\
   vertices square_result !! 4%nat = Some 1%float /\
   vertices square_result !! 5%nat = Some 1%float) /\
  faces square_result = [0; 1; 3; 2].
Proof.
  destruct square_field_value as (HO & HF & Hs & Ho).
  destruct (output_arrays demo_engine square_verts 4 square_faces 2 10 0
              false true true false false square_field square_result
              square_run_stages square_run)
    as (Hnv & Hnf & _ & _ & Hv & _).
  - rewrite HO. vm_compute. discriminate.
  - rewrite HF. vm_compute. discriminate.
  - rewrite HO in Hnv, Hv. rewrite HF in Hnf. rewrite Hs, Ho in Hv.
    split; [exact Hnv|]. split; [exact Hnf|]. split.
    + exact (Hv 1%nat (mkVector3d 1 0 0) eq_refl).
    + rewrite square_result_value. reflexivity.
Defined.

(* ================================================================== *)
(** * Part IV: further properties *)
(* ================================================================== *)

(** ** Ingestion: what a returning run has read *)

Lemma compact_mesh_parts (verts : list float) (N : Z) (fi : list Z) (M : Z)
    (v : list Vector3d) (f : list Z) :
  compact_mesh verts N fi M = Ret (v, f) ->
  exists ps st,
    load_positions verts N = Ret ps /\ face_loop fi M = Ret st /\
    copy_indices (st_indices st) = Ret f /\ gather ps (st_vertices st) = Ret v.
Proof.
  unfold compact_mesh. intros H.
  apply bindO_Ret in H as [ps [Hps H]]. apply bindO_Ret in H as [st [Hst H]].
  apply bindO_Ret in H as [f' [Hf H]]. apply bindO_Ret in H as [v' [Hv H]].
  injection H as <- <-. eauto 10.
Qed.

(** A positions loop that returns has kept its index arithmetic within
    [int]. *)
Lemma load_positions_bound (verts : list float) (N : Z) (ps : list Vector3d) :
  load_positions verts N = Ret ps -> 3 * N <= INT_MAX + 1.
Proof.
  unfold load_positions, for_int. destruct (Z.ltb_spec N 0); [discriminate|].
  intros Hrun.
  pose proof (forO_invariant (fun j _ => 3 * j <= INT_MAX + 1) (add_position verts)
                (Z.to_nat N) 0 [] ps) as HP.
  rewrite Z.add_0_l, Z2Nat.id in HP by assumption.
  apply HP; [unfold INT_MAX; lia | | exact Hrun].
  intros j t t' _ _ Hb. apply add_position_Ret in Hb as [Hr _]. lia.
Qed.

(** The input index behind each compact vertex, when the run returns:
    an entry of the face array the loop has read, inside [0, N), whose
    position the vertex carries. *)
Lemma compact_vertex_origin (verts : list float) (N : Z) (fi : list Z) (M : Z)
    (ps : list Vector3d) (st : dedup) (v : list Vector3d) :
  (forall x, x ∈ fi -> INT_MIN <= x <= INT_MAX) ->
  load_positions verts N = Ret ps ->
  dedup_inv (corner_key <$> take (Z.to_nat (3 * M)) fi) st ->
  gather ps (st_vertices st) = Ret v ->
  forall c w, st_vertices st !! c = Some w ->
    exists x, x ∈ take (Z.to_nat (3 * M)) fi /\ w = corner_key x /\ 0 <= x < N /\
              ov_p w = x /\ v !! c = input_position verts x /\ is_Some (v !! c).
Proof.
  intros Hint Hps Hinv Hv c w Hw.
  pose proof (load_positions_bound _ _ _ Hps) as HN.
  apply load_positions_Ret in Hps as [HN0 [Hpl Hpv]].
  destruct (inv_first _ _ Hinv c w Hw) as [a (Ha & _)].
  apply corner_keys_lookup in Ha as [Han [x [Hx ->]]].
  assert (Hxin : x ∈ take (Z.to_nat (3 * M)) fi).
  { eapply list_elem_of_lookup_2. apply lookup_take_Some. eauto. }
  assert (Hxi : INT_MIN <= x <= INT_MAX).
  { apply Hint. eapply list_elem_of_lookup_2. exact Hx. }
  apply mapO_Ret in Hv.
  destruct (Forall2_lookup_l _ _ _ _ _ Hv Hw) as (q & Hq & Hat).
  apply at_Ret in Hat as [_ Hpsx]. simpl in Hpsx.
  pose proof (lookup_lt_Some _ _ _ Hpsx) as Hlt.
  pose proof (to_uint32_range x) as Hr.
  assert (Hux : to_uint32 x = x).
  { unfold INT_MIN, INT_MAX in *. destruct (Z.neg_nonneg_cases x) as [Hneg|Hpos].
    - rewrite to_uint32_negative in Hlt, Hr by lia. lia.
    - apply to_uint32_small. lia. }
  rewrite Hux in *.
  exists x. split; [exact Hxin|]. split; [reflexivity|]. split; [lia|].
  split; [simpl; exact Hux|]. split; [|eauto].
  rewrite Hq, <- Hpsx, Hpv by exact Hlt. rewrite Z2Nat.id by lia. reflexivity.
Qed.

(** A returning ingestion, piece by piece. *)
Lemma compact_mesh_returns (verts : list float) (N : Z) (fi : list Z) (M : Z)
    (v : list Vector3d) (f : list Z) :
  compact_mesh verts N fi M = Ret (v, f) ->
  exists ps st,
    load_positions verts N = Ret ps /\
    (Z.to_nat (3 * M) <= length fi)%nat /\ 3 * M <= INT_MAX + 1 /\
    dedup_inv (corner_key <$> take (Z.to_nat (3 * M)) fi) st /\
    f = st_indices st /\
    gather ps (st_vertices st) = Ret v /\
    length v = length (st_vertices st).
Proof.
  intros H.
  destruct (compact_mesh_Ret _ _ _ _ _ _ H) as (ps0 & st0 & _ & _ & _ & Hf0 & _).
  apply compact_mesh_parts in H as (ps & st & Hps & Hst & Hf & Hv).
  apply face_loop_Ret in Hst as (Hlen & Hmax & Hst).
  assert (Hinv : dedup_inv (corner_key <$> take (Z.to_nat (3 * M)) fi) st).
  { rewrite Hst. apply add_corners_inv.
    rewrite length_fmap, length_take. unfold INT_MAX in Hmax. lia. }
  exists ps, st. repeat (split; [assumption|]).
  split.
  - apply copy_indices_Ret in Hf. rewrite Hf. apply list_eq. intros a.
    rewrite list_lookup_fmap. destruct (st_indices st !! a) as [k|] eqn:Hk; [|reflexivity].
    simpl. f_equal. apply to_int_small.
    destruct (inv_index _ _ Hinv a k Hk) as [Hk0 [w [_ Hw]]].
    apply lookup_lt_Some in Hw. pose proof (inv_count _ _ Hinv) as Hc.
    rewrite length_fmap, length_take in Hc. unfold INT_MAX in Hmax. lia.
  - split; [exact Hv|]. apply mapO_Ret in Hv. symmetry. exact (Forall2_length _ _ _ Hv).
Qed.

(** X1.  Ingestion keeps the geometry of every face: when it returns
    [(V, F)], each corner the face loop has read holds an input index
    inside [0, N), and the column of [V] that [F] names for that corner
    is the input position of that index. *)
Theorem ingestion_preserves_corners (verts : list float) (N : Z) (fi : list Z) (M : Z)
    (v : list Vector3d) (f : list Z) :
  (forall x, x ∈ fi -> INT_MIN <= x <= INT_MAX) ->
  compact_mesh verts N fi M = Ret (v, f) ->
  forall (a : nat) (x : Z),
    (a < Z.to_nat (3 * M))%nat -> fi !! a = Some x ->
    0 <= x < N /\
    exists k q, f !! a = Some k /\ 0 <= k /\
      v !! Z.to_nat k = Some q /\ input_position verts x = Some q.
Proof.
  intros Hint H a x Ha Hx.
  destruct (compact_mesh_returns _ _ _ _ _ _ H) as (ps & st & Hps & Hlen & _ & Hinv & -> & Hv & _).
  destruct (lookup_lt_is_Some_2 (st_indices st) a) as [k Hk].
  { rewrite (inv_length _ _ Hinv), length_fmap, length_take. lia. }
  destruct (inv_index _ _ Hinv a k Hk) as [Hk0 [w [Hw Hkw]]].
  apply corner_keys_lookup in Hw as [_ [x' [Hx' ->]]].
  assert (x' = x) as -> by congruence.
  destruct (compact_vertex_origin _ _ _ _ _ _ _ Hint Hps Hinv Hv _ _ Hkw)
    as (y & Hy & Hkey & Hrange & _ & Hpos & [q Hq]).
  assert (y = x) as ->.
  { symmetry. apply corner_key_inj_int; [| |exact Hkey].
    - apply Hint. eapply list_elem_of_lookup_2. exact Hx.
    - apply elem_of_take in Hy as [b [Hb _]].
      apply Hint. eapply list_elem_of_lookup_2. exact Hb. }
  split; [exact Hrange|]. exists k, q. rewrite <- Hpos. auto.
Qed.

Lemma ingestion_preserves_corners_witness :
  compact_mesh square_verts 4 [3; 1; 2; 2; 1; 3] 2
    = Ret ([mkVector3d 1 1 0; mkVector3d 1 0 0; mkVector3d 0 1 0], [0; 1; 2; 2; 1; 0]) /\
  exists k q, [0; 1; 2; 2; 1; 0] !! 5%nat = Some k /\ 0 <= k /\
    [mkVector3d 1 1 0; mkVector3d 1 0 0; mkVector3d 0 1 0] !! Z.to_nat k = Some q /\
    input_position square_verts 3 = Some q.
Proof.
  assert (Hrun : compact_mesh square_verts 4 [3; 1; 2; 2; 1; 3] 2
            = Ret ([mkVector3d 1 1 0; mkVector3d 1 0 0; mkVector3d 0 1 0],
                   [0; 1; 2; 2; 1; 0])).
  { vm_compute. reflexivity. }
  split; [exact Hrun|].
  refine (proj2 (ingestion_preserves_corners square_verts 4 [3; 1; 2; 2; 1; 3] 2 _ _
                   _ Hrun 5%nat 3 _ _)).
  - intros x. rewrite !elem_of_cons, elem_of_nil. unfold INT_MIN, INT_MAX. lia.
  - vm_compute. lia.
  - reflexivity.
Defined.

(** The input indices behind the compact vertices: each index the face
    loop has read, once. *)
Lemma compact_origins (verts : list float) (N : Z) (fi : list Z) (M : Z)
    (ps : list Vector3d) (st : dedup) (v : list Vector3d) :
  (forall x, x ∈ fi -> INT_MIN <= x <= INT_MAX) ->
  load_positions verts N = Ret ps ->
  dedup_inv (corner_key <$> take (Z.to_nat (3 * M)) fi) st ->
  gather ps (st_vertices st) = Ret v ->
  NoDup (ov_p <$> st_vertices st) /\
  (forall x, x ∈ ov_p <$> st_vertices st <-> x ∈ take (Z.to_nat (3 * M)) fi) /\
  (forall x, x ∈ ov_p <$> st_vertices st -> 0 <= x < N).
Proof.
  intros Hint Hps Hinv Hv.
  pose proof (compact_vertex_origin _ _ _ _ _ _ _ Hint Hps Hinv Hv) as Horigin.
  split; [|split].
  - apply NoDup_fmap_2_strong; [|exact (inv_nodup _ _ Hinv)].
    intros w w' Hw Hw' Heq.
    apply list_elem_of_lookup in Hw as [c Hw], Hw' as [c' Hw'].
    destruct (Horigin c w Hw) as (x & _ & -> & _ & Hpx & _).
    destruct (Horigin c' w' Hw') as (x' & _ & -> & _ & Hpx' & _). congruence.
  - intros x. split.
    + intros Hx. apply list_elem_of_fmap in Hx as [w [-> Hw]].
      apply list_elem_of_lookup in Hw as [c Hw].
      destruct (Horigin c w Hw) as (y & Hy & _ & _ & -> & _). exact Hy.
    + intros Hx. apply list_elem_of_lookup in Hx as [a Ha].
      apply lookup_take_Some in Ha as [Ha Han].
      destruct (lookup_lt_is_Some_2 (st_indices st) a) as [k Hk].
      { rewrite (inv_length _ _ Hinv), length_fmap, length_take.
        apply lookup_lt_Some in Ha. lia. }
      destruct (inv_index _ _ Hinv a k Hk) as [_ [w [Hw Hkw]]].
      apply corner_keys_lookup in Hw as [_ [x' [Hx' ->]]].
      assert (x' = x) as -> by congruence.
      destruct (Horigin _ _ Hkw) as (y & Hy & Hkey & _ & Hp & _).
      assert (y = x) as ->.
      { symmetry. apply corner_key_inj_int; [| |exact Hkey].
        - apply Hint. eapply list_elem_of_lookup_2. exact Ha.
        - apply elem_of_take in Hy as [b [Hb _]].
          apply Hint. eapply list_elem_of_lookup_2. exact Hb. }
      apply list_elem_of_fmap. exists (corner_key x).
      split; [symmetry; exact Hp | eapply list_elem_of_lookup_2; exact Hkw].
  - intros x Hx. apply list_elem_of_fmap in Hx as [w [-> Hw]].
    apply list_elem_of_lookup in Hw as [c Hw].
    destruct (Horigin c w Hw) as (y & _ & _ & Hy & -> & _). exact Hy.
Qed.

Lemma compact_vertex_bound (N : Z) (l : list Z) :
  NoDup l -> (forall x, x ∈ l -> 0 <= x < N) -> Z.of_nat (length l) <= Z.max 0 N.
Proof.
  intros Hnd Hr.
  assert (l ⊆+ seqZ 0 (Z.max 0 N)) as Hsub.
  { apply NoDup_submseteq; [exact Hnd|]. intros j Hj. apply elem_of_seqZ.
    specialize (Hr j Hj). lia. }
  apply submseteq_length in Hsub. rewrite length_seqZ in Hsub. lia.
Qed.

(** X2.  When ingestion returns [(V, F)], [V] has exactly one column
    per distinct input index among the face corners read -- no more
    than [N] -- so two corners share a column only if they hold the
    same index, and an input vertex no corner names has no column. *)
Theorem compact_vertex_count (verts : list float) (N : Z) (fi : list Z) (M : Z)
    (v : list Vector3d) (f : list Z) :
  (forall x, x ∈ fi -> INT_MIN <= x <= INT_MAX) ->
  compact_mesh verts N fi M = Ret (v, f) ->
  length v = size (list_to_set (take (Z.to_nat (3 * M)) fi) : gset Z) /\
  Z.of_nat (length v) <= Z.max 0 N.
Proof.
  intros Hint H.
  destruct (compact_mesh_returns _ _ _ _ _ _ H) as (ps & st & Hps & _ & _ & Hinv & _ & Hv & HK).
  destruct (compact_origins _ _ _ _ _ _ _ Hint Hps Hinv Hv) as (Hnd & Hel & Hr).
  rewrite HK, <- (length_fmap ov_p). split.
  - rewrite <- (size_list_to_set (C := gset Z)) by exact Hnd. f_equal.
    apply set_eq. intros x. rewrite !elem_of_list_to_set. apply Hel.
  - apply compact_vertex_bound; assumption.
Qed.

Lemma compact_vertex_count_witness :
  compact_mesh square_verts 4 [3; 1; 2; 2; 1; 3] 2
    = Ret ([mkVector3d 1 1 0; mkVector3d 1 0 0; mkVector3d 0 1 0], [0; 1; 2; 2; 1; 0]) /\
  3%nat = size (list_to_set [3; 1; 2; 2; 1; 3] : gset Z).
Proof.
  assert (Hrun : compact_mesh square_verts 4 [3; 1; 2; 2; 1; 3] 2
            = Ret ([mkVector3d 1 1 0; mkVector3d 1 0 0; mkVector3d 0 1 0],
                   [0; 1; 2; 2; 1; 0])).
  { vm_compute. reflexivity. }
  split; [exact Hrun|].
  refine (proj1 (compact_vertex_count square_verts 4 [3; 1; 2; 2; 1; 3] 2 _ _ _ Hrun)).
  intros x. rewrite !elem_of_cons, elem_of_nil. unfold INT_MIN, INT_MAX. lia.
Defined.

(** ** Ingesting a compact mesh again *)

Lemma flatten3_cons (p : Vector3d) (v : list Vector3d) :
  flatten3 (p :: v) = vx p :: vy p :: vz p :: flatten3 v.
Proof. reflexivity. Qed.

Lemma flatten3_length (v : list Vector3d) : length (flatten3 v) = (3 * length v)%nat.
Proof.
  induction v as [|p v IH]; [reflexivity|].
  rewrite flatten3_cons. simpl. rewrite IH. lia.
Qed.

Lemma flatten3_lookup (v : list Vector3d) (i : nat) (p : Vector3d) :
  v !! i = Some p ->
  flatten3 v !! (3 * i)%nat = Some (vx p) /\
  flatten3 v !! (3 * i + 1)%nat = Some (vy p) /\
  flatten3 v !! (3 * i + 2)%nat = Some (vz p).
Proof.
  revert i. induction v as [|q v IH]; intros i Hi; [discriminate|].
  rewrite flatten3_cons. destruct i as [|i].
  - injection Hi as ->. auto.
  - simpl in Hi.
    replace (3 * S i)%nat with (S (S (S (3 * i)))) by lia.
    replace (S (S (S (3 * i))) + 1)%nat with (S (S (S (3 * i + 1)))) by lia.
    replace (S (S (S (3 * i))) + 2)%nat with (S (S (S (3 * i + 2)))) by lia.
    simpl. apply IH. exact Hi.
Qed.

Lemma input_position_flatten3 (v : list Vector3d) (i : nat) :
  input_position (flatten3 v) (Z.of_nat i) = v !! i.
Proof.
  unfold input_position.
  replace (Z.to_nat (Z.of_nat i * 3)) with (3 * i)%nat by lia.
  replace (Z.to_nat (Z.of_nat i * 3 + 1)) with (3 * i + 1)%nat by lia.
  replace (Z.to_nat (Z.of_nat i * 3 + 2)) with (3 * i + 2)%nat by lia.
  destruct (v !! i) as [p|] eqn:Hp.
  - destruct (flatten3_lookup v i p Hp) as (-> & -> & ->). destruct p; reflexivity.
  - apply lookup_ge_None in Hp.
    rewrite (proj2 (lookup_ge_None (flatten3 v) (3 * i)%nat)); [reflexivity|].
    rewrite flatten3_length. lia.
Qed.

(** The positions loop reads a flattened matrix back. *)
Lemma load_positions_flatten3 (v : list Vector3d) :
  3 * Z.of_nat (length v) <= INT_MAX + 1 ->
  load_positions (flatten3 v) (Z.of_nat (length v)) = Ret v.
Proof.
  intros Hmax.
  destruct (load_positions_total (flatten3 v) (Z.of_nat (length v))) as [ps Hps];
    [lia | rewrite flatten3_length; lia | exact Hmax |].
  rewrite Hps. f_equal.
  apply load_positions_Ret in Hps as [_ [Hlen Hpv]].
  apply list_eq. intros i. destruct (decide (i < length ps)%nat) as [Hlt|Hge].
  - rewrite Hpv by exact Hlt. apply input_position_flatten3.
  - rewrite (proj2 (lookup_ge_None ps i)) by lia.
    symmetry. apply lookup_ge_None. lia.
Qed.

(** Fetching the positions [0 .. |v|-1], in order, gives [v]. *)
Lemma gather_identity (v : list Vector3d) :
  Z.of_nat (length v) <= 4294967296 ->
  gather v (corner_key <$> seqZ 0 (Z.of_nat (length v))) = Ret v.
Proof.
  intros Hmax. unfold gather. apply mapO_Ret.
  apply Forall2_same_length_lookup_2.
  - rewrite length_fmap, length_seqZ. lia.
  - intros i w q Hw Hq.
    apply list_lookup_fmap_Some in Hw as [c [-> Hc]].
    apply lookup_seqZ in Hc as [-> Hi]. simpl.
    rewrite to_uint32_small by lia.
    apply at_Ret. split; [lia|]. rewrite Z.add_0_l, Nat2Z.id. exact Hq.
Qed.

(** The face loop leaves its index array in first-reference order. *)
Lemma dedup_first_reference_order (ks : list obj_vertex) (st : dedup) :
  dedup_inv ks st -> first_reference_order (st_indices st) (length (st_vertices st)).
Proof.
  intros Hinv. split.
  - intros a k Hk. destruct (inv_index _ _ Hinv a k Hk) as [Hk0 [w [_ Hw]]].
    apply lookup_lt_Some in Hw. lia.
  - intros c Hc. destruct (lookup_lt_is_Some_2 (st_vertices st) c Hc) as [w Hw].
    destruct (inv_first _ _ Hinv c w Hw) as [a (_ & Ha & Hb)]. eauto.
Qed.

(** On an index array in first-reference order the face loop assigns
    to each entry the entry itself. *)
Lemma dedup_first_reference_fixpoint (f : list Z) (K : nat) (st : dedup) :
  Z.of_nat (length f) <= INT_MAX + 1 -> (K <= length f)%nat ->
  first_reference_order f K ->
  dedup_inv (corner_key <$> f) st ->
  st_indices st = f /\ st_vertices st = corner_key <$> seqZ 0 (Z.of_nat K).
Proof.
  unfold INT_MAX. intros Hmax HK [Hrange Hfirst] Hinv.
  pose proof (inv_count _ _ Hinv) as Hcount. rewrite length_fmap in Hcount.
  pose proof (inv_length _ _ Hinv) as Hlen. rewrite length_fmap in Hlen.
  assert (Hint : forall z, 0 <= z < Z.of_nat (length f) -> INT_MIN <= z <= INT_MAX)
    by (unfold INT_MIN, INT_MAX; intros; lia).
  (* the key of entry [a] sits at the index the second run gives it *)
  assert (Hkey : forall a x k, f !! a = Some x -> st_indices st !! a = Some k ->
            0 <= k < Z.of_nat (length (st_vertices st)) /\
            st_vertices st !! Z.to_nat k = Some (corner_key x)).
  { intros a x k Hx Hk. destruct (inv_index _ _ Hinv a k Hk) as [Hk0 [w [Hw Hkw]]].
    apply list_lookup_fmap_Some in Hw as [x' [-> Hx']].
    assert (x' = x) as -> by congruence.
    split; [|exact Hkw]. apply lookup_lt_Some in Hkw. lia. }
  (* vertex [c] of the second run is the key of [c] *)
  assert (HA : forall c, (c < length (st_vertices st))%nat ->
            st_vertices st !! c = Some (corner_key (Z.of_nat c))).
  { intros c. induction c as [c IH] using lt_wf_ind. intros Hc.
    destruct (lookup_lt_is_Some_2 (st_vertices st) c Hc) as [w Hw].
    destruct (inv_first _ _ Hinv c w Hw) as [a (Ha & Hia & Hbefore)].
    apply list_lookup_fmap_Some in Ha as [x [-> Hx]].
    destruct (Hrange a x Hx) as [Hx0 HxK].
    (* the entries before [a] are below [c] *)
    assert (P1 : forall b y, (b < a)%nat -> f !! b = Some y -> y < Z.of_nat c).
    { intros b y Hb Hy.
      destruct (lookup_lt_is_Some_2 (st_indices st) b) as [kb Hkb].
      { rewrite Hlen. apply lookup_lt_Some in Hy. exact Hy. }
      pose proof (Hbefore b kb Hb Hkb) as Hlt.
      destruct (Hkey b y kb Hy Hkb) as [[Hkb0 _] Hvb].
      rewrite (IH (Z.to_nat kb)) in Hvb by lia.
      injection Hvb as Hvb. rewrite Z2Nat.id in Hvb by exact Hkb0.
      assert (kb = y); [|lia].
      apply to_uint32_inj_int; [apply Hint; lia | apply Hint | exact Hvb].
      destruct (Hrange b y Hy). lia. }
    assert (x = Z.of_nat c) as ->; [|exact Hw].
    destruct (Z.lt_trichotomy x (Z.of_nat c)) as [Hlt | [Heq | Hgt]]; [|exact Heq|].
    - (* [x < c]: its key is already vertex [x] *)
      exfalso. pose proof (IH (Z.to_nat x) ltac:(lia) ltac:(lia)) as Hvx.
      rewrite Z2Nat.id in Hvx by exact Hx0.
      pose proof (NoDup_lookup _ _ _ _ (inv_nodup _ _ Hinv) Hvx Hw). lia.
    - (* [x > c]: [c] occurs before the first [x] *)
      exfalso.
      destruct (Hfirst c) as [ac [Hac Hbc]]; [lia|].
      destruct (Hfirst (Z.to_nat x)) as [ax [Hax Hbx]]; [lia|].
      rewrite Z2Nat.id in Hax, Hbx by exact Hx0.
      assert (ax <= a)%nat as Hle.
      { destruct (decide (ax <= a)%nat); [assumption|].
        pose proof (Hbx a x ltac:(lia) Hx). lia. }
      assert (ac < ax)%nat as Hlt.
      { destruct (decide (ac < ax)%nat); [assumption|].
        destruct (decide (ac = ax)) as [->|]; [rewrite Hac in Hax; injection Hax; lia|].
        pose proof (Hbc ax x ltac:(lia) Hax). lia. }
      pose proof (P1 ac (Z.of_nat c) ltac:(lia) Hac). lia. }
  (* both runs count the same vertices *)
  assert (HK2 : length (st_vertices st) = K).
  { apply Nat.le_antisymm.
    - destruct (length (st_vertices st)) as [|c] eqn:Hc; [lia|].
      pose proof (HA c ltac:(lia)) as Hv. rewrite <- Hc in *.
      destruct (inv_first _ _ Hinv c _ Hv) as [a (Ha & _)].
      apply list_lookup_fmap_Some in Ha as [x [Hkx Hx]].
      destruct (Hrange a x Hx) as [Hx0 HxK].
      injection Hkx as Hkx.
      assert (Z.of_nat c = x); [|lia].
      apply to_uint32_inj_int; [apply Hint; lia | apply Hint; lia | exact Hkx].
    - destruct K as [|c]; [lia|].
      destruct (Hfirst c ltac:(lia)) as [a [Ha _]].
      destruct (lookup_lt_is_Some_2 (st_indices st) a) as [k Hk].
      { rewrite Hlen. apply lookup_lt_Some in Ha. exact Ha. }
      destruct (Hkey a _ k Ha Hk) as [[Hk0 HkK] Hv].
      rewrite (HA (Z.to_nat k)) in Hv by lia.
      injection Hv as Hv. rewrite Z2Nat.id in Hv by exact Hk0.
      assert (k = Z.of_nat c); [|lia].
      apply to_uint32_inj_int; [apply Hint; lia | apply Hint; lia | exact Hv]. }
  split.
  - apply list_eq. intros a.
    destruct (f !! a) as [x|] eqn:Hx.
    + destruct (lookup_lt_is_Some_2 (st_indices st) a) as [k Hk].
      { rewrite Hlen. apply lookup_lt_Some in Hx. exact Hx. }
      rewrite Hk. f_equal.
      destruct (Hkey a x k Hx Hk) as [[Hk0 HkK] Hv].
      rewrite (HA (Z.to_nat k)) in Hv by lia.
      injection Hv as Hv. rewrite Z2Nat.id in Hv by exact Hk0.
      destruct (Hrange a x Hx).
      apply to_uint32_inj_int; [apply Hint; lia | apply Hint; lia | exact Hv].
    + apply lookup_ge_None. rewrite Hlen. apply lookup_ge_None. exact Hx.
  - apply list_eq. intros c. rewrite list_lookup_fmap.
    destruct (decide (c < K)%nat) as [Hc|Hc].
    + rewrite HA by lia. rewrite (proj2 (lookup_seqZ 0 (Z.of_nat K) c (Z.of_nat c)));
        [reflexivity | lia].
    + rewrite (proj2 (lookup_ge_None (st_vertices st) c)) by lia.
      rewrite (proj2 (lookup_ge_None (seqZ 0 (Z.of_nat K)) c)); [reflexivity|].
      rewrite length_seqZ. lia.
Qed.

(** X3.  The compact mesh is a fixed point of ingestion: handing
    [(V, F)] back to it -- [V] as a flat array of [|V|] positions, [F]
    as the face array -- returns [(V, F)] again.  No vertex is dropped,
    none is renumbered. *)
Theorem ingestion_idempotent (verts : list float) (N : Z) (fi : list Z) (M : Z)
    (v : list Vector3d) (f : list Z) :
  (forall x, x ∈ fi -> INT_MIN <= x <= INT_MAX) ->
  compact_mesh verts N fi M = Ret (v, f) ->
  compact_mesh (flatten3 v) (Z.of_nat (length v)) f M = Ret (v, f).
Proof.
  intros Hint H.
  destruct (compact_mesh_returns _ _ _ _ _ _ H)
    as (ps & st & Hps & Hlen & Hmax & Hinv & -> & Hv & HK).
  destruct (compact_origins _ _ _ _ _ _ _ Hint Hps Hinv Hv) as (Hnd & _ & Hr).
  pose proof (compact_vertex_bound N _ Hnd Hr) as HKN. rewrite length_fmap, <- HK in HKN.
  pose proof (load_positions_bound _ _ _ Hps) as HN.
  pose proof (inv_length _ _ Hinv) as Hl. rewrite length_fmap, length_take in Hl.
  pose proof (inv_count _ _ Hinv) as Hc. rewrite length_fmap, length_take, <- HK in Hc.
  set (n := Z.to_nat (3 * M)) in *.
  assert (Hfn : length (st_indices st) = n) by lia.
  unfold compact_mesh.
  rewrite load_positions_flatten3 by (unfold INT_MAX in *; lia). cbn [bindO].
  assert (Hloop : face_loop (st_indices st) M
            = Ret (add_corners (corner_key <$> st_indices st))).
  { destruct (Z.le_gt_cases 0 M) as [HM|HM].
    - rewrite face_loop_total by lia. fold n. rewrite <- Hfn, firstn_all. reflexivity.
    - unfold face_loop, for_int. replace (Z.to_nat M) with 0%nat by lia.
      assert (n = 0%nat) as Hn0 by lia. rewrite Hn0 in Hfn.
      destruct (st_indices st); [reflexivity | discriminate]. }
  rewrite Hloop. cbn [bindO].
  assert (Hinv2 : dedup_inv (corner_key <$> st_indices st)
                    (add_corners (corner_key <$> st_indices st))).
  { apply add_corners_inv. rewrite length_fmap. unfold INT_MAX in *. lia. }
  destruct (dedup_first_reference_fixpoint (st_indices st) (length v)
              (add_corners (corner_key <$> st_indices st))) as [Hi2 Hv2].
  - unfold INT_MAX in *. lia.
  - lia.
  - rewrite HK. eapply dedup_first_reference_order. exact Hinv.
  - exact Hinv2.
  - rewrite Hi2, Hv2.
    assert (Hcopy : copy_indices (st_indices st) = Ret (st_indices st)).
    { rewrite (copy_indices_total _ (Z.max 0 M)) by lia.
      f_equal. apply list_eq. intros a. rewrite list_lookup_fmap.
      destruct (st_indices st !! a) as [k|] eqn:Hk; [|reflexivity].
      simpl. f_equal. apply to_int_small.
      destruct (inv_index _ _ Hinv a k Hk) as [Hk0 [w [_ Hw]]].
      apply lookup_lt_Some in Hw. unfold INT_MAX in *. lia. }
    rewrite Hcopy. cbn [bindO].
    rewrite gather_identity by (unfold INT_MAX in *; lia). reflexivity.
Qed.

Lemma ingestion_idempotent_witness :
  compact_mesh square_verts 4 [3; 1; 2; 2; 1; 3] 2
    = Ret ([mkVector3d 1 1 0; mkVector3d 1 0 0; mkVector3d 0 1 0], [0; 1; 2; 2; 1; 0]) /\
  compact_mesh [1; 1; 0;  1; 0; 0;  0; 1; 0]%float 3 [0; 1; 2; 2; 1; 0] 2
    = Ret ([mkVector3d 1 1 0; mkVector3d 1 0 0; mkVector3d 0 1 0], [0; 1; 2; 2; 1; 0]).
Proof.
  assert (Hrun : compact_mesh square_verts 4 [3; 1; 2; 2; 1; 3] 2
            = Ret ([mkVector3d 1 1 0; mkVector3d 1 0 0; mkVector3d 0 1 0],
                   [0; 1; 2; 2; 1; 0])).
  { vm_compute. reflexivity. }
  split; [exact Hrun|].
  refine (ingestion_idempotent square_verts 4 [3; 1; 2; 2; 1; 3] 2 _ _ _ Hrun).
  intros x. rewrite !elem_of_cons, elem_of_nil. unfold INT_MIN, INT_MAX. lia.
Defined.

Ltac loop_returns :=
  lazymatch goal with
  | |- fst (forM ?n _ _ _) = Ret _ =>
      let n' := eval vm_compute in n in
      change n with n'; cbn [forM]; returns
  end.

Lemma fan_run_value :
  exists h,
    fst (derive_boundary fan) = Ret h /\
    mCOw h = [[0; 1; 1; 1]%float; [0]%float] /\
    mCQw h = [[0; 1; 1; 1]%float; [0]%float] /\
    mCO h = [[origin; mkVector3d 1 0 0; mkVector3d 0 1 0; mkVector3d (-1) (-1) 0]; [origin]].
Proof.
  eexists. split.
  - unfold derive_boundary, for_uint32.
    change (UINT32_MAX <? 3 * cols3 (mF fan)) with false. cbv iota.
    loop_returns.
  - repeat split; reflexivity.
Qed.

Lemma fan_run : fst (derive_boundary fan) = Ret fan_constrained.
Proof.
  destruct fan_run_value as (h & Hh & _). unfold fan_constrained. rewrite Hh. reflexivity.
Qed.

Lemma fan_constrained_value :
  mCOw fan_constrained = [[0; 1; 1; 1]%float; [0]%float] /\
  mCQw fan_constrained = [[0; 1; 1; 1]%float; [0]%float] /\
  mCO fan_constrained
    = [[origin; mkVector3d 1 0 0; mkVector3d 0 1 0; mkVector3d (-1) (-1) 0]; [origin]].
Proof.
  destruct fan_run_value as (h & Hh & H). unfold fan_constrained. rewrite Hh. exact H.
Qed.

(** ** The boundary loop: what it leaves alone *)

Lemma level0_only_refl {A} (m : list (list A)) : level0_only m m.
Proof. split; reflexivity. Qed.

Lemma level0_only_trans {A} (m1 m2 m3 : list (list A)) :
  level0_only m1 m2 -> level0_only m2 m3 -> level0_only m1 m3.
Proof. intros [H1 H1'] [H2 H2']. split; congruence. Qed.

(** A level-0 store, spelled out. *)
Lemma write0_shape {A} (m m' : list (list A)) (i : Z) (x : A) :
  write0 m i x = Ret m' <->
  exists l, m !! 0%nat = Some l /\ 0 <= i < Z.of_nat (length l) /\
            m' = <[0%nat := <[Z.to_nat i := x]> l]> m.
Proof.
  unfold write0. rewrite bindO_Ret. split.
  - intros [l [Hl H]]. apply bindO_Ret in H as [l' [Hl' H]].
    apply read_Ret in Hl as [_ Hl]. apply write_Ret in Hl' as [Hi ->].
    apply write_Ret in H as [_ ->]. change (Z.to_nat 0) with 0%nat in *. eauto.
  - intros [l (Hl & Hi & ->)]. exists l. split.
    + apply read_Ret. split; [lia | exact Hl].
    + apply bindO_Ret. exists (<[Z.to_nat i := x]> l). split.
      * apply write_Ret. auto.
      * apply write_Ret. split; [|reflexivity].
        apply lookup_lt_Some in Hl. lia.
Qed.

Lemma write0_level0_only {A} (m m' : list (list A)) (i : Z) (x : A) :
  write0 m i x = Ret m' -> level0_only m m'.
Proof.
  intros H. apply write0_shape in H as [l (Hl & Hi & ->)]. split.
  - rewrite list_fmap_insert, length_insert. apply list_insert_id.
    rewrite list_lookup_fmap, Hl. reflexivity.
  - apply drop_insert_lt. lia.
Qed.

Lemma write0_size {A} (m m' : list (list A)) (i : Z) (x : A) (n : Z) :
  write0 m i x = Ret m' -> level0_size m n -> level0_size m' n.
Proof.
  intros H [l0 [Hl0 Hn]]. apply write0_shape in H as [l (Hl & Hi & ->)].
  assert (l0 = l) as -> by congruence.
  exists (<[Z.to_nat i := x]> l). split.
  - apply list_lookup_insert_eq. apply lookup_lt_Some in Hl. exact Hl.
  - rewrite length_insert. exact Hn.
Qed.

Lemma write0_total {A} (m : list (list A)) (i : Z) (x : A) (n : Z) :
  level0_size m n -> 0 <= i < n -> exists m', write0 m i x = Ret m'.
Proof.
  intros [l [Hl Hn]] Hi. eexists. apply write0_shape. exists l.
  split; [exact Hl|]. split; [lia | reflexivity].
Qed.

(** Two stores in a row. *)
Lemma write0_pair_total {A} (m : list (list A)) (i0 i1 : Z) (x y : A) (n : Z) :
  level0_size m n -> 0 <= i0 < n -> 0 <= i1 < n ->
  exists m1 m2, write0 m i0 x = Ret m1 /\ write0 m1 i1 y = Ret m2.
Proof.
  intros Hm H0 H1. destruct (write0_total m i0 x n Hm H0) as [m1 Hm1].
  destruct (write0_total m1 i1 y n (write0_size _ _ _ _ _ Hm1 Hm) H1) as [m2 Hm2]. eauto.
Qed.

Ltac step_in H a Ha :=
  let Heq := fresh "Heq" in
  destruct (bindM_lift_inv _ _ _ H) as [a [Ha Heq]];
  rewrite Heq in H; clear Heq; cbv beta in H.

(** A returning iteration, spelled out: nothing, or eight stores. *)
Lemma boundary_edge_writes {X} (h h' : Hierarchy X) (i : Z) :
  fst (boundary_edge i h) = Ret h' ->
  h' = h \/
  exists i0 i1 p0 p1 e co1 co cq1 cq cqw1 cqw cow1 cow,
    write0 (mCO h) i0 p0 = Ret co1 /\ write0 co1 i1 p1 = Ret co /\
    write0 (mCQ h) i0 e = Ret cq1 /\ write0 cq1 i1 e = Ret cq /\
    write0 (mCQw h) i0 1%float = Ret cqw1 /\ write0 cqw1 i1 1%float = Ret cqw /\
    write0 (mCOw h) i0 1%float = Ret cow1 /\ write0 cow1 i1 1%float = Ret cow /\
    h' = set_constraints h co cq cow cqw.
Proof.
  intros H. unfold boundary_edge in H.
  step_in H e He.
  destruct (e =? -1).
  - step_in H a Ha. step_in H b Hb. step_in H p0 Hp0. step_in H p1 Hp1.
    destruct (0 <? squaredNorm (Vector3d_sub p1 p0))%float.
    + right. rewrite bindM_emit in H. cbn [fst snd] in H.
      step_in H co1 Hco1. step_in H co2 Hco2. step_in H cq1 Hcq1. step_in H cq2 Hcq2.
      step_in H cqw1 Hcqw1. step_in H cqw2 Hcqw2. step_in H cow1 Hcow1.
      step_in H cow2 Hcow2.
      simpl in H. injection H as <-.
      exists (to_uint32 a), (to_uint32 b), p0, p1, (normalize (Vector3d_sub p1 p0)),
        co1, co2, cq1, cq2, cqw1, cqw2, cow1, cow2. auto 12.
    + left. simpl in H. injection H as <-. reflexivity.
  - left. simpl in H. injection H as <-. reflexivity.
Qed.

Lemma boundary_edge_frame {X} (h h' : Hierarchy X) (i : Z) :
  fst (boundary_edge i h) = Ret h' -> constraints_only h h'.
Proof.
  intros H. apply boundary_edge_writes in H
    as [-> | (i0 & i1 & p0 & p1 & e & co1 & co & cq1 & cq & cqw1 & cqw & cow1 & cow &
              H1 & H2 & H3 & H4 & H5 & H6 & H7 & H8 & ->)].
  - split; try reflexivity; try apply level0_only_refl. repeat split.
  - split; simpl; try reflexivity; [repeat split | ..];
      (eapply level0_only_trans; eapply write0_level0_only; eassumption).
Qed.

Lemma constraints_only_refl {X} (h : Hierarchy X) : constraints_only h h.
Proof. split; try reflexivity; try apply level0_only_refl. repeat split. Qed.

Lemma constraints_only_trans {X} (h1 h2 h3 : Hierarchy X) :
  constraints_only h1 h2 -> constraints_only h2 h3 -> constraints_only h1 h3.
Proof.
  intros [Hs (HF & HE & HV) Hr HCO HCQ HCOw HCQw] [Hs' (HF' & HE' & HV') Hr' HCO' HCQ' HCOw' HCQw'].
  split; try congruence; try (eapply level0_only_trans; eassumption).
  repeat split; congruence.
Qed.

(** X4.  The boundary loop writes level 0 of the four constraint
    arrays and nothing else: when it returns, the seed, the faces, the
    adjacency, the positions and the solver's own data are as they
    were, and so are the number of levels, the size of every level and
    the content of every coarser level of the constraint arrays. *)
Theorem boundary_loop_writes_level0_only {X} (h h' : Hierarchy X) :
  fst (derive_boundary h) = Ret h' -> constraints_only h h'.
Proof.
  unfold derive_boundary, for_uint32.
  destruct (UINT32_MAX <? 3 * cols3 (mF h)); [discriminate|].
  intros H.
  destruct (forM_rule (fun _ hn => constraints_only h hn) (fun _ => True) boundary_edge
              (Z.to_nat (3 * cols3 (mF h))) 0 h) as [_ HP].
  - apply constraints_only_refl.
  - intros j t _ Ht. split.
    + apply Forall_forall. auto.
    + intros t' Hrun. eapply constraints_only_trans; [exact Ht|].
      eapply boundary_edge_frame. exact Hrun.
  - exact (HP h' H).
Qed.

Lemma boundary_loop_writes_level0_only_witness :
  fst (derive_boundary fan) = Ret fan_constrained /\
  rng_seed fan_constrained = 7 /\
  drop 1 (mCOw fan_constrained) = [[0]%float] /\
  drop 1 (mCQ fan_constrained) = [[origin]].
Proof.
  split; [exact fan_run|].
  destruct (boundary_loop_writes_level0_only fan fan_constrained fan_run)
    as [Hs _ _ _ [_ HCQ] [_ HCOw] _].
  split; [exact Hs|]. split; [exact HCOw | exact HCQ].
Defined.

(** ** Meshes without boundary *)

Lemma forM_skip {X S} (body : Z -> S -> M X S) (n : nat) (i : Z) (s : S) :
  (forall j, i <= j < i + Z.of_nat n -> body j s = (Ret s, [])) ->
  forM n i body s = (Ret s, []).
Proof.
  revert i. induction n as [|n IH]; intros i Hbody; [reflexivity|].
  cbn [forM]. rewrite (Hbody i) by lia. unfold bindM. cbn [fst snd].
  rewrite IH; [reflexivity|]. intros j Hj. apply Hbody. lia.
Qed.

(** A half-edge that has an opposite is passed over. *)
Lemma boundary_edge_interior {X} (h : Hierarchy X) (i e : Z) :
  0 <= i -> mE2E h !! Z.to_nat i = Some e -> e <> -1 ->
  boundary_edge i h = (Ret h, []).
Proof.
  intros Hi He Hne. unfold boundary_edge.
  rewrite (proj2 (read_Ret (mE2E h) i e)) by auto. rewrite bindM_lift_Ret.
  destruct (Z.eqb_spec e (-1)); [contradiction | reflexivity].
Qed.

(** X5.  On a mesh without boundary -- every half-edge has an
    opposite -- the boundary loop returns the hierarchy as it got it
    and calls [normalize] on nothing: requesting boundary preservation
    adds no constraint there. *)
Theorem closed_mesh_gets_no_constraint {X} (h : Hierarchy X) :
  3 * cols3 (mF h) <= UINT32_MAX ->
  (forall i, 0 <= i < 3 * cols3 (mF h) ->
     exists e, mE2E h !! Z.to_nat i = Some e /\ e <> -1) ->
  derive_boundary h = (Ret h, []).
Proof.
  intros Hmax Hclosed. unfold derive_boundary, for_uint32.
  destruct (Z.ltb_spec UINT32_MAX (3 * cols3 (mF h))); [lia|].
  apply forM_skip. intros j Hj.
  destruct (Hclosed j) as [e [He Hne]]; [lia|].
  apply (boundary_edge_interior h j e); [lia | exact He | exact Hne].
Qed.

Lemma pillow_closed (i : Z) :
  0 <= i < 6 -> exists e, mE2E pillow !! Z.to_nat i = Some e /\ e <> -1.
Proof.
  intros Hi.
  assert (i = 0 \/ i = 1 \/ i = 2 \/ i = 3 \/ i = 4 \/ i = 5) as Hcases by lia.
  destruct Hcases as [-> | [-> | [-> | [-> | [-> | ->]]]]];
    (eexists; split; [reflexivity | discriminate]).
Qed.

Lemma closed_mesh_witness : derive_boundary pillow = (Ret pillow, []).
Proof.
  apply closed_mesh_gets_no_constraint.
  - vm_compute. discriminate.
  - exact pillow_closed.
Defined.

(** ** Vertices off the boundary *)

(** X6.  A vertex that is an endpoint of no constraining half-edge
    (boundary, non-zero length) comes out of the boundary loop with
    its constrained position, its constrained direction and both its
    weights as they went in. *)
Theorem untouched_vertex_keeps_constraints {X} (h h' : Hierarchy X) (v : Z) :
  fst (derive_boundary h) = Ret h' ->
  0 <= v ->
  (forall j, 0 <= j < 3 * cols3 (mF h) -> ~ touches h j v) ->
  level0 (mCO h') v = level0 (mCO h) v /\
  level0 (mCQ h') v = level0 (mCQ h) v /\
  level0 (mCOw h') v = level0 (mCOw h) v /\
  level0 (mCQw h') v = level0 (mCQw h) v.
Proof.
  intros Hrun Hv Hnone.
  destruct (proj2 (derive_boundary_rule h) h' Hrun) as [_ _ _ Hun].
  apply Hun; assumption.
Qed.

(** The half-edges of [fan] that constrain: the three rim edges. *)
Lemma fan_constrains (j i0 i1 : Z) (p0 p1 : Vector3d) :
  0 <= j < 9 -> constrains fan j i0 i1 p0 p1 ->
  (j = 1 /\ i0 = 1 /\ i1 = 2) \/ (j = 4 /\ i0 = 2 /\ i1 = 3) \/ (j = 7 /\ i0 = 3 /\ i1 = 1).
Proof.
  intros Hj (Hb & He & _).
  assert (j = 0 \/ j = 1 \/ j = 2 \/ j = 3 \/ j = 4 \/ j = 5 \/ j = 6 \/ j = 7 \/ j = 8)
    as Hcases by lia.
  unfold is_boundary in Hb.
  destruct Hcases as [-> | [-> | [-> | [-> | [-> | [-> | [-> | [-> | ->]]]]]]]];
    vm_compute in Hb; try discriminate Hb;
    vm_compute in He; injection He as <- <- _ _; auto.
Qed.

Lemma fan_interior (j : Z) : 0 <= j < 3 * cols3 (mF fan) -> ~ touches fan j 0.
Proof.
  change (3 * cols3 (mF fan)) with 9.
  intros Hj (i0 & i1 & p0 & p1 & Hc & Hv).
  destruct (fan_constrains j i0 i1 p0 p1 Hj Hc) as [H | [H | H]]; lia.
Qed.

Lemma untouched_vertex_witness :
  level0 (mCOw fan_constrained) 0 = Some 0%float /\
  level0 (mCQw fan_constrained) 0 = Some 0%float.
Proof.
  destruct (untouched_vertex_keeps_constraints fan fan_constrained 0 fan_run)
    as (_ & _ & HCOw & HCQw).
  - lia.
  - exact fan_interior.
  - split; [exact HCOw | exact HCQw].
Defined.

(** ** Constrained positions *)

Lemma touches_nonneg {X} (h : Hierarchy X) (i v : Z) : touches h i v -> 0 <= v.
Proof.
  intros (i0 & i1 & p0 & p1 & Hc & Hv).
  pose proof (constrains_nonneg _ _ _ _ _ _ Hc). lia.
Qed.

(** After the half-edges below [n]: every vertex they touch has its
    own position as constrained position. *)
Lemma pinned_step {X} (h hn hn' : Hierarchy X) (n : Z) :
  0 <= n -> n + 1 <= UINT32_MAX ->
  same_mesh h hn ->
  (forall i v, 0 <= i < n -> touches h i v -> level0 (mCO hn) v = level0 (mV h) v) ->
  fst (boundary_edge n hn) = Ret hn' ->
  forall i v, 0 <= i < n + 1 -> touches h i v -> level0 (mCO hn') v = level0 (mV h) v.
Proof.
  intros Hn Hmax Hmesh IH Hrun i v Hi Ht.
  destruct (boundary_edge_inv hn hn' n Hn Hmax Hrun)
    as [(-> & _ & Hskip) | (j0 & j1 & q0 & q1 & Hc & _ & [_ HCO _ _ _])].
  - destruct (decide (i = n)) as [->|]; [|apply (IH i); [lia | exact Ht]].
    destruct Ht as (i0 & i1 & p0 & p1 & Hc & _).
    destruct (Hskip i0 i1 p0 p1). apply (constrains_same_mesh h hn); assumption.
  - apply (constrains_same_mesh h hn) in Hc; [|exact Hmesh].
    rewrite (HCO v (touches_nonneg _ _ _ Ht)).
    pose proof Hc as (_ & Hends & _).
    apply half_edge_ends_inv in Hends as (a & b & _ & _ & _ & _ & Hq0 & Hq1).
    destruct (decide (v = j1)) as [->|Hn1]; [congruence|].
    destruct (decide (v = j0)) as [->|Hn0]; [congruence|].
    destruct (decide (i = n)) as [->|]; [|apply (IH i); [lia | exact Ht]].
    destruct Ht as (i0 & i1 & p0 & p1 & Hc' & Hv).
    destruct (constrains_functional _ _ _ _ _ _ _ _ _ _ Hc' Hc) as (-> & -> & _). lia.
Qed.

(** X7.  When the boundary loop has returned, every endpoint of a
    constraining half-edge is pinned where it is: its constrained
    position is its own level-0 position, whichever of its edges
    wrote last. *)
Theorem boundary_vertices_pinned {X} (h h' : Hierarchy X) (i v : Z) :
  fst (derive_boundary h) = Ret h' ->
  0 <= i < 3 * cols3 (mF h) ->
  touches h i v ->
  exists p, level0 (mV h') v = Some p /\ level0 (mCO h') v = Some p.
Proof.
  intros Hrun Hi Ht.
  assert (Hp : exists p, level0 (mV h) v = Some p).
  { destruct Ht as (i0 & i1 & p0 & p1 & (_ & Hends & _) & Hv).
    apply half_edge_ends_inv in Hends as (a & b & _ & _ & _ & _ & Hq0 & Hq1).
    destruct Hv as [-> | ->]; eauto. }
  destruct Hp as [p Hp]. exists p.
  pose proof (proj2 (derive_boundary_rule h) h' Hrun) as [(_ & _ & HV) _ _ _].
  rewrite HV. split; [exact Hp|]. rewrite <- Hp.
  revert Hrun. unfold derive_boundary, for_uint32.
  destruct (Z.ltb_spec UINT32_MAX (3 * cols3 (mF h))) as [|Hmax]; [discriminate|].
  intros Hrun.
  destruct (forM_rule
              (fun n hn => same_mesh h hn /\
                 forall i v, 0 <= i < n -> touches h i v ->
                   level0 (mCO hn) v = level0 (mV h) v)
              (fun _ => True) boundary_edge (Z.to_nat (3 * cols3 (mF h))) 0 h)
    as [_ HP].
  - split; [repeat split | intros; lia].
  - intros j t Hj [Hmesh IH]. split; [apply Forall_forall; auto|].
    intros t' Ht'. split.
    + destruct (boundary_edge_frame _ _ _ Ht') as [_ (? & ? & ?) _ _ _ _ _].
      destruct Hmesh as (? & ? & ?). repeat split; congruence.
    + apply (pinned_step h t t' j); try assumption; lia.
  - destruct (HP h' Hrun) as [_ Hall]. apply (Hall i v); [lia | exact Ht].
Qed.

Lemma boundary_vertices_pinned_witness :
  touches fan 1 2 /\ touches fan 4 2 /\
  exists p, level0 (mV fan_constrained) 2 = Some p /\ level0 (mCO fan_constrained) 2 = Some p.
Proof.
  assert (H1 : touches fan 1 2).
  { exists 1, 2, (mkVector3d 1 0 0), (mkVector3d 0 1 0).
    split; [|auto]. split; [reflexivity|]. split; reflexivity. }
  assert (H4 : touches fan 4 2).
  { exists 2, 3, (mkVector3d 0 1 0), (mkVector3d (-1) (-1) 0).
    split; [|auto]. split; [reflexivity|]. split; reflexivity. }
  split; [exact H1|]. split; [exact H4|].
  apply (boundary_vertices_pinned fan fan_constrained 1 2 fan_run); [|exact H1].
  apply Z_between. reflexivity.
Defined.

(** ** The boundary loop on a well-formed hierarchy *)

Lemma forM_total {X S} (P : Z -> S -> Prop) (body : Z -> S -> M X S)
    (n : nat) (i : Z) (s : S) :
  P i s ->
  (forall j t, i <= j < i + Z.of_nat n -> P j t ->
     exists t', fst (body j t) = Ret t' /\ P (j + 1) t') ->
  exists s', fst (forM n i body s) = Ret s' /\ P (i + Z.of_nat n) s'.
Proof.
  revert i s. induction n as [|n IH]; intros i s HP Hstep.
  - exists s. rewrite Z.add_0_r. split; [reflexivity | exact HP].
  - destruct (Hstep i s) as [s1 [H1 HP1]]; [lia | exact HP |].
    destruct (IH (i + 1) s1 HP1) as [s' [H2 HP2]].
    { intros j t Hj. apply Hstep. lia. }
    exists s'. split.
    + cbn [forM]. apply bindM_fst_Ret. eauto.
    + replace (i + Z.of_nat (Datatypes.S n)) with ((i + 1) + Z.of_nat n) by lia. exact HP2.
Qed.

Lemma read_total {A} (a : list A) (i : Z) :
  0 <= i < Z.of_nat (length a) -> exists x, read a i = Ret x /\ x ∈ a.
Proof.
  intros Hi. destruct (lookup_lt_is_Some_2 a (Z.to_nat i)) as [x Hx]; [lia|].
  exists x. split; [apply read_Ret; split; [lia | exact Hx]|].
  eapply list_elem_of_lookup_2. exact Hx.
Qed.

Lemma read0_total {A} (m : list (list A)) (i n : Z) :
  level0_size m n -> 0 <= i < n -> exists x, read0 m i = Ret x.
Proof.
  intros [l [Hl Hn]] Hi.
  destruct (lookup_lt_is_Some_2 l (Z.to_nat i)) as [x Hx]; [lia|].
  exists x. apply read0_Ret. split; [lia|]. unfold level0. rewrite Hl. exact Hx.
Qed.

(** On a well-formed hierarchy every access of an iteration is in
    bounds, and the hierarchy stays well formed. *)
Lemma boundary_edge_total {X} (h : Hierarchy X) (nF nV i : Z) :
  well_formed_hierarchy h nF nV -> 0 <= i < 3 * nF ->
  exists h', fst (boundary_edge i h) = Ret h' /\ well_formed_hierarchy h' nF nV.
Proof.
  intros Hwf Hi. pose proof Hwf as [HF HE Hcount Hidx Hint HV HCO HCQ HCOw HCQw].
  unfold boundary_edge, UINT32_MAX, INT_MAX in *.
  destruct (read_total (mE2E h) i) as [e [He _]]; [lia|].
  rewrite He, bindM_lift_Ret.
  destruct (e =? -1); [|exists h; split; [reflexivity | exact Hwf]].
  pose proof (Z.div_mod i 3 ltac:(lia)) as Hdm.
  pose proof (Z.mod_pos_bound i 3 ltac:(lia)) as Hm0.
  pose proof (Z.mod_pos_bound (i + 1) 3 ltac:(lia)) as Hm1.
  unfold coeff3. rewrite (to_uint32_small (i + 1)) by lia.
  destruct (read_total (mF h) (3 * (i / 3) + i mod 3)) as [a [Ha Hain]]; [lia|].
  destruct (read_total (mF h) (3 * (i / 3) + (i + 1) mod 3)) as [b [Hb Hbin]]; [lia|].
  rewrite Ha, bindM_lift_Ret, Hb, bindM_lift_Ret.
  pose proof (Hidx a Hain) as Har. pose proof (Hidx b Hbin) as Hbr.
  pose proof (Hint a Hain) as Hai. pose proof (Hint b Hbin) as Hbi.
  rewrite (to_uint32_small a), (to_uint32_small b) by lia.
  destruct (read0_total (mV h) a nV HV Har) as [p0 Hp0].
  destruct (read0_total (mV h) b nV HV Hbr) as [p1 Hp1].
  rewrite Hp0, bindM_lift_Ret, Hp1, bindM_lift_Ret.
  destruct (0 <? squaredNorm (Vector3d_sub p1 p0))%float;
    [|exists h; split; [reflexivity | exact Hwf]].
  rewrite bindM_emit. cbn [fst].
  destruct (write0_pair_total (mCO h) a b p0 p1 nV HCO Har Hbr) as (co1 & co & Hco1 & Hco).
  destruct (write0_pair_total (mCQ h) a b (normalize (Vector3d_sub p1 p0))
              (normalize (Vector3d_sub p1 p0)) nV HCQ Har Hbr) as (cq1 & cq & Hcq1 & Hcq).
  destruct (write0_pair_total (mCQw h) a b 1%float 1%float nV HCQw Har Hbr)
    as (cqw1 & cqw & Hcqw1 & Hcqw).
  destruct (write0_pair_total (mCOw h) a b 1%float 1%float nV HCOw Har Hbr)
    as (cow1 & cow & Hcow1 & Hcow).
  rewrite Hco1, bindM_lift_Ret, Hco, bindM_lift_Ret.
  rewrite Hcq1, bindM_lift_Ret, Hcq, bindM_lift_Ret.
  rewrite Hcqw1, bindM_lift_Ret, Hcqw, bindM_lift_Ret.
  rewrite Hcow1, bindM_lift_Ret, Hcow, bindM_lift_Ret.
  eexists. split; [reflexivity|].
  split; cbn [set_constraints mF mE2E mV mCO mCQ mCOw mCQw]; try assumption;
    (eapply write0_size; [eassumption|]; eapply write0_size; eassumption).
Qed.

(** X8.  On a well-formed hierarchy of at most [UINT32_MAX / 3] faces
    the boundary loop returns: every read and every store stays inside
    its array, the counter does not wrap, and what comes out is well
    formed again. *)
Theorem boundary_loop_returns {X} (h : Hierarchy X) (nF nV : Z) :
  well_formed_hierarchy h nF nV ->
  exists h', fst (derive_boundary h) = Ret h' /\ well_formed_hierarchy h' nF nV.
Proof.
  intros Hwf. pose proof Hwf as [HF HE Hcount _ _ _ _ _ _ _].
  assert (HnF : 0 <= nF) by lia.
  assert (Hcols : cols3 (mF h) = nF).
  { unfold cols3. rewrite HF. symmetry. apply Z.div_unique_exact; lia. }
  unfold derive_boundary, for_uint32. rewrite Hcols.
  destruct (Z.ltb_spec UINT32_MAX (3 * nF)); [lia|].
  destruct (forM_total (fun _ hn => well_formed_hierarchy hn nF nV) boundary_edge
              (Z.to_nat (3 * nF)) 0 h Hwf) as [h' [Hrun Hwf']]; [|eauto].
  intros j t Hj Ht. apply boundary_edge_total; [exact Ht | lia].
Qed.

Lemma fan_well_formed : well_formed_hierarchy fan 3 4.
Proof.
  split; try reflexivity; try (eexists; split; reflexivity).
  - vm_compute. discriminate.
  - intros x. unfold fan. cbn [mF]. rewrite !elem_of_cons, elem_of_nil. lia.
  - intros x. unfold fan, INT_MAX. cbn [mF]. rewrite !elem_of_cons, elem_of_nil. lia.
Qed.

Lemma boundary_loop_returns_witness :
  exists h', fst (derive_boundary fan) = Ret h' /\ well_formed_hierarchy h' 3 4.
Proof. exact (boundary_loop_returns fan 3 4 fan_well_formed). Defined.

(** ** The calls of [normalize] *)

(** The invariant rule for a loop, its log included. *)
Lemma forM_log_rule {X S} (R : Z -> S -> list (event X) -> Prop) (body : Z -> S -> M X S)
    (n : nat) (i : Z) (s : S) (pre : list (event X)) :
  R i s pre ->
  (forall j t l t', i <= j < i + Z.of_nat n -> R j t l -> fst (body j t) = Ret t' ->
     R (j + 1) t' (l ++ snd (body j t))) ->
  forall s', fst (forM n i body s) = Ret s' ->
    R (i + Z.of_nat n) s' (pre ++ snd (forM n i body s)).
Proof.
  revert i s pre. induction n as [|n IH]; intros i s pre HR Hstep s' Hrun.
  - simpl in Hrun. injection Hrun as <-. simpl. rewrite Z.add_0_r, app_nil_r. exact HR.
  - cbn [forM] in Hrun |- *. apply bindM_fst_Ret in Hrun as [s1 [H1 Hrun]].
    rewrite (bindM_Ret _ _ s1 H1). cbn [snd]. rewrite app_assoc.
    replace (i + Z.of_nat (Datatypes.S n)) with ((i + 1) + Z.of_nat n) by lia.
    apply IH.
    + apply (Hstep i s pre s1); [lia | exact HR | exact H1].
    + intros j t l t' Hj. apply Hstep. lia.
    + exact Hrun.
Qed.

Lemma constraining_functional {X} (h : Hierarchy X) (i : Z) (e e' : Vector3d) :
  constraining h i e -> constraining h i e' -> e = e'.
Proof.
  intros (i0 & i1 & p0 & p1 & Hc & ->) (j0 & j1 & q0 & q1 & Hc' & ->).
  destruct (constrains_functional _ _ _ _ _ _ _ _ _ _ Hc Hc') as (_ & _ & -> & ->).
  reflexivity.
Qed.

Lemma normalized_edges_skip {X} (h : Hierarchy X) (n : Z) (l : list (event X)) :
  normalized_edges h n l -> (forall e, ~ constraining h n e) ->
  normalized_edges h (n + 1) (l ++ []).
Proof.
  intros (edges & -> & Hs & Hin) Hno. rewrite app_nil_r.
  exists edges. split; [reflexivity|]. split; [exact Hs|].
  intros i e. rewrite Hin. split.
  - intros [Hi Hc]. split; [lia | exact Hc].
  - intros [Hi Hc]. split; [|exact Hc].
    destruct (decide (i = n)) as [->|]; [destruct (Hno e Hc) | lia].
Qed.

Lemma normalized_edges_snoc {X} (h : Hierarchy X) (n : Z) (l : list (event X))
    (e : Vector3d) :
  0 <= n -> normalized_edges h n l -> constraining h n e ->
  normalized_edges h (n + 1) (l ++ [Normalize e]).
Proof.
  intros Hn (edges & -> & Hs & Hin) Hc.
  exists (edges ++ [(n, e)]). split; [rewrite fmap_app; reflexivity|]. split.
  - intros a b ia ib Hab Ha Hb.
    apply lookup_app_Some in Hb as [Hb | [Hlen Hb]].
    + rewrite lookup_app_l in Ha by (apply lookup_lt_Some in Hb; lia). eauto.
    + apply list_lookup_singleton_Some in Hb as [Hb0 <-].
      rewrite lookup_app_l in Ha by lia.
      destruct ia as [i ei]. apply list_elem_of_lookup_2, Hin in Ha. simpl. lia.
  - intros i ei. rewrite elem_of_app, list_elem_of_singleton, Hin. split.
    + intros [[Hi Hci] | Heq]; [split; [lia | exact Hci]|].
      injection Heq as -> ->. split; [lia | exact Hc].
    + intros [Hi Hci]. destruct (decide (i = n)) as [->|]; [right | left; split; [lia | exact Hci]].
      f_equal. eapply constraining_functional; eassumption.
Qed.

(** X16.  When the boundary loop has returned, [normalize] has been
    called once for each half-edge that has no opposite and whose edge
    vector passes the test [squaredNorm() > 0] -- on that edge vector,
    in the order of the half-edges -- and on nothing else. *)
Theorem normalize_once_per_constraining_edge {X} (h h' : Hierarchy X) :
  fst (derive_boundary h) = Ret h' ->
  normalized_edges h (3 * cols3 (mF h)) (snd (derive_boundary h)).
Proof.
  unfold derive_boundary, for_uint32.
  destruct (Z.ltb_spec UINT32_MAX (3 * cols3 (mF h))) as [|Hmax]; [discriminate|].
  intros Hrun.
  assert (Hc : 0 <= 3 * cols3 (mF h)).
  { unfold cols3. pose proof (Z.div_pos (Z.of_nat (length (mF h))) 3). lia. }
  pose proof (forM_log_rule
                (fun n hn l => same_mesh h hn /\ normalized_edges h n l)
                boundary_edge (Z.to_nat (3 * cols3 (mF h))) 0 h []) as Hrule.
  rewrite Z.add_0_l, Z2Nat.id in Hrule by exact Hc.
  apply (Hrule) with (s' := h'); [| |exact Hrun].
  - split; [repeat split|]. exists []. split; [reflexivity|]. split.
    + intros a b ia ib _ Ha. discriminate Ha.
    + intros i e. rewrite elem_of_nil. split; [tauto | lia].
  - intros j t l t' Hj [Hmesh Hl] Ht'. split.
    + destruct (boundary_edge_frame _ _ _ Ht') as [_ (? & ? & ?) _ _ _ _ _].
      destruct Hmesh as (? & ? & ?). repeat split; congruence.
    + destruct (boundary_edge_inv t t' j ltac:(lia) ltac:(lia) Ht')
        as [(_ & -> & Hskip) | (j0 & j1 & q0 & q1 & Hcj & -> & _)].
      * apply normalized_edges_skip; [exact Hl|].
        intros e (i0 & i1 & p0 & p1 & Hci & _).
        apply (Hskip i0 i1 p0 p1), (constrains_same_mesh h t); assumption.
      * apply normalized_edges_snoc; [lia | exact Hl|].
        exists j0, j1, q0, q1. split; [|reflexivity].
        apply (constrains_same_mesh h t); assumption.
Qed.

(** Half-edge 1 of [fan], from vertex 1 to vertex 2, is among the
    edges [normalize] was called for. *)
Lemma normalize_once_witness :
  exists edges : list (Z * Vector3d),
    snd (derive_boundary fan) = (fun ie => Normalize ie.2) <$> edges /\
    (1, Vector3d_sub (mkVector3d 0 1 0) (mkVector3d 1 0 0)) ∈ edges.
Proof.
  destruct (normalize_once_per_constraining_edge fan fan_constrained fan_run)
    as (edges & Hlog & _ & Hin).
  exists edges. split; [exact Hlog|].
  apply Hin. split; [apply Z_between; reflexivity|].
  exists 1, 2, (mkVector3d 1 0 0), (mkVector3d 0 1 0).
  split; [|reflexivity]. split; [reflexivity|]. split; reflexivity.
Defined.

(** ** The output loops, in closed form *)

Lemma flatten4_cons (q : Vector4i) (f : list Vector4i) :
  flatten4 (q :: f) = q0 q :: q1 q :: q2 q :: q3 q :: flatten4 f.
Proof. reflexivity. Qed.

Lemma flatten4_length (f : list Vector4i) : length (flatten4 f) = (4 * length f)%nat.
Proof.
  induction f as [|q f IH]; [reflexivity|].
  rewrite flatten4_cons. simpl. rewrite IH. lia.
Qed.

Lemma flatten4_lookup (f : list Vector4i) (i : nat) (q : Vector4i) :
  f !! i = Some q ->
  flatten4 f !! (4 * i)%nat = Some (q0 q) /\
  flatten4 f !! (4 * i + 1)%nat = Some (q1 q) /\
  flatten4 f !! (4 * i + 2)%nat = Some (q2 q) /\
  flatten4 f !! (4 * i + 3)%nat = Some (q3 q).
Proof.
  revert i. induction f as [|p f IH]; intros i Hi; [discriminate|].
  rewrite flatten4_cons. destruct i as [|i].
  - injection Hi as ->. auto.
  - simpl in Hi.
    replace (4 * S i)%nat with (S (S (S (S (4 * i))))) by lia.
    replace (S (S (S (S (4 * i)))) + 1)%nat with (S (S (S (S (4 * i + 1))))) by lia.
    replace (S (S (S (S (4 * i)))) + 2)%nat with (S (S (S (S (4 * i + 2))))) by lia.
    replace (S (S (S (S (4 * i)))) + 3)%nat with (S (S (S (S (4 * i + 3))))) by lia.
    simpl. apply IH. exact Hi.
Qed.

Lemma write_int_total {A} (a : list A) (i : Z) (x : A) :
  0 <= i < Z.of_nat (length a) -> i <= INT_MAX ->
  write_int a i x = Ret (<[Z.to_nat i := x]> a).
Proof.
  intros Hi Hmax. unfold write_int.
  rewrite (proj2 (int_range_spec i)) by (unfold INT_MIN; lia).
  apply write_Ret. auto.
Qed.

Lemma extract_vertex_total {X} (field : Parametrizer X) (j : Z) (out : list float) :
  0 <= j < Z.of_nat (length (O_compact field)) ->
  Z.of_nat (length out) = 3 * Z.of_nat (length (O_compact field)) ->
  3 * Z.of_nat (length (O_compact field)) <= INT_MAX ->
  exists out', extract_vertex field j out = Ret out' /\ length out' = length out.
Proof.
  intros Hj Hlen Hmax. unfold extract_vertex.
  destruct (read_total (O_compact field) j Hj) as [o [Ho _]]. rewrite Ho. cbn [bindO].
  rewrite write_int_total by lia. cbn [bindO].
  rewrite write_int_total by (rewrite ?length_insert; lia). cbn [bindO].
  rewrite write_int_total by (rewrite ?length_insert; lia).
  eexists. split; [reflexivity|]. rewrite !length_insert. reflexivity.
Qed.

Lemma extract_face_total {X} (field : Parametrizer X) (j : Z) (out : list Z) :
  0 <= j < Z.of_nat (length (F_compact field)) ->
  Z.of_nat (length out) = 4 * Z.of_nat (length (F_compact field)) ->
  4 * Z.of_nat (length (F_compact field)) <= INT_MAX ->
  exists out', extract_face field j out = Ret out' /\ length out' = length out.
Proof.
  intros Hj Hlen Hmax. unfold extract_face.
  destruct (read_total (F_compact field) j Hj) as [q [Hq _]]. rewrite Hq. cbn [bindO].
  rewrite write_int_total by lia. cbn [bindO].
  rewrite write_int_total by (rewrite ?length_insert; lia). cbn [bindO].
  rewrite write_int_total by (rewrite ?length_insert; lia). cbn [bindO].
  rewrite write_int_total by (rewrite ?length_insert; lia).
  eexists. split; [reflexivity|]. rewrite !length_insert. reflexivity.
Qed.

(** Extraction returns when both compact sequences are non-empty and
    their flat sizes fit [int]. *)
Lemma extract_output_total {X} (field : Parametrizer X) :
  0 < Z.of_nat (length (O_compact field)) -> 0 < Z.of_nat (length (F_compact field)) ->
  3 * Z.of_nat (length (O_compact field)) <= INT_MAX ->
  4 * Z.of_nat (length (F_compact field)) <= INT_MAX ->
  exists res, extract_output field = Ret res.
Proof.
  unfold INT_MAX. intros HO HF HOmax HFmax. unfold extract_output.
  rewrite (to_int_small (Z.of_nat (length (O_compact field)))) by lia.
  rewrite (to_int_small (Z.of_nat (length (F_compact field)))) by lia.
  set (nv := Z.of_nat (length (O_compact field))) in *.
  set (nf := Z.of_nat (length (F_compact field))) in *.
  destruct (Z.eqb_spec nv 0); [lia|]. destruct (Z.eqb_spec nf 0); [lia|]. cbn [orb].
  unfold resize_int.
  rewrite (proj2 (int_range_spec (nv * 3))) by (unfold INT_MIN, INT_MAX; lia).
  rewrite (proj2 (int_range_spec (nf * 4))) by (unfold INT_MIN, INT_MAX; lia).
  destruct (Z.ltb_spec (nv * 3) 0); [lia|]. destruct (Z.ltb_spec (nf * 4) 0); [lia|].
  cbn [bindO]. unfold for_int.
  destruct (forO_total (fun _ out => Z.of_nat (length out) = 3 * nv) (extract_vertex field)
              (Z.to_nat nv) 0 (replicate (Z.to_nat (nv * 3)) 0%float)) as [vs [Hvs _]].
  { rewrite length_replicate. lia. }
  { intros j t Hj Ht.
    destruct (extract_vertex_total field j t) as [t' [Ht' Hl]];
      [fold nv; lia | exact Ht | unfold INT_MAX; fold nv; lia |].
    exists t'. split; [exact Ht' | rewrite Hl; exact Ht]. }
  rewrite Hvs. cbn [bindO].
  destruct (forO_total (fun _ out => Z.of_nat (length out) = 4 * nf) (extract_face field)
              (Z.to_nat nf) 0 (replicate (Z.to_nat (nf * 4)) 0)) as [fs [Hfs _]].
  { rewrite length_replicate. lia. }
  { intros j t Hj Ht.
    destruct (extract_face_total field j t) as [t' [Ht' Hl]];
      [fold nf; lia | exact Ht | unfold INT_MAX; fold nf; lia |].
    exists t'. split; [exact Ht' | rewrite Hl; exact Ht]. }
  rewrite Hfs. cbn [bindO]. eauto.
Qed.

(** A buffer in which the output loop has written every vertex is the
    flattened list of the mapped vertices. *)
Lemma vertices_written_flatten {X} (field : Parametrizer X) (out : list float) :
  vertices_written field (3 * Z.of_nat (length (O_compact field)))
    (Z.of_nat (length (O_compact field))) out ->
  out = flatten3 (to_caller field <$> O_compact field).
Proof.
  intros [Hlen Hv]. apply list_eq. intros p.
  pose proof (Nat.div_mod_eq p 3) as Hp.
  pose proof (Nat.mod_upper_bound p 3 ltac:(lia)) as Hr.
  set (i := (p / 3)%nat) in *. set (r := (p mod 3)%nat) in *.
  destruct (O_compact field !! i) as [o|] eqn:Ho.
  - pose proof (lookup_lt_Some _ _ _ Ho) as Hi.
    destruct (Hv (Z.of_nat i) o ltac:(lia)) as (Hx & Hy & Hz).
    { rewrite Nat2Z.id. exact Ho. }
    replace (Z.to_nat (Z.of_nat i * 3)) with (3 * i)%nat in Hx by lia.
    replace (Z.to_nat (Z.of_nat i * 3 + 1)) with (3 * i + 1)%nat in Hy by lia.
    replace (Z.to_nat (Z.of_nat i * 3 + 2)) with (3 * i + 2)%nat in Hz by lia.
    destruct (flatten3_lookup (to_caller field <$> O_compact field) i (to_caller field o))
      as (Fx & Fy & Fz).
    { rewrite list_lookup_fmap, Ho. reflexivity. }
    rewrite Hp. destruct r as [|[|[|r]]]; [| | |lia].
    + rewrite Nat.add_0_r, Hx, Fx. reflexivity.
    + rewrite Hy, Fy. reflexivity.
    + rewrite Hz, Fz. reflexivity.
  - apply lookup_ge_None in Ho.
    rewrite (proj2 (lookup_ge_None out p)) by lia.
    symmetry. apply lookup_ge_None. rewrite flatten3_length, length_fmap. lia.
Qed.

Lemma faces_written_flatten {X} (field : Parametrizer X) (out : list Z) :
  faces_written field (4 * Z.of_nat (length (F_compact field)))
    (Z.of_nat (length (F_compact field))) out ->
  out = flatten4 (F_compact field).
Proof.
  intros [Hlen Hv]. apply list_eq. intros p.
  pose proof (Nat.div_mod_eq p 4) as Hp.
  pose proof (Nat.mod_upper_bound p 4 ltac:(lia)) as Hr.
  set (i := (p / 4)%nat) in *. set (r := (p mod 4)%nat) in *.
  destruct (F_compact field !! i) as [q|] eqn:Hq.
  - pose proof (lookup_lt_Some _ _ _ Hq) as Hi.
    destruct (Hv (Z.of_nat i) q ltac:(lia)) as (Ha & Hb & Hc & Hd).
    { rewrite Nat2Z.id. exact Hq. }
    replace (Z.to_nat (Z.of_nat i * 4)) with (4 * i)%nat in Ha by lia.
    replace (Z.to_nat (Z.of_nat i * 4 + 1)) with (4 * i + 1)%nat in Hb by lia.
    replace (Z.to_nat (Z.of_nat i * 4 + 2)) with (4 * i + 2)%nat in Hc by lia.
    replace (Z.to_nat (Z.of_nat i * 4 + 3)) with (4 * i + 3)%nat in Hd by lia.
    destruct (flatten4_lookup (F_compact field) i q Hq) as (Fa & Fb & Fc & Fd).
    rewrite Hp. destruct r as [|[|[|[|r]]]]; [| | | |lia].
    + rewrite Nat.add_0_r, Ha, Fa. reflexivity.
    + rewrite Hb, Fb. reflexivity.
    + rewrite Hc, Fc. reflexivity.
    + rewrite Hd, Fd. reflexivity.
  - apply lookup_ge_None in Hq.
    rewrite (proj2 (lookup_ge_None out p)) by lia.
    symmetry. apply lookup_ge_None. rewrite flatten4_length. lia.
Qed.

(** X9.  Extraction in closed form.  When both compact sequences are
    non-empty and their flat sizes fit [int], the output loops return
    -- no write leaves the two buffers -- and the result is: the
    compact vertices mapped by [position * normalize_scale +
    normalize_offset] and flattened three by three, the compact faces
    flattened four by four, and the two lengths. *)
Theorem extract_output_closed_form {X} (field : Parametrizer X) :
  0 < Z.of_nat (length (O_compact field)) -> 0 < Z.of_nat (length (F_compact field)) ->
  3 * Z.of_nat (length (O_compact field)) <= INT_MAX ->
  4 * Z.of_nat (length (F_compact field)) <= INT_MAX ->
  extract_output field
  = Ret (mkQuadriFlowResult
           (flatten3 (to_caller field <$> O_compact field))
           (flatten4 (F_compact field))
           (Z.of_nat (length (O_compact field)))
           (Z.of_nat (length (F_compact field)))).
Proof.
  intros HO HF HOmax HFmax.
  destruct (extract_output_total field HO HF HOmax HFmax) as [res Hres].
  rewrite Hres. f_equal.
  destruct (extract_output_Ret field res Hres ltac:(lia) ltac:(lia)) as (Hnv & Hnf & Hv & Hf).
  rewrite Hnv in Hv. rewrite Hnf in Hf.
  apply vertices_written_flatten in Hv. apply faces_written_flatten in Hf.
  destruct res as [vs fs nv nf]. cbn [vertices faces num_vertices num_faces] in *.
  congruence.
Qed.

Lemma extract_output_closed_form_witness :
  extract_output (set_output (set_normalization (Parametrizer2_new demo_engine)
                                2%float (mkVector3d 1 1 1))
                    [mkVector3d 0 0 0; mkVector3d 1 0 0; mkVector3d 0 1 0; mkVector3d 1 1 0]
                    [mkVector4i 0 1 3 2])
  = Ret (mkQuadriFlowResult [1; 1; 1;  3; 1; 1;  1; 3; 1;  3; 3; 1]%float [0; 1; 3; 2] 4 1).
Proof.
  refine (extract_output_closed_form
            (set_output (set_normalization (Parametrizer2_new demo_engine)
                           2%float (mkVector3d 1 1 1))
               [mkVector3d 0 0 0; mkVector3d 1 0 0; mkVector3d 0 1 0; mkVector3d 1 1 0]
               [mkVector4i 0 1 3 2]) _ _ _ _); vm_compute; (reflexivity || discriminate).
Defined.

(** ** The shape of a result *)

(** What extraction returns has positive counts and arrays of three
    doubles per vertex and four indices per face. *)
Lemma extract_output_shape {X} (field : Parametrizer X) (res : QuadriFlowResult) :
  extract_output field = Ret res ->
  0 < num_vertices res /\ 0 < num_faces res /\
  3 * num_vertices res <= INT_MAX /\ 4 * num_faces res <= INT_MAX /\
  Z.of_nat (length (vertices res)) = 3 * num_vertices res /\
  Z.of_nat (length (faces res)) = 4 * num_faces res.
Proof.
  unfold extract_output. intros H.
  set (nv := to_int (Z.of_nat (length (O_compact field)))) in *.
  set (nf := to_int (Z.of_nat (length (F_compact field)))) in *.
  destruct (Z.eqb_spec nv 0) as [|Hnv]; [discriminate|].
  destruct (Z.eqb_spec nf 0) as [|Hnf]; [discriminate|]. cbn [orb] in H.
  apply bindO_Ret in H as [vs0 [Hvs0 H]]. apply bindO_Ret in H as [vs [Hvs H]].
  apply bindO_Ret in H as [fs0 [Hfs0 H]]. apply bindO_Ret in H as [fs [Hfs H]].
  injection H as <-. cbn [num_vertices num_faces vertices faces].
  apply resize_int_Ret in Hvs0 as [Hv0 ->], Hfs0 as [Hf0 ->].
  assert (Hvl : vertices_written field (3 * nv) (0 + Z.of_nat (Z.to_nat nv)) vs).
  { apply (forO_invariant (vertices_written field (3 * nv)) (extract_vertex field)
             _ 0 (replicate (Z.to_nat (nv * 3)) 0%float) vs).
    - split; [rewrite length_replicate; lia | intros; lia].
    - intros j t t' _. apply vertices_written_step.
    - exact Hvs. }
  assert (Hfl : faces_written field (4 * nf) (0 + Z.of_nat (Z.to_nat nf)) fs).
  { apply (forO_invariant (faces_written field (4 * nf)) (extract_face field)
             _ 0 (replicate (Z.to_nat (nf * 4)) 0) fs).
    - split; [rewrite length_replicate; lia | intros; lia].
    - intros j t t' _. apply faces_written_step.
    - exact Hfs. }
  destruct Hvl as [Hvl _], Hfl as [Hfl _]. lia.
Qed.

(** X10.  Every result [run_quadriflow] returns is well shaped: both
    counts are positive, the vertex array holds exactly three doubles
    per counted vertex and the face array exactly four indices per
    counted face -- whatever the solver left in the compact sequences,
    sizes beyond [int] included. *)
Theorem result_well_shaped {X} (E : Engine X) (verts : list float) (N : Z) (fi : list Z)
    (M target_faces seed : Z) (ps pb ad ag mc : bool) (res : QuadriFlowResult) :
  fst (run_quadriflow E verts N fi M target_faces seed ps pb ad ag mc) = Ret res ->
  0 < num_vertices res /\ 0 < num_faces res /\
  Z.of_nat (length (vertices res)) = 3 * num_vertices res /\
  Z.of_nat (length (faces res)) = 4 * num_faces res.
Proof.
  intros H. unfold run_quadriflow in H.
  destruct (_ || _); [discriminate|]. destruct (_ <=? _); [discriminate|].
  apply bindM_fst_Ret in H as [field [_ H]]. cbn [fst lift] in H.
  destruct (extract_output_shape field res H) as (? & ? & _ & _ & ? & ?). auto.
Qed.

Lemma result_well_shaped_witness :
  0 < num_vertices square_result /\ 0 < num_faces square_result /\
  Z.of_nat (length (vertices square_result)) = 3 * num_vertices square_result /\
  Z.of_nat (length (faces square_result)) = 4 * num_faces square_result.
Proof.
  exact (result_well_shaped demo_engine square_verts 4 square_faces 2 10 0
           false true true false false square_result square_run).
Defined.

(** ** What the solver is handed *)

Lemma set_flags_configured {X} (E : Engine X) (seed : Z) (ps pb ad ag mc : bool) :
  let field := set_flags (Parametrizer2_new E) seed ps pb ad ag mc in
  flag_preserve_sharp field = (if ps then 1 else flag_preserve_sharp (Parametrizer2_new E)) /\
  flag_preserve_boundary field
    = (if pb then 1 else flag_preserve_boundary (Parametrizer2_new E)) /\
  flag_adaptive_scale field = (if ad then 1 else flag_adaptive_scale (Parametrizer2_new E)) /\
  flag_aggresive_sat field = (if ag then 1 else flag_aggresive_sat (Parametrizer2_new E)) /\
  flag_minimum_cost_flow field
    = (if mc then 1 else flag_minimum_cost_flow (Parametrizer2_new E)) /\
  rng_seed (hierarchy field) = seed.
Proof. destruct ps, pb, ad, ag, mc; repeat split. Qed.

Section Configuration.
Context {X : Type}.
Variable E : Engine X.
Variables (verts : list float) (N : Z) (fi : list Z) (M target_faces seed : Z).
Variables ps pb ad ag mc : bool.

Lemma boundary_constraints_configured (field : Parametrizer X) :
  Forall (configured E verts N fi M target_faces seed ps pb ad ag mc)
    (snd (boundary_constraints E field)).
Proof.
  unfold boundary_constraints.
  apply bindM_log_Forall; [apply call_log_Forall; exact I | intros h _].
  apply bindM_log_Forall; [repeat constructor | intros _ _].
  apply bindM_log_Forall.
  { eapply normalize_log_Forall; [apply derive_boundary_rule | intros; exact I]. }
  intros h' _.
  apply bindM_log_Forall; [|intros; constructor].
  apply call_log_Forall. exact I.
Qed.

Lemma optimization_configured (field : Parametrizer X) :
  Forall (configured E verts N fi M target_faces seed ps pb ad ag mc)
    (snd (optimization E field)).
Proof.
  unfold optimization.
  repeat first
    [ apply call_log_Forall; exact I
    | apply Forall_nil_2
    | apply bindM_log_Forall; [|intros ? _]
    | match goal with |- context [if ?c then _ else _] => destruct c end ].
Qed.

Lemma run_quadriflow_configured :
  Forall (configured E verts N fi M target_faces seed ps pb ad ag mc)
    (snd (run_quadriflow E verts N fi M target_faces seed ps pb ad ag mc)).
Proof.
  unfold run_quadriflow.
  destruct (_ || _); [constructor|]. destruct (_ <=? _); [constructor|].
  apply bindM_log_Forall; [|intros; constructor].
  unfold run_stages.
  pose proof (set_flags_configured E seed ps pb ad ag mc) as Hflags. cbv zeta in Hflags.
  set (field0 := set_flags _ _ _ _ _ _ _) in *.
  apply bindM_log_Forall; [repeat constructor | intros _ _].
  apply bindM_log_Forall; [repeat constructor | intros _ _].
  apply bindM_log_Forall.
  { unfold LoadFromArrays. apply bindM_log_Forall; [constructor | intros [v f] Hvf].
    apply call_log_Forall. simpl in Hvf. simpl. tauto. }
  intros f1 _.
  apply bindM_log_Forall; [apply call_log_Forall; reflexivity | intros f2 _].
  apply bindM_log_Forall; [|intros; apply optimization_configured].
  destruct (_ =? _); [constructor | apply boundary_constraints_configured].
Qed.

End Configuration.

(** X11.  The configuration is complete before the solver is entered.
    The object on which [NormalizeMesh] -- the first solver stage --
    is called already has every requested flag at 1 (a flag not
    requested is as the constructor left it), the caller's seed in
    [hierarchy.rng_seed], and the compact mesh of the input in [V] and
    [F]; and [Initialize] is called with the caller's [target_faces]. *)
Theorem solver_sees_configuration {X} (E : Engine X) (verts : list float) (N : Z)
    (fi : list Z) (M target_faces seed : Z) (ps pb ad ag mc : bool)
    (s : stage) (field : Parametrizer X) (args : list Z) :
  Call s field args ∈ snd (run_quadriflow E verts N fi M target_faces seed ps pb ad ag mc) ->
  (s = StNormalizeMesh ->
     args = [] /\
     flag_preserve_sharp field
       = (if ps then 1 else flag_preserve_sharp (Parametrizer2_new E)) /\
     flag_preserve_boundary field
       = (if pb then 1 else flag_preserve_boundary (Parametrizer2_new E)) /\
     flag_adaptive_scale field
       = (if ad then 1 else flag_adaptive_scale (Parametrizer2_new E)) /\
     flag_aggresive_sat field
       = (if ag then 1 else flag_aggresive_sat (Parametrizer2_new E)) /\
     flag_minimum_cost_flow field
       = (if mc then 1 else flag_minimum_cost_flow (Parametrizer2_new E)) /\
     rng_seed (hierarchy field) = seed /\
     compact_mesh verts N fi M = Ret (V field, F field)) /\
  (s = StInitialize -> args = [target_faces]).
Proof.
  intros Hin.
  pose proof (run_quadriflow_configured E verts N fi M target_faces seed ps pb ad ag mc) as H.
  rewrite Forall_forall in H. specialize (H _ Hin).
  split; intros ->; exact H.
Qed.

(** The entry of [NormalizeMesh] in a run on the square, seed 5,
    sharp features and minimum-cost flow requested. *)
Lemma normalize_entry :
  exists field,
    Call StNormalizeMesh field []
      ∈ snd (run_quadriflow demo_engine square_verts 4 square_faces 2 10 5
               true false false false true).
Proof.
  eexists. set (log := snd _). vm_compute in (value of log). subst log.
  do 2 apply list_elem_of_further. apply list_elem_of_here.
Qed.

Lemma solver_sees_configuration_witness :
  exists field,
    Call StNormalizeMesh field []
      ∈ snd (run_quadriflow demo_engine square_verts 4 square_faces 2 10 5
               true false false false true) /\
    flag_preserve_sharp field = 1 /\ flag_minimum_cost_flow field = 1 /\
    rng_seed (hierarchy field) = 5 /\
    compact_mesh square_verts 4 square_faces 2 = Ret (V field, F field).
Proof.
  destruct normalize_entry as [field Hin]. exists field. split; [exact Hin|].
  destruct (proj1 (solver_sees_configuration demo_engine square_verts 4 square_faces 2 10 5
                     true false false false true StNormalizeMesh field [] Hin) eq_refl)
    as (_ & Hps & _ & _ & _ & Hmc & Hseed & Hmesh).
  auto.
Defined.

(** ** Where exceptions come from *)

Create HintDb throws.

Lemma never_throws_Ret {A} (a : A) : never_throws (Ret a).
Proof. intros e. discriminate. Qed.

Lemma never_throws_Undefined {A} : never_throws (@Undefined A).
Proof. intros e. discriminate. Qed.

Lemma never_throws_bindO {A B} (m : outcome A) (f : A -> outcome B) :
  never_throws m -> (forall a, m = Ret a -> never_throws (f a)) -> never_throws (bindO m f).
Proof.
  intros Hm Hf e. destruct m as [a| e0 | |]; simpl; try discriminate.
  - apply Hf. reflexivity.
  - intros _. exact (Hm e0 eq_refl).
Qed.

Lemma never_throws_read {A} (a : list A) (i : Z) : never_throws (read a i).
Proof. intros e. unfold read. destruct (_ && _); [destruct (a !! _)|]; discriminate. Qed.

Lemma never_throws_write {A} (a : list A) (i : Z) (x : A) : never_throws (write a i x).
Proof. intros e. unfold write. destruct (_ && _); discriminate. Qed.

Lemma never_throws_read_int {A} (a : list A) (i : Z) : never_throws (read_int a i).
Proof.
  unfold read_int. destruct (int_range i);
    [apply never_throws_read | apply never_throws_Undefined].
Qed.

Lemma never_throws_write_int {A} (a : list A) (i : Z) (x : A) :
  never_throws (write_int a i x).
Proof.
  unfold write_int. destruct (int_range i);
    [apply never_throws_write | apply never_throws_Undefined].
Qed.

#[local] Hint Resolve never_throws_Ret never_throws_Undefined never_throws_read
  never_throws_write never_throws_read_int never_throws_write_int : throws.

Lemma never_throws_read0 {A} (m : list (list A)) (i : Z) : never_throws (read0 m i).
Proof. unfold read0. apply never_throws_bindO; auto with throws. Qed.

Lemma never_throws_write0 {A} (m : list (list A)) (i : Z) (x : A) :
  never_throws (write0 m i x).
Proof.
  unfold write0. repeat (apply never_throws_bindO; [auto with throws | intros ? _]).
  auto with throws.
Qed.

Lemma never_throws_coeff3 (m : list Z) (r c : Z) : never_throws (coeff3 m r c).
Proof. unfold coeff3. auto with throws. Qed.

#[local] Hint Resolve never_throws_read0 never_throws_write0 never_throws_coeff3 : throws.

Lemma never_throws_forO {S} (body : Z -> S -> outcome S) (n : nat) (i : Z) (s : S) :
  (forall j t, never_throws (body j t)) -> never_throws (forO n i body s).
Proof.
  intros Hbody. revert i s. induction n as [|n IH]; intros i s; simpl.
  - auto with throws.
  - apply never_throws_bindO; [apply Hbody | intros; apply IH].
Qed.

Lemma never_throws_add_face (fi : list Z) (i : Z) (st : dedup) :
  never_throws (add_face fi i st).
Proof.
  unfold add_face. repeat (apply never_throws_bindO; [auto with throws | intros ? _]).
  auto with throws.
Qed.

Lemma never_throws_add_position (verts : list float) (i : Z) (ps : list Vector3d) :
  never_throws (add_position verts i ps).
Proof.
  unfold add_position. repeat (apply never_throws_bindO; [auto with throws | intros ? _]).
  auto with throws.
Qed.

Lemma never_throws_extract_vertex {X} (field : Parametrizer X) (i : Z) (out : list float) :
  never_throws (extract_vertex field i out).
Proof.
  unfold extract_vertex. repeat (apply never_throws_bindO; [auto with throws | intros ? _]).
  auto with throws.
Qed.

Lemma never_throws_extract_face {X} (field : Parametrizer X) (i : Z) (out : list Z) :
  never_throws (extract_face field i out).
Proof.
  unfold extract_face. repeat (apply never_throws_bindO; [auto with throws | intros ? _]).
  auto with throws.
Qed.

(** What the compact mesh can throw. *)
Lemma compact_mesh_Throw (verts : list float) (N : Z) (fi : list Z) (M : Z) (e : exn) :
  compact_mesh verts N fi M = Throw e -> e = out_of_range \/ e = length_error.
Proof.
  unfold compact_mesh. intros H.
  destruct (load_positions verts N) as [ps| e' | |] eqn:Hps; simpl in H; try discriminate.
  2:{ injection H as <-. right. unfold load_positions in Hps.
      destruct (N <? 0); [congruence|].
      destruct (never_throws_forO (add_position verts) (Z.to_nat N) 0 []
                  (never_throws_add_position verts) e' Hps). }
  destruct (face_loop fi M) as [st| e' | |] eqn:Hst; simpl in H; try discriminate.
  2:{ destruct (never_throws_forO (add_face fi) (Z.to_nat M) 0 dedup_empty
                  (never_throws_add_face fi) e' Hst). }
  destruct (copy_indices (st_indices st)) as [f| e' | |] eqn:Hf; simpl in H; try discriminate.
  2:{ unfold copy_indices in Hf. destruct (_ <? _); discriminate. }
  destruct (gather_cases ps (st_vertices st)) as [[v Hv] | Hv]; rewrite Hv in H; simpl in H.
  - discriminate.
  - injection H as <-. auto.
Qed.

(** What extraction can throw. *)
Lemma extract_output_Throw {X} (field : Parametrizer X) (e : exn) :
  extract_output field = Throw e ->
  e = runtime_error "QuadriFlow produced an empty mesh" \/ e = length_error.
Proof.
  unfold extract_output, for_int. intros H.
  destruct (_ || _); [injection H as <-; auto|].
  assert (R : forall {A} (n : Z) (x : A) e', resize_int n x = Throw e' -> e' = length_error).
  { intros A n x e'. unfold resize_int.
    destruct (int_range n); [destruct (n <? 0)|]; congruence. }
  match type of H with bindO ?m _ = _ => destruct m as [vs0| e' | |] eqn:H0 end;
    simpl in H; try discriminate; [|injection H as <-; right; eapply R; exact H0].
  match type of H with bindO ?m _ = _ => destruct m as [vs| e' | |] eqn:H1 end;
    simpl in H; try discriminate;
    [|destruct (never_throws_forO _ _ _ _ (never_throws_extract_vertex field) e' H1)].
  match type of H with bindO ?m _ = _ => destruct m as [fs0| e' | |] eqn:H2 end;
    simpl in H; try discriminate; [|injection H as <-; right; eapply R; exact H2].
  match type of H with bindO ?m _ = _ => destruct m as [fs| e' | |] eqn:H3 end;
    simpl in H; try discriminate.
  destruct (never_throws_forO _ _ _ _ (never_throws_extract_face field) e' H3).
Qed.

Lemma bindM_fst_Throw {X A B} (m : M X A) (f : A -> M X B) (e : exn) :
  fst (bindM m f) = Throw e ->
  fst m = Throw e \/ exists a, fst m = Ret a /\ fst (f a) = Throw e.
Proof.
  unfold bindM. destruct (fst m) as [a| e' | |]; cbn [fst]; intros H; try discriminate H.
  - right. exists a. auto.
  - left. injection H as ->. reflexivity.
Qed.

(** A step that does not throw passes the question on. *)
Lemma bindM_lift_Throw {X A B} (o : outcome A) (f : A -> M X B) (e : exn) :
  never_throws o -> fst (bindM (lift o) f) = Throw e -> exists a, fst (f a) = Throw e.
Proof.
  intros Ho H. apply bindM_fst_Throw in H as [H | [a [_ H]]]; [|eauto].
  destruct (Ho e H).
Qed.

Lemma never_throws_forM {X S} (body : Z -> S -> M X S) (n : nat) (i : Z) (s : S) :
  (forall j t, never_throws (fst (body j t))) -> never_throws (fst (forM n i body s)).
Proof.
  intros Hbody. revert i s. induction n as [|n IH]; intros i s e; [discriminate|].
  cbn [forM]. intros H. apply bindM_fst_Throw in H as [H | [a [_ H]]].
  - exact (Hbody i s e H).
  - exact (IH _ _ e H).
Qed.

Lemma never_throws_boundary_edge {X} (i : Z) (h : Hierarchy X) :
  never_throws (fst (boundary_edge i h)).
Proof.
  intros e H. unfold boundary_edge in H.
  apply bindM_lift_Throw in H as [x H]; [|auto with throws].
  destruct (x =? -1); [|discriminate].
  do 4 (apply bindM_lift_Throw in H as [? H]; [|auto with throws]).
  destruct (0 <? squaredNorm _)%float; [|discriminate].
  rewrite bindM_emit in H. cbn [fst] in H.
  do 8 (apply bindM_lift_Throw in H as [? H]; [|auto with throws]).
  discriminate.
Qed.

Lemma never_throws_derive_boundary {X} (h : Hierarchy X) :
  never_throws (fst (derive_boundary h)).
Proof.
  unfold derive_boundary, for_uint32. destruct (_ <? _); [intros e; discriminate|].
  apply never_throws_forM. intros j t. apply never_throws_boundary_edge.
Qed.

(** A run either fails a precondition check, before any entry is
    logged, or logs what [run_stages] logs and ends as extraction
    does on its result. *)
Lemma run_quadriflow_cases {X} (E : Engine X) (verts : list float) (N : Z) (fi : list Z)
    (M target_faces seed : Z) (ps pb ad ag mc : bool) :
  let run := run_quadriflow E verts N fi M target_faces seed ps pb ad ag mc in
  let rs := run_stages E verts N fi M target_faces seed ps pb ad ag mc in
  (snd run = [] /\
   (fst run = Throw (runtime_error "Input mesh is empty") \/
    fst run = Throw (runtime_error "target_faces must be positive"))) \/
  (snd run = snd rs /\ fst run = bindO (fst rs) extract_output).
Proof.
  intros run rs. subst run rs. unfold run_quadriflow.
  destruct (_ || _); [left; split; [reflexivity | left; reflexivity]|].
  destruct (_ <=? _); [left; split; [reflexivity | right; reflexivity]|].
  right. unfold bindM.
  destruct (fst (run_stages _ _ _ _ _ _ _ _ _ _ _ _)); cbn [fst snd lift bindO];
    rewrite ?app_nil_r; split; reflexivity.
Qed.

(** What a stage of the pipeline's own code can throw. *)
Lemma own_step_Throw {X} (E : Engine X) (a : run_args) (s : stage)
    (field : Parametrizer X) (args : list Z) (e : exn) :
  solver_stage s = false -> step E a s field args = Throw e ->
  e = out_of_range \/ e = length_error.
Proof.
  intros Hs H. destruct s; try discriminate Hs; destruct args; try discriminate H;
    cbn [step] in H.
  - destruct (compact_mesh _ _ _ _) as [vf| e' | |] eqn:Hc; try discriminate H.
    injection H as <-. exact (compact_mesh_Throw _ _ _ _ _ Hc).
  - destruct (fst (derive_boundary _)) as [h| e' | |] eqn:Hd; try discriminate H.
    destruct (never_throws_derive_boundary _ _ Hd).
Qed.

(** X12.  [run_quadriflow] neither invents nor swallows an exception.
    An exception that leaves it is either raised by the pipeline's own
    code -- one of its three [std::runtime_error] messages,
    [std::out_of_range] from the position lookup, or
    [std::length_error] from a [resize] -- or it is the exception the
    last call of this run, a call of the solver on the object and the
    arguments the log records, ended with.  And whenever a call this
    run makes, of the solver or of its own code, ends with an
    exception, the run ends with that same exception. *)
Theorem exceptions_are_own_or_solver {X} (E : Engine X) (verts : list float) (N : Z)
    (fi : list Z) (M target_faces seed : Z) (ps pb ad ag mc : bool) :
  let a := mk_run_args verts N fi M seed ps pb ad ag mc in
  let run := run_quadriflow E verts N fi M target_faces seed ps pb ad ag mc in
  (forall e, fst run = Throw e ->
     own_exception e \/
     exists s field args,
       solver_stage s = true /\
       last (calls (snd run)) = Some (s, field, args) /\
       step E a s field args = Throw e) /\
  (forall s field args e,
     Call s field args ∈ snd run -> step E a s field args = Throw e ->
     fst run = Throw e).
Proof.
  intros a run.
  destruct (run_stages_continues E verts N fi M target_faces seed ps pb ad ag mc)
    as (rest & _ & Hchain & [[s0 f0] a0] & Hlast & Hend).
  fold a in Hchain, Hend.
  destruct (run_quadriflow_cases E verts N fi M target_faces seed ps pb ad ag mc)
    as [[Hlog Hown] | [Hlog Hfst]]; fold run in Hlog.
  - split.
    + intros e He. left. unfold own_exception.
      destruct Hown as [Hown | Hown]; fold run in Hown; rewrite Hown in He;
        injection He as <-; auto.
    + intros s field args e Hin. rewrite Hlog in Hin. inversion Hin.
  - fold run in Hfst. rewrite Hlog. split.
    + intros e He. rewrite Hfst in He.
      destruct (fst (run_stages _ _ _ _ _ _ _ _ _ _ _ _)) as [field| e' | |] eqn:Hrs;
        cbn [bindO] in He; try discriminate He.
      * left. unfold own_exception.
        apply extract_output_Throw in He as [-> | ->]; auto 10.
      * injection He as <-. unfold step_of in Hend. cbn [fst snd] in Hend.
        destruct (solver_stage s0) eqn:Hs0.
        -- right. exists s0, f0, a0. auto.
        -- left. unfold own_exception.
           destruct (own_step_Throw E a s0 f0 a0 e' Hs0 Hend) as [-> | ->]; auto 10.
    + intros s field args e Hin Hstep. apply calls_elem in Hin.
      assert (Hl : last (calls (snd (run_stages E verts N fi M target_faces seed
                                       ps pb ad ag mc))) = Some (s, field, args)).
      { apply (chain_stops E a _ _ Hchain Hin). intros x. unfold step_of. cbn [fst snd].
        rewrite Hstep. discriminate. }
      rewrite Hlast in Hl. injection Hl as -> -> ->.
      unfold step_of in Hend. cbn [fst snd] in Hend.
      rewrite Hfst, <- Hend, Hstep. reflexivity.
Qed.

(** A solver whose orientation optimization fails: the run ends with
    the exception of that call. *)
Lemma exceptions_witness :
  fst (run_quadriflow failing_engine [0; 0; 0;  1; 0; 0;  0; 1; 0]%float 3 [0; 1; 2] 1
         10 0 false false false false false) = Throw (runtime_error "solver failure").
Proof.
  eapply (proj2 (exceptions_are_own_or_solver failing_engine
                   [0; 0; 0;  1; 0; 0;  0; 1; 0]%float 3 [0; 1; 2] 1
                   10 0 false false false false false)
            StOptimizeOrientations _ []).
  - orientation_entry.
  - reflexivity.
Defined.

(** ** The binding layer *)

(** X13.  Shape errors come first.  An array of vertices that does not
    have three columns, an array of faces that does not have three
    columns, or an array without rows ends the call with the message
    of the first of these checks that fails -- whatever [target_faces]
    is, and before any stage is entered. *)
Theorem binding_rejects_bad_shapes {X} (E : Engine X)
    (vs : NDArray float) (fs : NDArray Z) (target_faces seed : Z) (ps pb ad ag mc : bool) :
  let remesh := py_quadriflow_remesh E vs fs target_faces seed ps pb ad ag mc in
  (shape1 vs <> 3 ->
   remesh = (Throw (runtime_error "vertices must have shape (N, 3)"), [])) /\
  (shape1 vs = 3 -> shape1 fs <> 3 ->
   remesh = (Throw (runtime_error
                      "faces must have shape (M, 3) — input must be a triangle mesh"), [])) /\
  (shape1 vs = 3 -> shape1 fs = 3 -> shape0 vs = 0 \/ shape0 fs = 0 ->
   remesh = (Throw (runtime_error "Input mesh is empty"), [])).
Proof.
  intros remesh. subst remesh. unfold py_quadriflow_remesh.
  destruct (Z.eqb_spec (shape1 vs) 3) as [Hv|Hv]; cbn [negb].
  2:{ split; [reflexivity|]. split; intros; contradiction. }
  destruct (Z.eqb_spec (shape1 fs) 3) as [Hf|Hf]; cbn [negb].
  2:{ split; [intros; contradiction|]. split; [reflexivity | intros; contradiction]. }
  split; [intros; contradiction|]. split; [intros; contradiction|].
  intros _ _ [H0 | H0]; rewrite H0; [reflexivity|].
  rewrite orb_true_r. reflexivity.
Qed.

(** Two columns of vertices, five columns of faces, no face and a
    target of zero: the vertex shape is what is reported. *)
Lemma binding_rejects_bad_shapes_witness :
  py_quadriflow_remesh demo_engine (mkNDArray 4 2 [0; 0; 1; 0; 0; 1; 1; 1]%float)
    (mkNDArray 0 5 []) 0 0 false false false false false
  = (Throw (runtime_error "vertices must have shape (N, 3)"), []).
Proof.
  refine (proj1 (binding_rejects_bad_shapes demo_engine
                   (mkNDArray 4 2 [0; 0; 1; 0; 0; 1; 1; 1]%float) (mkNDArray 0 5 [])
                   0 0 false false false false false) _).
  simpl. lia.
Defined.

Lemma memcpy_int_whole {A} (dst src : list A) (n : Z) :
  0 <= n <= INT_MAX -> Z.of_nat (length dst) = n -> Z.of_nat (length src) = n ->
  memcpy_int dst src n = Ret src.
Proof.
  intros Hn Hd Hs. unfold memcpy_int.
  rewrite (proj2 (int_range_spec n)) by (unfold INT_MIN; lia).
  destruct (Z.leb_spec 0 n); [|lia].
  destruct (Z.leb_spec n (Z.of_nat (length dst))); [|lia].
  destruct (Z.leb_spec n (Z.of_nat (length src))); [|lia].
  cbn [andb]. f_equal.
  rewrite firstn_all2, skipn_all2 by lia. apply app_nil_r.
Qed.

(** The arrays made of a well-shaped result. *)
Lemma result_arrays_Ret (res : QuadriFlowResult) :
  0 < num_vertices res -> 0 < num_faces res ->
  3 * num_vertices res <= INT_MAX -> 4 * num_faces res <= INT_MAX ->
  Z.of_nat (length (vertices res)) = 3 * num_vertices res ->
  Z.of_nat (length (faces res)) = 4 * num_faces res ->
  result_arrays res
  = Ret (mkNDArray (num_vertices res) 3 (vertices res),
         mkNDArray (num_faces res) 4 (faces res)).
Proof.
  intros Hnv Hnf Hvmax Hfmax Hv Hf. unfold result_arrays, MakeNDArray, set_data.
  cbn [data shape0 shape1].
  rewrite memcpy_int_whole by (rewrite ?length_replicate; lia). cbn [bindO].
  rewrite memcpy_int_whole by (rewrite ?length_replicate; lia). reflexivity.
Qed.

(** X14.  Past the shape checks the binding is [run_quadriflow] on the
    two buffers and the two row counts: it logs what that run logs, an
    exception of the run leaves the binding unchanged, and a result
    comes back as two arrays -- [(K, 3)] over the result's vertex
    array and [(L, 4)] over its face array, [K] and [L] its positive
    counts -- both copies staying inside source and destination. *)
Theorem binding_returns_result_arrays {X} (E : Engine X)
    (vs : NDArray float) (fs : NDArray Z) (target_faces seed : Z) (ps pb ad ag mc : bool) :
  shape1 vs = 3 -> shape1 fs = 3 -> shape0 vs <> 0 -> shape0 fs <> 0 ->
  let run := run_quadriflow E (data vs) (to_int (shape0 vs)) (data fs) (to_int (shape0 fs))
               target_faces seed ps pb ad ag mc in
  let remesh := py_quadriflow_remesh E vs fs target_faces seed ps pb ad ag mc in
  snd remesh = snd run /\
  (forall e, fst run = Throw e -> fst remesh = Throw e) /\
  (forall res, fst run = Ret res ->
     fst remesh = Ret (mkNDArray (num_vertices res) 3 (vertices res),
                     mkNDArray (num_faces res) 4 (faces res)) /\
     0 < num_vertices res /\ 0 < num_faces res /\
     Z.of_nat (length (vertices res)) = num_vertices res * 3 /\
     Z.of_nat (length (faces res)) = num_faces res * 4).
Proof.
  intros Hv Hf Hv0 Hf0 run remesh. subst remesh. unfold py_quadriflow_remesh.
  rewrite Hv, Hf. cbn [Z.eqb Pos.eqb negb].
  destruct (Z.eqb_spec (shape0 vs) 0); [contradiction|].
  destruct (Z.eqb_spec (shape0 fs) 0); [contradiction|]. cbn [orb]. fold run.
  split; [|split].
  - unfold bindM. destruct (fst run); cbn [snd lift]; rewrite ?app_nil_r; reflexivity.
  - intros e He. unfold bindM. rewrite He. reflexivity.
  - intros res Hres.
    assert (Hshape : exists field : Parametrizer X, extract_output field = Ret res).
    { revert Hres. subst run. unfold run_quadriflow.
      destruct (_ || _); [discriminate|]. destruct (_ <=? _); [discriminate|].
      intros Hres. apply bindM_fst_Ret in Hres as [field [_ Hres]].
      exists field. exact Hres. }
    destruct Hshape as [field Hex].
    destruct (extract_output_shape field res Hex) as (Hnv & Hnf & Hvmax & Hfmax & Hlv & Hlf).
    split; [|repeat split; lia].
    rewrite (bindM_Ret _ _ res Hres). cbn [fst lift].
    apply result_arrays_Ret; assumption.
Qed.

Lemma binding_returns_witness :
  fst (py_quadriflow_remesh demo_engine (mkNDArray 4 3 square_verts)
         (mkNDArray 2 3 square_faces) 10 0 false true true false false)
  = Ret (mkNDArray 4 3 [1; 1; 1;  3; 1; 1;  1; 3; 1;  3; 3; 1]%float,
         mkNDArray 1 4 [0; 1; 3; 2]).
Proof.
  refine (proj1 (proj2 (proj2 (binding_returns_result_arrays demo_engine
                                 (mkNDArray 4 3 square_verts) (mkNDArray 2 3 square_faces)
                                 10 0 false true true false false _ _ _ _))
                   (mkQuadriFlowResult [1; 1; 1;  3; 1; 1;  1; 3; 1;  3; 3; 1]%float
                      [0; 1; 3; 2] 4 1) square_run_result));
    (reflexivity || discriminate).
Defined.

(** ** The boundary block, end to end *)

(** The entries of the boundary block: the call of [clearConstraints]
    on the object it is entered with; and, if the loop is reached and
    returns, the call of [propagateConstraints] on that object with
    the hierarchy swapped for the loop's result. *)
Lemma boundary_constraints_entries {X} (E : Engine X) (field0 field : Parametrizer X)
    (args : list Z) :
  Call StClearConstraints field0 [] ∈ snd (boundary_constraints E field0) /\
  (Call StPropagateConstraints field args ∈ snd (boundary_constraints E field0) ->
   exists hc,
     clearConstraints E (hierarchy field0) = Ret hc /\
     fst (derive_boundary hc) = Ret (hierarchy field) /\
     field = set_hierarchy field0 (hierarchy field) /\ args = []).
Proof.
  unfold boundary_constraints. split.
  - apply bindM_log_elem. left. apply list_elem_of_here.
  - intros H.
    apply bindM_log_elem in H as [H | (hc & Hhc & H)].
    { apply list_elem_of_singleton in H. discriminate H. }
    apply bindM_log_elem in H as [H | (_ & _ & H)].
    { apply list_elem_of_singleton in H. discriminate H. }
    apply bindM_log_elem in H as [H | (h' & Hh' & H)].
    { destruct (derive_boundary_rule (hierarchy (set_hierarchy field0 hc))) as [HQ _].
      rewrite Forall_forall in HQ. destruct (HQ _ H). }
    apply bindM_log_elem in H as [H | (h'' & _ & H)].
    + apply list_elem_of_singleton in H. injection H as -> ->.
      exists hc. repeat split; assumption.
    + apply elem_of_nil in H. destruct H.
Qed.

(** No entry of the optimization block is a call of
    [propagateConstraints]. *)
Lemma optimization_no_propagate {X} (E : Engine X) (field f : Parametrizer X)
    (args : list Z) :
  Call StPropagateConstraints f args ∉ snd (optimization E field).
Proof.
  intros H.
  assert (HQ : Forall (fun e => stage_of e <> Some StPropagateConstraints)
                 (snd (optimization E field))).
  { unfold optimization.
    repeat first
      [ apply call_log_Forall; discriminate
      | apply Forall_nil_2
      | apply bindM_log_Forall; [|intros ? _]
      | match goal with |- context [if ?c then _ else _] => destruct c end ]. }
  rewrite Forall_forall in HQ. apply (HQ _ H). reflexivity.
Qed.

(** X15.  The boundary block acts on one hierarchy, in order.
    Wherever a run calls [propagateConstraints], the hierarchy it is
    called on is what the boundary loop returned when started on what
    [clearConstraints] returned; [clearConstraints] was called, on the
    object the block was entered with; and between the two calls the
    object changed in its hierarchy only. *)
Theorem boundary_block_chain {X} (E : Engine X) (verts : list float) (N : Z)
    (fi : list Z) (M target_faces seed : Z) (ps pb ad ag mc : bool)
    (field : Parametrizer X) (args : list Z) :
  Call StPropagateConstraints field args
    ∈ snd (run_quadriflow E verts N fi M target_faces seed ps pb ad ag mc) ->
  exists field0 hc,
    Call StClearConstraints field0 []
      ∈ snd (run_quadriflow E verts N fi M target_faces seed ps pb ad ag mc) /\
    clearConstraints E (hierarchy field0) = Ret hc /\
    fst (derive_boundary hc) = Ret (hierarchy field) /\
    field = set_hierarchy field0 (hierarchy field) /\ args = [].
Proof.
  unfold run_quadriflow.
  destruct (_ || _); [intros H; apply elem_of_nil in H; destruct H|].
  destruct (_ <=? _); [intros H; apply elem_of_nil in H; destruct H|].
  intros H.
  apply bindM_log_elem in H as [H | (? & _ & H)];
    [|apply elem_of_nil in H; destruct H].
  assert (Hkeep : forall e, e ∈ snd (run_stages E verts N fi M target_faces seed
                                 ps pb ad ag mc) ->
            e ∈ snd (bindM (run_stages E verts N fi M target_faces seed ps pb ad ag mc)
                       (fun field => lift (extract_output field)))).
  { intros e He. apply bindM_log_elem. left. exact He. }
  revert H Hkeep. unfold run_stages. set (field_set := set_flags _ _ _ _ _ _ _).
  intros H Hkeep.
  apply bindM_log_elem in H as [H | (_ & _ & H)].
  { apply list_elem_of_singleton in H. discriminate H. }
  apply bindM_log_elem in H as [H | (_ & _ & H)].
  { apply list_elem_of_singleton in H. discriminate H. }
  apply bindM_log_elem in H as [H | (f1 & Hf1 & H)].
  { unfold LoadFromArrays in H. apply bindM_log_elem in H as [H | (? & _ & H)].
    - apply elem_of_nil in H. destruct H.
    - apply list_elem_of_singleton in H. discriminate H. }
  apply bindM_log_elem in H as [H | (f2 & Hf2 & H)].
  { apply list_elem_of_singleton in H. discriminate H. }
  apply bindM_log_elem in H as [H | (f3 & _ & H)].
  2:{ destruct (optimization_no_propagate _ _ _ _ H). }
  destruct (flag_preserve_boundary f2 =? 0) eqn:Hflag.
  { apply elem_of_nil in H. destruct H. }
  destruct (boundary_constraints_entries E f2 field args) as [Hclear Hprop].
  destruct (Hprop H) as (hc & Hhc & Hrun & Hfield & Hargs).
  exists f2, hc. split; [|auto].
  apply Hkeep.
  apply bindM_log_elem. right. exists tt. split; [reflexivity|].
  apply bindM_log_elem. right. exists tt. split; [reflexivity|].
  apply bindM_log_elem. right. exists f1. split; [exact Hf1|].
  apply bindM_log_elem. right. exists f2. split; [exact Hf2|].
  apply bindM_log_elem. left. rewrite Hflag. exact Hclear.
Qed.

Ltac derive_returns :=
  unfold derive_boundary, for_uint32;
  lazymatch goal with
  | |- fst (if ?c then _ else _) = Ret _ =>
      let cv := eval vm_compute in c in
      change c with cv; cbv iota; loop_returns
  end.

(** The entry of [propagateConstraints] in a run on one triangle,
    boundary preservation requested. *)
Lemma propagate_entry :
  exists field,
    Call StPropagateConstraints field []
      ∈ snd (run_quadriflow demo_engine [0; 0; 0;  1; 0; 0;  0; 1; 0]%float 3 [0; 1; 2] 1
               10 0 false true false false false).
Proof.
  eexists. unfold run_quadriflow.
  change ((3 <=? 0) || (1 <=? 0)) with false. change (10 <=? 0) with false. cbv iota.
  apply bindM_log_elem. left. unfold run_stages. cbv zeta.
  log_past ltac:(reflexivity). log_past ltac:(reflexivity).
  log_past returns. log_past returns.
  apply bindM_log_elem. left.
  lazymatch goal with
  | |- context [if ?c then _ else _] =>
      let cv := eval vm_compute in c in change c with cv; cbv iota
  end.
  unfold boundary_constraints.
  log_past returns. log_past ltac:(reflexivity). log_past derive_returns.
  apply bindM_log_elem. left. apply list_elem_of_here.
Qed.

Lemma boundary_block_chain_witness :
  exists field field0 hc,
    Call StPropagateConstraints field []
      ∈ snd (run_quadriflow demo_engine [0; 0; 0;  1; 0; 0;  0; 1; 0]%float 3 [0; 1; 2] 1
               10 0 false true false false false) /\
    clearConstraints demo_engine (hierarchy field0) = Ret hc /\
    fst (derive_boundary hc) = Ret (hierarchy field).
Proof.
  destruct propagate_entry as [field Hin]. exists field.
  destruct (boundary_block_chain demo_engine [0; 0; 0;  1; 0; 0;  0; 1; 0]%float 3
              [0; 1; 2] 1 10 0 false true false false false field [] Hin)
    as (field0 & hc & _ & Hclear & Hrun & _).
  exists field0, hc. auto.
Defined.
